(** * BsEvent.h: the event / callback-connection primitive of BansheeUtility

    A shallow embedding of [BaseConnectionData], [EventInternalData],
    [HEvent] and [TEvent] (Source/BansheeUtility/Include/BsEvent.h), and a
    verification of the list, reference-count and trigger behaviour of
    the event against its specification.

    Memory is an arena of connection records addressed by index: records
    are obtained with [bs_new] and are only returned to the allocator when
    the event data is destroyed, so an address stays valid for the whole
    life of the event.  Dereferencing an address that was never allocated
    is undefined behaviour in C++ and is reported as [Fault]. *)

From Stdlib Require Import ZArith Lia.
From stdpp Require Import base option list gmap.
From stdpp Require Import sorting.

(** ** Results of running code

    [Fault] is a null or wild pointer dereference, or a failed [assert];
    [OutOfFuel] means that the step budget of a loop was exhausted. *)

Inductive result (A : Type) : Type :=
  | Ok (a : A)
  | Fault
  | OutOfFuel.
Arguments Ok {A} a.
Arguments Fault {A}.
Arguments OutOfFuel {A}.

Global Instance result_ret : MRet result := λ A a, Ok a.
Global Instance result_bind : MBind result := λ A B f m,
  match m with
  | Ok a => f a
  | Fault => Fault
  | OutOfFuel => OutOfFuel
  end.

(** ** Connection records *)

Abbreviation ptr := nat (only parsing).
Abbreviation cbid := nat (only parsing).
Abbreviation slot := nat (only parsing).

(** [UINT32 handleLinks]: arithmetic wraps modulo 2^32. *)
Definition UINT32_MOD : Z := (2 ^ 32)%Z.
Definition u32_inc (z : Z) : Z := ((z + 1) mod UINT32_MOD)%Z.
Definition u32_dec (z : Z) : Z := ((z - 1) mod UINT32_MOD)%Z.

(** [TEvent::ConnectionData], with the fields of its base
    [BaseConnectionData].  [func] is the stored [std::function]; [None]
    is the empty function ([func == nullptr]); a callback is named by an
    identifier whose code is looked up in the callback environment. *)
Record ConnectionData : Type := mkConn {
  prev : option ptr;
  next : option ptr;
  isActive : bool;
  handleLinks : Z;
  func : option cbid
}.

(** The constructor [ConnectionData()]: [BaseConnectionData()] and a
    default-constructed, empty [func]. *)
Definition ConnectionData_new : ConnectionData :=
  mkConn None None true 0%Z None.

Definition set_prev (v : option ptr) (c : ConnectionData) : ConnectionData :=
  mkConn v (next c) (isActive c) (handleLinks c) (func c).
Definition set_next (v : option ptr) (c : ConnectionData) : ConnectionData :=
  mkConn (prev c) v (isActive c) (handleLinks c) (func c).
Definition set_isActive (v : bool) (c : ConnectionData) : ConnectionData :=
  mkConn (prev c) (next c) v (handleLinks c) (func c).
Definition set_handleLinks (v : Z) (c : ConnectionData) : ConnectionData :=
  mkConn (prev c) (next c) (isActive c) v (func c).
Definition set_func (v : option cbid) (c : ConnectionData) : ConnectionData :=
  mkConn (prev c) (next c) (isActive c) (handleLinks c) v.

(** [ConnectionData::deactivate]: [func = nullptr], then the base class
    clears [isActive]. *)
Definition deactivate (c : ConnectionData) : ConnectionData :=
  set_isActive false (set_func None c).

(** [handleLinks++] and [handleLinks--]. *)
Definition inc_links (c : ConnectionData) : ConnectionData :=
  set_handleLinks (u32_inc (handleLinks c)) c.
Definition dec_links (c : ConnectionData) : ConnectionData :=
  set_handleLinks (u32_dec (handleLinks c)) c.

(** ** EventInternalData *)

Record EventInternalData : Type := mkEvent {
  heap : list ConnectionData;
  mConnections : option ptr;
  mFreeConnections : option ptr
}.

(** [EventInternalData()] *)
Definition EventInternalData_new : EventInternalData :=
  mkEvent [] None None.

Definition set_heap (h : list ConnectionData) (d : EventInternalData) :=
  mkEvent h (mConnections d) (mFreeConnections d).
Definition set_mConnections (v : option ptr) (d : EventInternalData) :=
  mkEvent (heap d) v (mFreeConnections d).
Definition set_mFreeConnections (v : option ptr) (d : EventInternalData) :=
  mkEvent (heap d) (mConnections d) v.

(** Reading [*p] and writing [*p = f( *p )]. *)
Definition deref (p : ptr) (d : EventInternalData) : result ConnectionData :=
  match heap d !! p with
  | Some c => Ok c
  | None => Fault
  end.

Definition store (p : ptr) (f : ConnectionData → ConnectionData)
    (d : EventInternalData) : result EventInternalData :=
  match heap d !! p with
  | Some c => Ok (set_heap (<[p := f c]> (heap d)) d)
  | None => Fault
  end.

(** [bs_new<ConnectionData>()]: a record at a fresh address. *)
Definition bs_new (d : EventInternalData) : ptr * EventInternalData :=
  (length (heap d), set_heap (heap d ++ [ConnectionData_new]) d).

(** The explicit destructor call [conn->~BaseConnectionData()]: the
    destructor is virtual, so [func] is destroyed, and the base
    destructor asserts [!handleLinks && !isActive]. *)
Definition destroy (p : ptr) (d : EventInternalData) : result EventInternalData :=
  c ← deref p d;
  if bool_decide (handleLinks c = 0%Z) && negb (isActive c)
  then store p (set_func None) d
  else Fault.

(** [EventInternalData::free] *)
Definition free (conn : ptr) (d : EventInternalData) : result EventInternalData :=
  c ← deref conn d;
  d ← match prev c with
       | Some q => store q (set_next (next c)) d
       | None => Ok (set_mConnections (next c) d)
       end;
  c ← deref conn d;
  d ← match next c with
       | Some n => store n (set_prev (prev c)) d
       | None => Ok d
       end;
  d ← store conn (set_prev None) d;
  d ← store conn (set_next None) d;
  d ← match mFreeConnections d with
       | Some f =>
           d ← store conn (set_next (Some f)) d;
           store f (set_prev (Some conn)) d
       | None => Ok d
       end;
  destroy conn (set_mFreeConnections (Some conn) d).

(** [EventInternalData::disconnect] *)
Definition disconnect (conn : ptr) (d : EventInternalData) : result EventInternalData :=
  d ← store conn deactivate d;
  d ← store conn dec_links d;
  c ← deref conn d;
  if bool_decide (handleLinks c = 0%Z) then free conn d else Ok d.

(** [EventInternalData::freeHandle] *)
Definition freeHandle (conn : ptr) (d : EventInternalData) : result EventInternalData :=
  d ← store conn dec_links d;
  c ← deref conn d;
  if bool_decide (handleLinks c = 0%Z) && negb (isActive c)
  then free conn d
  else Ok d.

(** The loop of [EventInternalData::clear], one iteration per unit of
    fuel. *)
Fixpoint clear_loop (fuel : nat) (conn : option ptr) (d : EventInternalData)
    : result EventInternalData :=
  match conn with
  | None => Ok d
  | Some p =>
      match fuel with
      | O => OutOfFuel
      | S fuel' =>
          c ← deref p d;
          let nxt := next c in
          d ← store p deactivate d;
          c ← deref p d;
          d ← (if bool_decide (handleLinks c = 0%Z) then free p d else Ok d);
          clear_loop fuel' nxt d
      end
  end.

(** [EventInternalData::clear] *)
Definition clear (fuel : nat) (d : EventInternalData) : result EventInternalData :=
  clear_loop fuel (mConnections d) d.

(** ** HEvent *)

(** [mEventData] is the shared pointer to the event's internal data;
    there is one event, so only whether the pointer is set is kept. *)
Record HEvent : Type := mkHEvent {
  mConnection : option ptr;
  mEventData : bool
}.

(** [HEvent()] *)
Definition HEvent_null : HEvent := mkHEvent None false.

(** [HEvent(eventData, connection)] *)
Definition HEvent_new (connection : ptr) (d : EventInternalData)
    : result (HEvent * EventInternalData) :=
  d ← store connection inc_links d;
  Ok (mkHEvent (Some connection) true, d).

(** [~HEvent] *)
Definition HEvent_dtor (h : HEvent) (d : EventInternalData) : result EventInternalData :=
  match mConnection h with
  | Some p => if mEventData h then freeHandle p d else Fault
  | None => Ok d
  end.

(** [HEvent::disconnect]: the new value of the handle and of the event
    data. *)
Definition HEvent_disconnect (h : HEvent) (d : EventInternalData)
    : result (HEvent * EventInternalData) :=
  match mConnection h with
  | Some p =>
      if mEventData h
      then d ← disconnect p d; Ok (HEvent_null, d)
      else Fault
  | None => Ok (h, d)
  end.

(** The conversion of a handle to [bool]. *)
Definition HEvent_bool (h : HEvent) : bool :=
  match mConnection h with Some _ => true | None => false end.

(** [HEvent::operator=]: the new value of the assigned handle and of the
    event data.  The former value of the assigned handle takes no part. *)
Definition HEvent_assign (rhs : HEvent) (d : EventInternalData)
    : result (HEvent * EventInternalData) :=
  let this := mkHEvent (mConnection rhs) (mEventData rhs) in
  match mConnection this with
  | Some p => d ← store p inc_links d; Ok (this, d)
  | None => Ok (this, d)
  end.

(** ** TEvent *)

(** [TEvent::connect] *)
Definition TEvent_connect (f : cbid) (d : EventInternalData)
    : result (HEvent * EventInternalData) :=
  '(connData, d) ←
    match mFreeConnections d with
    | Some c =>
        r ← deref c d;
        let d := set_mFreeConnections (next r) d in
        d ← store c (λ _, ConnectionData_new) d;
        r ← deref c d;
        d ← match next r with
             | Some n => store n (set_prev None) d
             | None => Ok d
             end;
        d ← store c (set_isActive true) d;
        Ok (Some c, d)
    | None => Ok (None, d)
    end;
  '(c, d) ←
    match connData with
    | Some c => Ok (c, d)
    | None => Ok (bs_new d)
    end;
  d ← store c (set_next (mConnections d)) d;
  d ← match mConnections d with
       | Some m => store m (set_prev (Some c)) d
       | None => Ok d
       end;
  let d := set_mConnections (Some c) d in
  d ← store c (set_func (Some f)) d;
  HEvent_new c d.

(** [TEvent::empty] *)
Definition TEvent_empty (d : EventInternalData) : bool :=
  match mConnections d with None => true | Some _ => false end.

(** ** Destruction of the event

    The loops of [~EventInternalData]: [next] is read, then the record is
    handed to [bs_free].  [released] lists the addresses handed to
    [bs_free] so far, in order; reading a record that was released, or
    releasing it a second time, is undefined behaviour.  [bs_free] runs
    no destructor. *)
Fixpoint free_loop (fuel : nat) (conn : option ptr) (d : EventInternalData)
    (released : list ptr) : result (list ptr) :=
  match conn with
  | None => Ok released
  | Some p =>
      match fuel with
      | O => OutOfFuel
      | S fuel' =>
          if decide (p ∈ released) then Fault
          else
            c ← deref p d;
            let nxt := next c in
            free_loop fuel' nxt d (released ++ [p])
      end
  end.

(** [~EventInternalData]: the addresses released, in order. *)
Definition EventInternalData_dtor (fuel : nat) (d : EventInternalData)
    : result (list ptr) :=
  released ← free_loop fuel (mConnections d) d [];
  free_loop fuel (mFreeConnections d) d released.

(** [TEvent::clear] *)
Definition TEvent_clear (fuel : nat) (d : EventInternalData)
    : result EventInternalData :=
  clear fuel d.

(** [~TEvent] *)
Definition TEvent_dtor (fuel : nat) (d : EventInternalData)
    : result EventInternalData :=
  TEvent_clear fuel d.

(** ** Client code

    The program around the event: handle variables, numbered by slot
    (a slot that holds no entry is a default-constructed [HEvent]), and
    the trace of callback invocations. *)

Record world : Type := mkWorld {
  ev : EventInternalData;
  handles : gmap nat HEvent;
  log : list cbid
}.

Definition world_new : world := mkWorld EventInternalData_new ∅ [].

Definition set_ev (d : EventInternalData) (w : world) : world :=
  mkWorld d (handles w) (log w).
Definition set_handles (hs : gmap nat HEvent) (w : world) : world :=
  mkWorld (ev w) hs (log w).
Definition log_call (f : cbid) (w : world) : world :=
  mkWorld (ev w) (handles w) (log w ++ [f]).

Definition handle_at (s : slot) (w : world) : HEvent :=
  default HEvent_null (handles w !! s).

(** Statements of client code. *)
Inductive cmd : Type :=
  | CConnect (dst : option slot) (f : cbid)
      (** [h = event.connect(f);], or [event.connect(f);] with the
          returned temporary dropped *)
  | CDisconnect (s : slot)        (** [h.disconnect();] *)
  | CDestroy (s : slot)           (** [h] goes out of scope *)
  | CAssign (dst src : slot)      (** [h1 = h2;] *)
  | CClear                        (** [event.clear();] *)
  | CTrigger.                     (** [event();] *)

Definition run_cmds (exec : cmd → world → result world)
    : list cmd → world → result world :=
  fix go cs w :=
    match cs with
    | [] => Ok w
    | c :: cs' => w ← exec c w; go cs' w
    end.

Section Client.

(** The code of each callback. *)
Variable body : cbid → list cmd.

Definition exec_cmd (fuel : nat) (trig : world → result world)
    (c : cmd) (w : world) : result world :=
  match c with
  | CConnect dst f =>
      '(tmp, d) ← TEvent_connect f (ev w);
      match dst with
      | Some s =>
          '(h, d) ← HEvent_assign tmp d;
          d ← HEvent_dtor tmp d;
          Ok (set_handles (<[s := h]> (handles w)) (set_ev d w))
      | None =>
          d ← HEvent_dtor tmp d;
          Ok (set_ev d w)
      end
  | CDisconnect s =>
      '(h, d) ← HEvent_disconnect (handle_at s w) (ev w);
      Ok (set_handles (<[s := h]> (handles w)) (set_ev d w))
  | CDestroy s =>
      d ← HEvent_dtor (handle_at s w) (ev w);
      Ok (set_handles (delete s (handles w)) (set_ev d w))
  | CAssign dst src =>
      '(h, d) ← HEvent_assign (handle_at src w) (ev w);
      Ok (set_handles (<[dst := h]> (handles w)) (set_ev d w))
  | CClear =>
      d ← clear fuel (ev w);
      Ok (set_ev d w)
  | CTrigger => trig w
  end.

(** The loop of [TEvent::operator()]: [next] is read before the
    callback runs.  The callbacks run statements on the same event (the
    mutex is recursive), a trigger among them; the loop need not end,
    since callbacks can go on recycling the record the walk visits
    next, hence the fuel. *)
Fixpoint walk (fuel : nat) (conn : option ptr) (w : world) : result world :=
  match conn with
  | None => Ok w
  | Some p =>
      match fuel with
      | O => OutOfFuel
      | S fuel' =>
          c ← deref p (ev w);
          let nxt := next c in
          w ← match func c with
               | Some f =>
                   run_cmds
                     (exec_cmd fuel' (λ w', walk fuel' (mConnections (ev w')) w'))
                     (body f) (log_call f w)
               | None => Ok w
               end;
          walk fuel' nxt w
      end
  end.

(** [TEvent::operator()] *)
Definition trigger (fuel : nat) (w : world) : result world :=
  walk fuel (mConnections (ev w)) w.

Definition exec (fuel : nat) : cmd → world → result world :=
  exec_cmd fuel (trigger fuel).

Definition run (fuel : nat) (cs : list cmd) (w : world) : result world :=
  run_cmds (exec fuel) cs w.

End Client.

(** ** Representation of the two lists

    [dlseg h prv l nxt]: the records at the addresses [l] are chained
    through [next] and [prev], the first one having [prv] before it and
    the last one [nxt] after it. *)

Definition hd_or (nxt : option ptr) (l : list ptr) : option ptr :=
  match l with
  | [] => nxt
  | p :: _ => Some p
  end.

Fixpoint last_or (prv : option ptr) (l : list ptr) : option ptr :=
  match l with
  | [] => prv
  | p :: l' => last_or (Some p) l'
  end.

Fixpoint dlseg (h : list ConnectionData) (prv : option ptr) (l : list ptr)
    (nxt : option ptr) : Prop :=
  match l with
  | [] => True
  | p :: l' =>
      (∃ c, h !! p = Some c ∧ prev c = prv ∧ next c = hd_or nxt l')
      ∧ dlseg h (Some p) l' nxt
  end.

(** The free list is only ever followed through [next]. *)
Fixpoint sll (h : list ConnectionData) (l : list ptr) : Prop :=
  match l with
  | [] => True
  | p :: l' => (∃ c, h !! p = Some c ∧ next c = head l') ∧ sll h l'
  end.

(** [shape d al fl]: [al] is the list of connections headed by
    [mConnections], [fl] the list headed by [mFreeConnections], and every
    allocated record is in exactly one of them. *)
Record shape (d : EventInternalData) (al fl : list ptr) : Prop := mkShape {
  shape_head : mConnections d = head al;
  shape_free_head : mFreeConnections d = head fl;
  shape_active : dlseg (heap d) None al None;
  shape_free : sll (heap d) fl;
  shape_alloc : al ++ fl ≡ₚ seq 0 (length (heap d))
}.

(** A record of the free list has been deactivated and has no handle. *)
Definition free_record (c : ConnectionData) : Prop :=
  isActive c = false ∧ handleLinks c = 0%Z ∧ func c = None.

(** A record of the connection list: one that is inactive has no callback
    and is still referenced by a handle. *)
Definition live_record (c : ConnectionData) : Prop :=
  (0 ≤ handleLinks c < UINT32_MOD)%Z
  ∧ (isActive c = false → func c = None ∧ handleLinks c ≠ 0%Z).

Record repr (d : EventInternalData) (al fl : list ptr) : Prop := mkRepr {
  repr_shape : shape d al fl;
  repr_live : ∀ p c, p ∈ al → heap d !! p = Some c → live_record c;
  repr_dead : ∀ p c, p ∈ fl → heap d !! p = Some c → free_record c
}.

(** The fields of a record other than its links. *)
Definition data_eq (c c' : ConnectionData) : Prop :=
  isActive c' = isActive c ∧ handleLinks c' = handleLinks c ∧ func c' = func c.

Definition same_data (h h' : list ConnectionData) : Prop :=
  length h' = length h
  ∧ ∀ q c, h !! q = Some c → ∃ c', h' !! q = Some c' ∧ data_eq c c'.

(** ** Handles against reference counts *)

(** The number of handle variables that reference record [q]. *)
Definition refs (q : ptr) (hs : gmap nat HEvent) : nat :=
  size (filter (λ kv, mConnection kv.2 = Some q) hs).

Definition links_of (q : ptr) (d : EventInternalData) : Z :=
  match heap d !! q with
  | Some c => handleLinks c
  | None => 0%Z
  end.

Record inv (w : world) (al fl : list ptr) : Prop := mkInv {
  inv_repr : repr (ev w) al fl;
  inv_refs : ∀ q, (Z.of_nat (refs q (handles w)) ≤ links_of q (ev w))%Z;
  inv_data : ∀ s h, handles w !! s = Some h →
                    is_Some (mConnection h) → mEventData h = true
}.

(** The callbacks stored in the records at [l], in order, the empty ones
    left out. *)
Definition callbacks (h : list ConnectionData) (l : list ptr) : list cbid :=
  omap (λ p, c ← h !! p; func c) l.

(** ** Auxiliary notions and examples *)

(** [data_upd p g h h']: from [h] to [h'] the data of the record at [p]
    changes as [g] does, and the data of every other record is kept. *)
Definition data_upd (p : nat) (g : ConnectionData → ConnectionData)
    (h h' : list ConnectionData) : Prop :=
  length h' = length h
  ∧ ∀ q c, h !! q = Some c →
      ∃ c', h' !! q = Some c' ∧ data_eq (if decide (q = p) then g c else c) c'.

(** [points q h]: whether the handle [h] references record [q]. *)
Definition points (q : nat) (h : HEvent) : nat :=
  if decide (mConnection h = Some q) then 1 else 0.

Definition is_assign (c : cmd) : bool :=
  match c with
  | CAssign _ _ => true
  | _ => false
  end.

(** [safe n r]: the run did not fault, and if it returned, the invariant
    holds and the arena has at least [n] records. *)
Definition safe (n : nat) (r : result world) : Prop :=
  match r with
  | Ok w => (∃ al fl, inv w al fl) ∧ n ≤ length (heap (ev w))
  | Fault => False
  | OutOfFuel => True
  end.

(** [h = event.connect(f);] for each pair of a destination and a
    callback, in order. *)
Definition connects (cs : list (option nat * nat)) : list cmd :=
  map (λ c, CConnect c.1 c.2) cs.

(** [behind w rest cm]: the statement [cm] connects a callback, or
    disconnects or destroys a handle that references no record of
    [rest]. *)
Definition behind (w : world) (rest : list nat) (cm : cmd) : Prop :=
  match cm with
  | CConnect _ _ => True
  | CDisconnect s | CDestroy s =>
      ∀ q, mConnection (handle_at s w) = Some q → q ∉ rest
  | _ => False
  end.

(** [stays_behind body w rest]: the callback of each record of [rest]
    leaves alone the records that come later in [rest]. *)
Definition stays_behind (body : nat → list cmd) (w : world)
    (rest : list nat) : Prop :=
  ∀ i p c f, rest !! i = Some p → heap (ev w) !! p = Some c → func c = Some f →
    ∀ cm, cm ∈ body f → behind w (drop (S i) rest) cm.

(** [kept rest w w']: a handle that references a record of [rest] in [w']
    did so in [w]. *)
Definition kept (rest : list nat) (w w' : world) : Prop :=
  ∀ s q, mConnection (handle_at s w') = Some q → q ∈ rest →
    mConnection (handle_at s w) = Some q.

(** [h_s = event.connect(f);] for each pair of a slot and a callback. *)
Definition connects_kept (cs : list (nat * nat)) : list cmd :=
  connects ((λ c, (Some c.1, c.2)) <$> cs).

(** A callback that does not touch the event. *)
Definition passive (f : nat) : list cmd := [].

(** One connection whose handle is kept in slot 0. *)
Definition world_one : world :=
  mkWorld (mkEvent [mkConn None None true 1%Z (Some 7)] (Some 0) None)
          {[0 := mkHEvent (Some 0) true]} [].

(** One connection with two handles, in slots 0 and 1. *)
Definition world_shared : world :=
  mkWorld (mkEvent [mkConn None None true 2%Z (Some 7)] (Some 0) None)
          (<[1 := mkHEvent (Some 0) true]> {[0 := mkHEvent (Some 0) true]}) [].

(** Two connections, the handles kept in slots 0 and 1. *)
Definition world_two : world :=
  mkWorld (mkEvent [mkConn (Some 1) None true 1%Z (Some 10);
                    mkConn None (Some 0) true 1%Z (Some 20)]
                   (Some 1) None)
          (<[1 := mkHEvent (Some 1) true]> {[0 := mkHEvent (Some 0) true]}) [].

(** The callback of the older connection of [world_two] disconnects both
    handles, its own last, and connects a new callback. *)
Definition self_disconnecting (f : nat) : list cmd :=
  match f with
  | 10 => [CDisconnect 1; CDisconnect 0; CConnect None 30]
  | _ => []
  end.

(** A callback (1) that disconnects the handle in slot 1 and connects a
    new callback (3). *)
Definition recycling (f : nat) : list cmd :=
  match f with
  | 1 => [CDisconnect 1; CConnect None 3]
  | _ => []
  end.

(** A script that connects, triggers callbacks that disconnect and
    connect, drops and disconnects handles, and clears the event. *)
Definition mixed_script : list cmd :=
  [CConnect (Some 1) 2; CConnect None 1; CConnect (Some 0) 2; CTrigger;
   CDestroy 0; CDisconnect 1; CConnect (Some 2) 1; CClear; CTrigger].

(** The event after [h = event.connect(7); event.clear();]: the record
    is inactive but still referenced by [h], and stays in the list. *)
Definition world_cleared : world :=
  mkWorld (mkEvent [mkConn None None false 1%Z None] (Some 0) None)
          {[0 := mkHEvent (Some 0) true]} [].

(** The event after [h = event.connect(7); h.disconnect();]: the record
    is in the free list and the handle in slot 0 is empty. *)
Definition world_recycled : world :=
  mkWorld (mkEvent [mkConn None None false 0%Z None] None (Some 0))
          {[0 := HEvent_null]} [].

Definition is_clear (c : cmd) : bool :=
  match c with
  | CClear => true
  | _ => false
  end.

(** [keeps P r]: if the run returned, [P] holds of the state reached. *)
Definition keeps (P : world → Prop) (r : result world) : Prop :=
  match r with
  | Ok w => P w
  | _ => True
  end.

(** [orphan q f w]: the record [q] is active with callback [f], and no
    handle references it. *)
Definition orphan (q : nat) (f : nat) (w : world) : Prop :=
  (∀ s, mConnection (handle_at s w) ≠ Some q)
  ∧ ∃ c, heap (ev w) !! q = Some c ∧ isActive c = true ∧ func c = Some f.

(** [leaked q w]: the count of record [q] exceeds the number of handles
    that reference it. *)
Definition leaked (q : nat) (w : world) : Prop :=
  (Z.of_nat (refs q (handles w)) < links_of q (ev w))%Z.

(** A script that subscribes callback 5 without keeping the handle, and
    then connects, triggers, disconnects and drops other handles. *)
Definition orphan_script : list cmd :=
  [CConnect None 5; CConnect (Some 0) 2; CConnect (Some 1) 1; CTrigger;
   CDisconnect 0; CDestroy 1; CConnect (Some 0) 2; CDisconnect 0].

(** A script that overwrites the handle of a subscription by the handle
    of a new one, and then disconnects, clears, triggers and drops what
    it holds. *)
Definition leak_script : list cmd :=
  [CConnect (Some 0) 1; CConnect (Some 0) 2; CConnect (Some 1) 1; CTrigger;
   CDisconnect 0; CClear; CDestroy 1; CDestroy 0; CTrigger].

(** The event after [event.connect(5);], the handle not kept. *)
Definition world_unheld : world :=
  mkWorld (mkEvent [mkConn None None true 0%Z (Some 5)] (Some 0) None) ∅ [].

(** The event after [h = event.connect(1); h = event.connect(2);]: the
    handle in slot 0 references the second record, and the first record
    keeps the count 1. *)
Definition world_overwritten : world :=
  mkWorld (mkEvent [mkConn (Some 1) None true 1%Z (Some 1);
                    mkConn None (Some 0) true 1%Z (Some 2)]
                   (Some 1) None)
          {[0 := mkHEvent (Some 1) true]} [].

(** A callback (10) that triggers the event it is subscribed to. *)
Definition retriggering (f : nat) : list cmd :=
  match f with
  | 10 => [CTrigger]
  | _ => []
  end.

(** * BsGUITabbedTitleBar.cpp: a client of the event

    The title bar keeps its tabs in two vectors, the tab buttons and the
    drop areas that precede them, and reports what happens to the tabs
    through events.  The widget classes are parameters: a tab button and
    a drop area are values of two given types, and of a tab button only
    [getIndex] is used, the index it was created with.  [Math::Clamp]
    (CmMath.h) is a parameter too.  The layout and the creation and
    destruction of widgets are outside the model; an element access or an
    iterator outside its vector is undefined behaviour and is reported as
    [Fault]. *)

(** Conversions to [INT32] and to [UINT32]. *)
Definition INT32_MAX : Z := (2 ^ 31 - 1)%Z.
Definition to_INT32 (z : Z) : Z :=
  let r := (z mod UINT32_MOD)%Z in
  if decide (r ≤ INT32_MAX)%Z then r else (r - UINT32_MOD)%Z.
Definition to_UINT32 (z : Z) : Z := (z mod UINT32_MOD)%Z.

(** [v[i]], [v.insert(v.begin() + i, x)] and [v.erase(v.begin() + i)]
    for an unsigned [i]. *)
Definition vec_at {A} (i : Z) (v : list A) : result A :=
  match v !! Z.to_nat i with
  | Some x => Ok x
  | None => Fault
  end.
Definition vec_insert {A} (i : Z) (x : A) (v : list A) : result (list A) :=
  if decide (Z.to_nat i ≤ length v)
  then Ok (take (Z.to_nat i) v ++ x :: drop (Z.to_nat i) v)
  else Fault.
Definition vec_erase {A} (i : Z) (v : list A) : result (list A) :=
  if decide (Z.to_nat i < length v)
  then Ok (delete (Z.to_nat i) v)
  else Fault.

(** [(UINT32)v.size()] *)
Definition vec_size {A} (v : list A) : Z := to_UINT32 (Z.of_nat (length v)).

Section TabbedTitleBar.

Context {GUITabButton GUIWindowMover : Type}.
Variable getIndex : GUITabButton → Z.
Variable Clamp : Z → Z → Z → Z.

Record GUITabbedTitleBar : Type := mkBar {
  mTabButtons : list GUITabButton;
  mDragDropElements : list GUIWindowMover;
  mUniqueTabIdx : Z;
  mActiveTabIdx : Z
}.

(** The fields as the constructor leaves them. *)
Definition GUITabbedTitleBar_new : GUITabbedTitleBar := mkBar [] [] 0%Z 0%Z.

Definition set_mActiveTabIdx (v : Z) (b : GUITabbedTitleBar) : GUITabbedTitleBar :=
  mkBar (mTabButtons b) (mDragDropElements b) (mUniqueTabIdx b) v.

(** [GUITabbedTitleBar::insertTab]; [newTabToggle] and
    [newDragDropElement] are the two widgets created for the tab, the
    button with the index [mUniqueTabIdx]. *)
Definition insertTab (idx : Z) (newTabToggle : GUITabButton)
    (newDragDropElement : GUIWindowMover) (b : GUITabbedTitleBar)
    : result GUITabbedTitleBar :=
  let idx := Clamp idx 0%Z (vec_size (mTabButtons b)) in
  tabs ← vec_insert idx newTabToggle (mTabButtons b);
  movers ← vec_insert idx newDragDropElement (mDragDropElements b);
  Ok (mkBar tabs movers (u32_inc (mUniqueTabIdx b)) (mActiveTabIdx b)).

(** [GUITabbedTitleBar::addTab] *)
Definition addTab (newTabToggle : GUITabButton)
    (newDragDropElement : GUIWindowMover) (b : GUITabbedTitleBar)
    : result GUITabbedTitleBar :=
  insertTab (vec_size (mTabButtons b)) newTabToggle newDragDropElement b.

(** [GUITabbedTitleBar::removeTab]: the two elements are read (and
    destroyed), then erased from their vectors. *)
Definition removeTab (idx : Z) (b : GUITabbedTitleBar)
    : result GUITabbedTitleBar :=
  if decide (length (mTabButtons b) = 0) then Ok b
  else
    let idx := Clamp idx 0%Z (u32_dec (vec_size (mTabButtons b))) in
    _ ← vec_at idx (mTabButtons b);
    _ ← vec_at idx (mDragDropElements b);
    tabs ← vec_erase idx (mTabButtons b);
    movers ← vec_erase idx (mDragDropElements b);
    Ok (mkBar tabs movers (mUniqueTabIdx b) (mActiveTabIdx b)).

(** The loop of [GUITabbedTitleBar::uniqueIdxToSeqIdx]; [idx] is a
    [UINT32] and is returned as an [INT32]. *)
Fixpoint uniqueIdxToSeqIdx_loop (uniqueIdx idx : Z) (tabs : list GUITabButton) : Z :=
  match tabs with
  | [] => (-1)%Z
  | tab :: tabs' =>
      if decide (getIndex tab = uniqueIdx) then to_INT32 idx
      else uniqueIdxToSeqIdx_loop uniqueIdx (u32_inc idx) tabs'
  end.

(** [GUITabbedTitleBar::uniqueIdxToSeqIdx] *)
Definition uniqueIdxToSeqIdx (uniqueIdx : Z) (b : GUITabbedTitleBar) : Z :=
  uniqueIdxToSeqIdx_loop uniqueIdx 0%Z (mTabButtons b).

(** [GUITabbedTitleBar::tabClosed]: the new fields, and the argument with
    which [onTabClosed] is triggered, if it is.  The trigger is the last
    statement, so its callbacks find the fields as returned here. *)
Definition tabClosed (onTabClosed : EventInternalData) (b : GUITabbedTitleBar)
    : result (GUITabbedTitleBar * option Z) :=
  let idx := uniqueIdxToSeqIdx (mActiveTabIdx b) b in
  if decide (idx ≠ (-1)%Z) then
    b ← removeTab (to_UINT32 idx) b;
    b ← (if decide (0 < length (mTabButtons b))
         then tab ← vec_at 0%Z (mTabButtons b);
              Ok (set_mActiveTabIdx (getIndex tab) b)
         else Ok b);
    Ok (b, if TEvent_empty onTabClosed then None else Some idx)
  else Ok (b, None).

(** [GUITabbedTitleBar::tabDraggedOff]: the argument with which
    [onTabDraggedOff] is triggered, if it is. *)
Definition tabDraggedOff (tabIdx : Z) (onTabDraggedOff : EventInternalData)
    (b : GUITabbedTitleBar) : option Z :=
  let idx := uniqueIdxToSeqIdx tabIdx b in
  if decide (idx ≠ (-1)%Z)
  then if TEvent_empty onTabDraggedOff then None else Some idx
  else None.

(** [GUITabbedTitleBar::tabDraggedOn]: the argument with which
    [onTabDraggedOn] is triggered, if it is; [idx + 1] is a signed
    addition, whose overflow is undefined behaviour. *)
Definition tabDraggedOn (tabIdx : Z) (onTabDraggedOn : EventInternalData)
    (b : GUITabbedTitleBar) : result (option Z) :=
  let idx := uniqueIdxToSeqIdx tabIdx b in
  if decide (idx ≠ (-1)%Z)
  then if TEvent_empty onTabDraggedOn then Ok None
       else if decide (idx = INT32_MAX) then Fault else Ok (Some (idx + 1)%Z)
  else Ok None.

End TabbedTitleBar.

(** [bar_wf getIndex b]: the two vectors are equally long, the indices
    of the tabs are distinct and below [mUniqueTabIdx], and fewer than
    2^31 indices have been handed out. *)
Definition bar_wf {GUITabButton GUIWindowMover : Type}
    (getIndex : GUITabButton → Z)
    (b : @GUITabbedTitleBar GUITabButton GUIWindowMover) : Prop :=
  length (mDragDropElements b) = length (mTabButtons b)
  ∧ (Z.of_nat (length (mTabButtons b)) ≤ mUniqueTabIdx b)%Z
  ∧ (mUniqueTabIdx b ≤ INT32_MAX)%Z
  ∧ NoDup (getIndex <$> mTabButtons b)
  ∧ ∀ t, t ∈ mTabButtons b → (0 ≤ getIndex t < mUniqueTabIdx b)%Z.

(** [Math::Clamp] as it is assumed to behave. *)
Definition Clamp_ok (Clamp : Z → Z → Z → Z) : Prop :=
  ∀ val minval maxval, (minval ≤ maxval)%Z →
    Clamp val minval maxval = Z.max minval (Z.min val maxval).

(** An instance of the parameters: a tab button is its index, a drop
    area a number. *)
Definition clamp_Z (val minval maxval : Z) : Z := Z.max minval (Z.min val maxval).
Definition bar_abc : @GUITabbedTitleBar Z nat := mkBar [3; 5; 8]%Z [30; 50; 80] 9%Z 5%Z.

(** * BsD3D11InputLayoutManager.cpp: the cache of input layouts

    The manager maps a pair of a vertex declaration id and a vertex
    program id to the input layout created for them, and prunes the
    entries used least recently when the map is full.  The vertex
    elements, the mappings to D3D11 names and formats, the device and the
    two constants of the header are parameters; the constants are taken
    to be non-negative.  A call returns, throws (when the device fails to
    create a layout), or is undefined. *)

Inductive outcome (S A : Type) : Type :=
  | Returns (s : S) (a : A)
  | Throws (s : S)
  | Undefined.
Arguments Returns {S A} s a.
Arguments Throws {S A} s.
Arguments Undefined {S A}.

Definition outcome_bind {S A B} (r : outcome S A) (k : S → A → outcome S B)
    : outcome S B :=
  match r with
  | Returns s a => k s a
  | Throws s => Throws s
  | Undefined => Undefined
  end.

Inductive D3D11_INPUT_CLASSIFICATION : Type :=
  | D3D11_INPUT_PER_VERTEX_DATA
  | D3D11_INPUT_PER_INSTANCE_DATA.

(** [static_cast<WORD>] *)
Definition to_WORD (z : Z) : Z := (z mod 2 ^ 16)%Z.

(** The order of the keys of a [Map<UINT32, VertexDeclarationKey>]. *)
Definition key_le (a b : Z * (Z * Z)) : Prop := (a.1 ≤ b.1)%Z.
Global Instance key_le_dec : RelDecision key_le := λ a b, decide (a.1 ≤ b.1)%Z.

Section InputLayoutManager.

Context {VertexElementSemantic VertexElementType LPCSTR DXGI_FORMAT : Type}.
Context {ID3D11InputLayout HLSLMicroCode : Type}.
Context `{!EqDecision VertexElementSemantic}.

(** A [VertexElement], as what its accessors return. *)
Record VertexElement : Type := mkVertexElement {
  getSemantic : VertexElementSemantic;
  getSemanticIdx : Z;
  getType : VertexElementType;
  getStreamIdx : Z;
  getOffset : Z;
  getInstanceStepRate : Z
}.

Record D3D11_INPUT_ELEMENT_DESC : Type := mkDesc {
  SemanticName : LPCSTR;
  SemanticIndex : Z;
  Format : DXGI_FORMAT;
  InputSlot : Z;
  AlignedByteOffset : Z;
  InputSlotClass : D3D11_INPUT_CLASSIFICATION;
  InstanceDataStepRate : Z
}.

(** [D3D11Mappings::get], for a semantic and for an element type. *)
Variable get_semantic : VertexElementSemantic → LPCSTR.
Variable get_format : VertexElementType → DXGI_FORMAT.

(** [ID3D11Device::CreateInputLayout] followed by the test
    [FAILED(hr) || device.hasError()]: the layout created, or [None] when
    the test holds. *)
Variable CreateInputLayout :
  list D3D11_INPUT_ELEMENT_DESC → HLSLMicroCode → option ID3D11InputLayout.

Variable DECLARATION_BUFFER_SIZE : Z.
Variable NUM_ELEMENTS_TO_PRUNE : Z.

(** [InputLayoutEntry]; the map owns its entries, so an entry stands for
    the pointer to it. *)
Record InputLayoutEntry : Type := mkEntry {
  inputLayout : option ID3D11InputLayout;
  lastUsedIdx : Z
}.

(** The key is the pair of [vertxDeclId] and [vertexProgramId]; with
    [HashFunc] and [EqualFunc] the unordered map is a map on these
    pairs. *)
Record D3D11InputLayoutManager : Type := mkManager {
  mInputLayoutMap : gmap (Z * Z) InputLayoutEntry;
  mLastUsedCounter : Z;
  mWarningShown : bool
}.

(** [D3D11InputLayoutManager()] *)
Definition D3D11InputLayoutManager_new : D3D11InputLayoutManager :=
  mkManager ∅ 0%Z false.

(** [EqualFunc::operator()] *)
Definition EqualFunc (a b : Z * Z) : bool :=
  if negb (bool_decide (a.1 = b.1)) then false
  else if negb (bool_decide (a.2 = b.2)) then false
  else true.

(** The first loop of [addNewInputLayout]: one element per element of
    the buffer declaration, and the largest stream index. *)
Definition buffer_element_desc (e : VertexElement) : D3D11_INPUT_ELEMENT_DESC :=
  mkDesc (get_semantic (getSemantic e)) (getSemanticIdx e)
         (get_format (getType e)) (getStreamIdx e) (to_WORD (getOffset e))
         (if decide (getInstanceStepRate e = 0%Z)
          then D3D11_INPUT_PER_VERTEX_DATA else D3D11_INPUT_PER_INSTANCE_DATA)
         (if decide (getInstanceStepRate e = 0%Z)
          then 0%Z else getInstanceStepRate e).

Definition buffer_loop (bufferElems : list VertexElement)
    : list D3D11_INPUT_ELEMENT_DESC * Z :=
  foldl (λ st e, (st.1 ++ [buffer_element_desc e],
                  Z.max st.2 (to_INT32 (getStreamIdx e))))
        ([], (-1)%Z) bufferElems.

(** The second loop: the elements of the shader declaration that the
    buffer declaration lacks are put in a dummy stream. *)
Definition found_in (bufferElems : list VertexElement) (s : VertexElement) : bool :=
  existsb (λ b, bool_decide (getSemantic s = getSemantic b)
                && bool_decide (getSemanticIdx s = getSemanticIdx b))
          bufferElems.

Definition dummy_element_desc (maxStreamIdx : Z) (s : VertexElement)
    : D3D11_INPUT_ELEMENT_DESC :=
  mkDesc (get_semantic (getSemantic s)) (getSemanticIdx s)
         (get_format (getType s)) (to_UINT32 (maxStreamIdx + 1)) 0%Z
         D3D11_INPUT_PER_VERTEX_DATA 0%Z.

Definition declaration_elements (shaderElems bufferElems : list VertexElement)
    : list D3D11_INPUT_ELEMENT_DESC :=
  let st := buffer_loop bufferElems in
  foldl (λ declElements s,
           if found_in bufferElems s then declElements
           else declElements ++ [dummy_element_desc st.2 s])
        st.1 shaderElems.

(** [D3D11InputLayoutManager::addNewInputLayout]; [&declElements[0]] is
    undefined for an empty vector. *)
Definition addNewInputLayout (shaderElems bufferElems : list VertexElement)
    (pair : Z * Z) (microcode : HLSLMicroCode) (m : D3D11InputLayoutManager)
    : outcome D3D11InputLayoutManager unit :=
  let declElements := declaration_elements shaderElems bufferElems in
  let counter := u32_inc (mLastUsedCounter m) in
  let m := mkManager (mInputLayoutMap m) counter (mWarningShown m) in
  match declElements with
  | [] => Undefined
  | _ =>
      match CreateInputLayout declElements microcode with
      | None => Throws m
      | Some layout =>
          Returns (mkManager (<[pair := mkEntry (Some layout) counter]>
                                (mInputLayoutMap m))
                             counter (mWarningShown m)) tt
      end
  end.

(** [D3D11InputLayoutManager::removeLeastUsed]: the ordered map from
    [lastUsedIdx] to key, its entries in ascending order, and the loop
    that erases them. *)
Definition leastFrequentlyUsedMap (mp : gmap (Z * Z) InputLayoutEntry)
    : gmap Z (Z * Z) :=
  foldl (λ acc kv, <[lastUsedIdx kv.2 := kv.1]> acc) ∅ (map_to_list mp).

Definition ascending (lfu : gmap Z (Z * Z)) : list (Z * (Z * Z)) :=
  merge_sort key_le (map_to_list lfu).

Fixpoint prune_loop (todo : list (Z * (Z * Z))) (elemsRemoved : Z)
    (mp : gmap (Z * Z) InputLayoutEntry)
    : option (gmap (Z * Z) InputLayoutEntry) :=
  match todo with
  | [] => Some mp
  | kv :: todo' =>
      match mp !! kv.2 with
      | None => None
      | Some _ =>
          let mp := delete kv.2 mp in
          let elemsRemoved := u32_inc elemsRemoved in
          if decide (NUM_ELEMENTS_TO_PRUNE ≤ elemsRemoved)%Z then Some mp
          else prune_loop todo' elemsRemoved mp
      end
  end.

Definition removeLeastUsed (m : D3D11InputLayoutManager)
    : outcome D3D11InputLayoutManager unit :=
  match prune_loop (ascending (leastFrequentlyUsedMap (mInputLayoutMap m)))
                   0%Z (mInputLayoutMap m) with
  | Some mp => Returns (mkManager mp (mLastUsedCounter m) true) tt
  | None => Undefined
  end.

(** [D3D11InputLayoutManager::retrieveInputLayout] for the key [pair] of
    the buffer declaration and the program; the result is the layout
    returned, [None] for [nullptr]. *)
Definition retrieveInputLayout (shaderElems bufferElems : list VertexElement)
    (pair : Z * Z) (microcode : HLSLMicroCode) (m : D3D11InputLayoutManager)
    : outcome D3D11InputLayoutManager (option ID3D11InputLayout) :=
  let touch (m : D3D11InputLayoutManager) (e : InputLayoutEntry) :=
    let counter := u32_inc (mLastUsedCounter m) in
    Returns (mkManager (<[pair := mkEntry (inputLayout e) counter]>
                          (mInputLayoutMap m))
                       counter (mWarningShown m))
            (inputLayout e) in
  match mInputLayoutMap m !! pair with
  | Some e => touch m e
  | None =>
      outcome_bind
        (if decide (DECLARATION_BUFFER_SIZE ≤ Z.of_nat (size (mInputLayoutMap m)))%Z
         then removeLeastUsed m else Returns m tt)
        (λ m _,
           outcome_bind (addNewInputLayout shaderElems bufferElems pair microcode m)
             (λ m _,
                match mInputLayoutMap m !! pair with
                | None => Returns m None
                | Some e => touch m e
                end))
  end.

End InputLayoutManager.

(** [cache_wf m]: no two entries were used last at the same time, the
    times are not after [mLastUsedCounter], and every entry holds a
    layout. *)
Definition cache_wf {ID3D11InputLayout : Type}
    (m : @D3D11InputLayoutManager ID3D11InputLayout) : Prop :=
  (∀ k1 k2 e1 e2, mInputLayoutMap m !! k1 = Some e1 →
     mInputLayoutMap m !! k2 = Some e2 →
     lastUsedIdx e1 = lastUsedIdx e2 → k1 = k2)
  ∧ (∀ k e, mInputLayoutMap m !! k = Some e →
       (0 ≤ lastUsedIdx e ≤ mLastUsedCounter m)%Z ∧ is_Some (inputLayout e))
  ∧ (0 ≤ mLastUsedCounter m)%Z.

(** An entry of the cache as an entry of the map ordered by time. *)
Definition by_age {ID3D11InputLayout : Type}
    (kv : (Z * Z) * @InputLayoutEntry ID3D11InputLayout) : Z * (Z * Z) :=
  (lastUsedIdx kv.2, kv.1).

(** The keys erased from a map. *)
Definition erase_all {A} (ks : list (Z * Z)) (mp : gmap (Z * Z) A)
    : gmap (Z * Z) A :=
  foldr delete mp ks.

(** An instance of the parameters: semantics, element types, names,
    formats and layouts are numbers, the mappings are the identity, and
    the device creates the layout numbered by the length of the
    declaration, or fails. *)
Definition device_ok (declElements : list (@D3D11_INPUT_ELEMENT_DESC nat nat))
    (microcode : unit) : option nat :=
  Some (length declElements).
Definition device_failing (declElements : list (@D3D11_INPUT_ELEMENT_DESC nat nat))
    (microcode : unit) : option nat :=
  None.

(** Two cached layouts, used last at times 4 and 7. *)
Definition cache_two : @D3D11InputLayoutManager nat :=
  mkManager (<[(1, 1)%Z := mkEntry (Some 10) 4%Z]>
               (<[(2, 1)%Z := mkEntry (Some 20) 7%Z]> ∅))
            7%Z false.

(** The same two layouts when the counter has reached 2^32 - 1. *)
Definition cache_at_wrap : @D3D11InputLayoutManager nat :=
  mkManager (mInputLayoutMap cache_two) (UINT32_MOD - 1)%Z false.

(** A buffer declaration with a position, and a shader declaration that
    also wants a normal. *)
Definition buffer_elems : list (@VertexElement nat nat) :=
  [mkVertexElement 0 0%Z 3 0%Z 0%Z 0%Z].
Definition shader_elems : list (@VertexElement nat nat) :=
  [mkVertexElement 0 0%Z 3 0%Z 0%Z 0%Z; mkVertexElement 1 0%Z 3 0%Z 12%Z 0%Z].

(** * Proofs *)

(** ** The result monad *)

Lemma bind_Ok_l {A B} (a : A) (f : A → result B) : Ok a ≫= f = f a.
Proof. done. Qed.

Lemma deref_Ok p d c : heap d !! p = Some c → deref p d = Ok c.
Proof. unfold deref. by intros ->. Qed.

Lemma store_Ok p f d c :
  heap d !! p = Some c → store p f d = Ok (set_heap (<[p := f c]> (heap d)) d).
Proof. unfold store. by intros ->. Qed.

Lemma lookup_insert_heap (h : list ConnectionData) p q c c0 :
  h !! p = Some c0 →
  <[p := c]> h !! q = if decide (p = q) then Some c else h !! q.
Proof.
  intros Hp. case_decide as E.
  - subst. apply list_lookup_insert_eq. by eapply lookup_lt_Some.
  - by apply list_lookup_insert_ne.
Qed.

(** Reading back the record that was just written. *)
Ltac lookup_same :=
  simpl; erewrite lookup_insert_heap by done; by rewrite decide_True.

(** ** List segments *)

Lemma last_or_app prv l1 l2 : last_or prv (l1 ++ l2) = last_or (last_or prv l1) l2.
Proof. revert prv. induction l1; simpl; auto. Qed.

Lemma last_or_snoc prv l q : last_or prv (l ++ [q]) = Some q.
Proof. by rewrite last_or_app. Qed.

Lemma last_or_None_inv l : last_or None l = None → l = [].
Proof.
  destruct l as [|p l] using rev_ind; [done|].
  by rewrite last_or_snoc.
Qed.

Lemma last_or_Some_inv l q : last_or None l = Some q → ∃ l', l = l' ++ [q].
Proof.
  destruct l as [|p l _] using rev_ind; [done|].
  rewrite last_or_snoc. intros [= ->]. eauto.
Qed.

Lemma hd_or_None l : hd_or None l = head l.
Proof. by destruct l. Qed.

Lemma hd_or_app nxt l1 l2 : hd_or nxt (l1 ++ l2) = hd_or (hd_or nxt l2) l1.
Proof. by destruct l1. Qed.

Lemma dlseg_ext h h' prv l nxt :
  (∀ p c, p ∈ l → h !! p = Some c →
     ∃ c', h' !! p = Some c' ∧ prev c' = prev c ∧ next c' = next c) →
  dlseg h prv l nxt → dlseg h' prv l nxt.
Proof.
  revert prv. induction l as [|p l IH]; intros prv Hext; simpl; [done|].
  intros [(c & Hc & Hp & Hn) Hl]. split.
  - destruct (Hext p c) as (c' & ? & ? & ?); [left | done |].
    exists c'. split_and!; congruence.
  - apply IH; [|done]. intros q cq Hq. apply Hext. by right.
Qed.

Lemma dlseg_app h prv l1 l2 nxt :
  dlseg h prv (l1 ++ l2) nxt
  ↔ dlseg h prv l1 (hd_or nxt l2) ∧ dlseg h (last_or prv l1) l2 nxt.
Proof.
  revert prv. induction l1 as [|p l1 IH]; intros prv; simpl.
  - tauto.
  - rewrite IH, hd_or_app. tauto.
Qed.

Lemma dlseg_lookup h prv l nxt p :
  dlseg h prv l nxt → p ∈ l → is_Some (h !! p).
Proof.
  revert prv. induction l as [|q l IH]; intros prv; simpl.
  - by intros _ ?%elem_of_nil.
  - intros [(c & Hc & _) Hl] [->|Hin]%elem_of_cons; eauto.
Qed.

Lemma sll_ext h h' l :
  (∀ p c, p ∈ l → h !! p = Some c → ∃ c', h' !! p = Some c' ∧ next c' = next c) →
  sll h l → sll h' l.
Proof.
  induction l as [|p l IH]; intros Hext; simpl; [done|].
  intros [(c & Hc & Hn) Hl]. split.
  - destruct (Hext p c) as (c' & ? & ?); [left | done |].
    exists c'. split; congruence.
  - apply IH; [|done]. intros q cq Hq. apply Hext. by right.
Qed.

Lemma sll_lookup h l p : sll h l → p ∈ l → is_Some (h !! p).
Proof.
  induction l as [|q l IH]; simpl.
  - by intros _ ?%elem_of_nil.
  - intros [(c & Hc & _) Hl] [->|Hin]%elem_of_cons; eauto.
Qed.

(** Redirecting the [next] of the last record of a segment. *)
Lemma dlseg_set_next_last h prv l q cq nxt n :
  NoDup (l ++ [q]) → h !! q = Some cq →
  dlseg h prv (l ++ [q]) nxt →
  dlseg (<[q := set_next n cq]> h) prv (l ++ [q]) n.
Proof.
  intros Hnd Hq. rewrite !dlseg_app. simpl. intros [Hl [(c & Hc & Hp & Hn) _]].
  apply NoDup_app in Hnd as (_ & Hnin & _).
  split.
  - eapply dlseg_ext; [|done]. intros p cp Hin Hcp.
    exists cp. split; [|done].
    erewrite lookup_insert_heap by done. case_decide; [|done].
    subst. exfalso. eapply Hnin; [done|]. by left.
  - split; [|done]. exists (set_next n cq). simplify_eq.
    erewrite lookup_insert_heap by done. by rewrite decide_True.
Qed.

(** Redirecting the [prev] of the first record of a segment. *)
Lemma dlseg_set_prev_head h prv l q cq nxt v :
  NoDup (q :: l) → h !! q = Some cq →
  dlseg h prv (q :: l) nxt →
  dlseg (<[q := set_prev v cq]> h) v (q :: l) nxt.
Proof.
  intros Hnd Hq. simpl. intros [(c & Hc & Hp & Hn) Hl].
  apply NoDup_cons in Hnd as [Hnin _]. simplify_eq.
  split.
  - exists (set_prev v cq). erewrite lookup_insert_heap by done.
    by rewrite decide_True.
  - eapply dlseg_ext; [|done]. intros p cp Hin Hcp.
    exists cp. split; [|done].
    erewrite lookup_insert_heap by done. case_decide; [|done]. by subst.
Qed.

(** ** Records that keep their data *)

Lemma data_eq_refl c : data_eq c c.
Proof. done. Qed.

Lemma data_eq_trans c1 c2 c3 : data_eq c1 c2 → data_eq c2 c3 → data_eq c1 c3.
Proof. unfold data_eq. intros (?&?&?) (?&?&?). split_and!; congruence. Qed.

Lemma same_data_refl h : same_data h h.
Proof. split; [done|]. intros q c ?. exists c. split; [done|apply data_eq_refl]. Qed.

Lemma same_data_trans h1 h2 h3 :
  same_data h1 h2 → same_data h2 h3 → same_data h1 h3.
Proof.
  intros [L1 H1] [L2 H2]. split; [congruence|].
  intros q c Hq. destruct (H1 q c Hq) as (c2 & Hq2 & E2).
  destruct (H2 q c2 Hq2) as (c3 & Hq3 & E3).
  exists c3. split; [done|]. by eapply data_eq_trans.
Qed.

Lemma same_data_insert h q cq c' :
  h !! q = Some cq → data_eq cq c' → same_data h (<[q := c']> h).
Proof.
  intros Hq E. split; [by rewrite length_insert|].
  intros x cx Hx. erewrite lookup_insert_heap by done.
  case_decide; simplify_eq; eauto using data_eq_refl.
Qed.

Lemma same_data_lookup h h' q c' :
  same_data h h' → h' !! q = Some c' → ∃ c, h !! q = Some c ∧ data_eq c c'.
Proof.
  intros [L H] Hq.
  destruct (h !! q) as [c|] eqn:E.
  - destruct (H q c E) as (c2 & ? & ?). simplify_eq. eauto.
  - apply lookup_ge_None in E. apply lookup_lt_Some in Hq. lia.
Qed.

(** ** EventInternalData::free *)

Lemma shape_NoDup d al fl : shape d al fl → NoDup (al ++ fl).
Proof. intros [_ _ _ _ ->]. apply NoDup_seq. Qed.

Lemma shape_elem_of d al fl p :
  shape d al fl → p ∈ al ++ fl ↔ p < length (heap d).
Proof. intros [_ _ _ _ ->]. rewrite elem_of_seq. lia. Qed.

Lemma free_spec d l1 p l2 fl c :
  shape d (l1 ++ p :: l2) fl →
  heap d !! p = Some c → free_record c →
  ∃ d', free p d = Ok d' ∧ shape d' (l1 ++ l2) (p :: fl)
        ∧ same_data (heap d) (heap d').
Proof.
  intros Hs Hc (Hact & Hlinks & Hfunc).
  pose proof (shape_NoDup _ _ _ Hs) as Hnd.
  destruct Hs as [HmC HmF Hal Hfl Hperm]. destruct d as [h mC mF]. simpl in *.
  apply dlseg_app in Hal as [Hl1 [(c' & Hc' & Hprev & Hnext) Hl2]].
  assert (c' = c) as -> by congruence. clear Hc'.
  assert (Hp1 : p ∉ l1).
  { apply NoDup_app in Hnd as [Hnd _]. apply NoDup_app in Hnd as (_ & Hd & _).
    intros ?. eapply Hd; [done|]. by left. }
  assert (Hp2 : p ∉ l2).
  { apply NoDup_app in Hnd as [Hnd _]. apply NoDup_app in Hnd as (_ & _ & Hd).
    by apply NoDup_cons in Hd as [? _]. }
  assert (Hpf : p ∉ fl).
  { apply NoDup_app in Hnd as (_ & Hd & _). apply Hd. set_solver. }
  assert (H12 : ∀ x, x ∈ l1 → x ∉ l2).
  { apply NoDup_app in Hnd as [Hnd _]. apply NoDup_app in Hnd as (_ & Hd & _).
    intros x Hx Hx2. eapply Hd; [done|]. by right. }
  assert (H1f : ∀ x, x ∈ l1 → x ∉ fl).
  { apply NoDup_app in Hnd as (_ & Hd & _). intros x Hx. apply Hd. set_solver. }
  assert (H2f : ∀ x, x ∈ l2 → x ∉ fl).
  { apply NoDup_app in Hnd as (_ & Hd & _). intros x Hx. apply Hd. set_solver. }
  assert (Hnd1 : NoDup l1).
  { apply NoDup_app in Hnd as [Hnd _]. by apply NoDup_app in Hnd as (? & _ & _). }
  assert (Hnd2 : NoDup l2).
  { apply NoDup_app in Hnd as [Hnd _]. apply NoDup_app in Hnd as (_ & _ & Hd).
    by apply NoDup_cons in Hd as [_ ?]. }
  unfold free. rewrite (deref_Ok _ _ c) by done. simpl.
  (* conn->prev->next = conn->next, or mConnections = conn->next *)
  assert (∃ h1 mC1,
    match prev c with
    | Some q => store q (set_next (next c)) (mkEvent h mC mF)
    | None => Ok (set_mConnections (next c) (mkEvent h mC mF))
    end = Ok (mkEvent h1 mC1 mF)
    ∧ mC1 = head (l1 ++ l2)
    ∧ dlseg h1 None l1 (hd_or None l2)
    ∧ (∀ x, x ∉ l1 → h1 !! x = h !! x)
    ∧ same_data h h1) as (h1 & mC1 & -> & HmC1 & Hl1' & Hfr1 & Hsd1).
  { destruct (prev c) as [q|] eqn:Eq.
    - symmetry in Hprev. apply last_or_Some_inv in Hprev as [l1' ->].
      destruct (dlseg_lookup _ _ _ _ q Hl1) as [cq Hq]; [set_solver|].
      erewrite store_Ok by done. eexists _, _. split; [done|]. simpl.
      split_and!.
      + by destruct l1'.
      + rewrite Hnext. by eapply dlseg_set_next_last.
      + intros x Hx. erewrite lookup_insert_heap by done.
        case_decide; [|done]. subst. set_solver.
      + by eapply same_data_insert.
    - symmetry in Hprev. apply last_or_None_inv in Hprev as ->.
      eexists _, _. split; [done|]. simpl. split_and!; try done.
      apply same_data_refl. }
  simpl. rewrite (deref_Ok _ _ c) by (simpl; by rewrite Hfr1). simpl.
  (* conn->next->prev = conn->prev *)
  assert (∃ h2,
    match next c with
    | Some n => store n (set_prev (prev c)) (mkEvent h1 mC1 mF)
    | None => Ok (mkEvent h1 mC1 mF)
    end = Ok (mkEvent h2 mC1 mF)
    ∧ dlseg h2 (last_or None l1) l2 None
    ∧ (∀ x, x ∉ l2 → h2 !! x = h1 !! x)
    ∧ same_data h1 h2) as (h2 & -> & Hl2' & Hfr2 & Hsd2).
  { destruct (next c) as [n|] eqn:En.
    - destruct l2 as [|n' l2]; [done|]. injection Hnext as <-.
      destruct Hl2 as [(cn & Hn & Hpn & Hnn) Hl2].
      assert (h1 !! n = Some cn) as Hn1.
      { rewrite Hfr1; [done|]. intros ?. eapply H12; [done|]. by left. }
      erewrite store_Ok by done. eexists. split; [done|].
      split; [|split].
      + rewrite Hprev.
        eapply (dlseg_set_prev_head _ (Some p)); [done|exact Hn1|]. cbn [heap].
        eapply (dlseg_ext h); [|split; [eauto|done]].
        intros x cx Hx Hcx. exists cx. split; [|done].
        rewrite Hfr1; [done|]. intros ?. by eapply H12.
      + intros x Hx. erewrite lookup_insert_heap by done.
        case_decide; [|done]. subst. set_solver.
      + by eapply same_data_insert.
    - destruct l2 as [|n' l2]; [|done].
      eexists. split; [done|]. split_and!; try done. apply same_data_refl. }
  simpl.
  assert (Hp : h2 !! p = Some c) by (by rewrite Hfr2, Hfr1).
  erewrite store_Ok by done. simpl.
  erewrite store_Ok by lookup_same.
  simpl. rewrite list_insert_insert_eq.
  set (c3 := set_next None (set_prev None c)).
  (* the records of the connection list after unlinking *)
  assert (Hal' : dlseg h2 None (l1 ++ l2) None).
  { apply dlseg_app. split; [|done].
    eapply dlseg_ext; [|done]. intros x cx Hx Hcx. exists cx. split; [|done].
    rewrite Hfr2; [done|]. by apply H12. }
  assert (Hfl2 : sll h2 fl).
  { eapply sll_ext; [|done]. intros x cx Hx Hcx. exists cx. split; [|done].
    rewrite Hfr2, Hfr1; [done|..]; intros ?; [eapply H1f|eapply H2f]; done. }
  assert (Hsd : same_data h h2) by (by eapply same_data_trans).
  assert (Hpal : p ∉ l1 ++ l2) by (rewrite elem_of_app; tauto).
  (* pushing the record on the free list *)
  unfold set_heap; simpl.
  assert (∃ h4,
    match mF with
    | Some f =>
        store p (set_next (Some f)) (mkEvent (<[p := c3]> h2) mC1 mF)
        ≫= λ d, store f (set_prev (Some p)) d
    | None => Ok (mkEvent (<[p := c3]> h2) mC1 mF)
    end = Ok (mkEvent h4 mC1 mF)
    ∧ (∃ c4, h4 !! p = Some c4 ∧ next c4 = head fl ∧ data_eq c c4)
    ∧ (∀ x, x ∉ fl → x ≠ p → h4 !! x = h2 !! x)
    ∧ (∀ x cx, x ∈ fl → h2 !! x = Some cx →
         ∃ cx', h4 !! x = Some cx' ∧ next cx' = next cx ∧ data_eq cx cx')
    ∧ length h4 = length h2) as (h4 & -> & (c4 & Hc4 & Hn4 & Hd4) & Hfr4 & Hfl4 & Hlen4).
  { destruct mF as [f|] eqn:EF.
    - destruct fl as [|f' fl']; simplify_eq/=.
      destruct Hfl2 as [(cf & Hf & Hnf) Hfl2].
      assert (f' ≠ p) as Hfp by (intros ->; apply Hpf; left).
      erewrite store_Ok by lookup_same.
      simpl. rewrite list_insert_insert_eq.
      erewrite store_Ok by (simpl; erewrite lookup_insert_heap by done; by rewrite decide_False).
      simpl. eexists. split; [done|]. split_and!.
      + eexists. split.
        { rewrite list_lookup_insert_ne by done.
          erewrite lookup_insert_heap by done. by rewrite decide_True. }
        done.
      + intros x Hx Hxp. rewrite !list_lookup_insert_ne; [done|done|].
        intros ->. apply Hx. left.
      + intros x cx Hx Hcx. destruct (decide (x = f')) as [->|Hne].
        * simplify_eq. eexists. split.
          { apply list_lookup_insert_eq. rewrite length_insert.
            by eapply lookup_lt_Some. }
          done.
        * exists cx. rewrite !list_lookup_insert_ne; [done|by intros ->|done].
      + by rewrite !length_insert.
    - destruct fl as [|f' fl']; simplify_eq/=.
      eexists. split; [done|]. split_and!.
      + eexists. split.
        { lookup_same. }
        done.
      + intros x _ Hxp. by rewrite list_lookup_insert_ne.
      + by intros x cx ?%elem_of_nil.
      + by rewrite length_insert. }
  simpl. unfold destroy. rewrite (deref_Ok _ _ c4) by done. simpl.
  destruct Hd4 as (Ha4 & Hk4 & Hf4).
  rewrite Hk4, Ha4, Hlinks, Hact. simpl.
  erewrite store_Ok by done. simpl.
  eexists. split; [done|]. simpl. split.
  - split; simpl.
    + done.
    + done.
    + eapply dlseg_ext; [|exact Hal']. intros x cx Hx Hcx. exists cx.
      split; [|done]. rewrite list_lookup_insert_ne by set_solver.
      rewrite Hfr4; [done| |set_solver].
      apply elem_of_app in Hx as [?|?]; [by apply H1f|by apply H2f].
    + split.
      * eexists. split.
        { lookup_same. }
        done.
      * eapply sll_ext; [|exact Hfl2]. intros x cx Hx Hcx.
        destruct (Hfl4 x cx Hx Hcx) as (cx' & ? & ? & _).
        exists cx'. split; [|done]. rewrite list_lookup_insert_ne; [done|set_solver].
    + rewrite length_insert, Hlen4. destruct Hsd as [-> _].
      rewrite <- Hperm. rewrite <- !(assoc_L (++)). f_equiv. simpl.
      by rewrite Permutation_middle.
  - split; [rewrite length_insert, Hlen4; by destruct Hsd|].
    intros x cx Hx.
    destruct (proj2 Hsd x cx Hx) as (cx2 & Hx2 & E2).
    destruct (decide (x = p)) as [->|Hxp].
    + simplify_eq. eexists. split.
      { lookup_same. }
      split_and!; simpl; congruence.
    + rewrite list_lookup_insert_ne by done.
      destruct (decide (x ∈ fl)) as [Hxf|Hxf].
      * destruct (Hfl4 x cx2 Hxf Hx2) as (cx' & ? & ? & ?).
        exists cx'. split; [done|]. by eapply data_eq_trans.
      * rewrite Hfr4 by done. eauto.
Qed.

(** ** Arithmetic of [UINT32] *)

Lemma u32_dec_range z : (0 ≤ u32_dec z < UINT32_MOD)%Z.
Proof. unfold u32_dec, UINT32_MOD. apply Z.mod_pos_bound. lia. Qed.

Lemma u32_inc_range z : (0 ≤ u32_inc z < UINT32_MOD)%Z.
Proof. unfold u32_inc, UINT32_MOD. apply Z.mod_pos_bound. lia. Qed.

Lemma u32_dec_pos z : (1 ≤ z < UINT32_MOD)%Z → u32_dec z = (z - 1)%Z.
Proof. unfold u32_dec, UINT32_MOD. intros. apply Z.mod_small. lia. Qed.

Lemma u32_dec_zero z : (0 ≤ z < UINT32_MOD)%Z → u32_dec z = 0%Z ↔ z = 1%Z.
Proof.
  unfold UINT32_MOD. intros Hz. destruct (decide (z = 0%Z)) as [->|Hnz].
  - by vm_compute.
  - rewrite u32_dec_pos by (unfold UINT32_MOD; lia). lia.
Qed.

Lemma u32_inc_small z : (0 ≤ z < UINT32_MOD - 1)%Z → u32_inc z = (z + 1)%Z.
Proof. unfold u32_inc, UINT32_MOD. intros. apply Z.mod_small. lia. Qed.

(** ** Stores that keep the links *)

Lemma shape_store d al fl p c c' :
  shape d al fl → heap d !! p = Some c →
  prev c' = prev c → next c' = next c →
  shape (set_heap (<[p := c']> (heap d)) d) al fl.
Proof.
  intros [HmC HmF Hal Hfl Hperm] Hp Hprev Hnext. split; simpl; try done.
  - eapply dlseg_ext; [|done]. intros q cq _ Hq.
    erewrite lookup_insert_heap by done. case_decide; simplify_eq; eauto.
  - eapply sll_ext; [|done]. intros q cq _ Hq.
    erewrite lookup_insert_heap by done. case_decide; simplify_eq; eauto.
  - by rewrite length_insert.
Qed.

Lemma data_upd_insert h p c g :
  h !! p = Some c → data_upd p g h (<[p := g c]> h).
Proof.
  intros Hp. split; [by rewrite length_insert|].
  intros q cq Hq. erewrite lookup_insert_heap by done.
  destruct (decide (p = q)) as [->|]; simplify_eq.
  - rewrite decide_True by done. eauto using data_eq_refl.
  - rewrite decide_False by done. eauto using data_eq_refl.
Qed.

Lemma data_upd_same h1 h2 h3 p g :
  data_upd p g h1 h2 → same_data h2 h3 → data_upd p g h1 h3.
Proof.
  intros [L1 H1] [L2 H2]. split; [congruence|].
  intros q c Hq. destruct (H1 q c Hq) as (c2 & Hq2 & E2).
  destruct (H2 q c2 Hq2) as (c3 & Hq3 & E3).
  exists c3. split; [done|]. by eapply data_eq_trans.
Qed.

Lemma data_upd_lookup_ne h h' p g q c' :
  data_upd p g h h' → q ≠ p → h' !! q = Some c' →
  ∃ c, h !! q = Some c ∧ data_eq c c'.
Proof.
  intros [L H] Hne Hq.
  destruct (h !! q) as [c|] eqn:E.
  - destruct (H q c E) as (c2 & ? & HE). rewrite decide_False in HE by done.
    simplify_eq. eauto.
  - apply lookup_ge_None in E. apply lookup_lt_Some in Hq. lia.
Qed.

Lemma data_upd_lookup_eq h h' p g c' :
  data_upd p g h h' → h' !! p = Some c' →
  ∃ c, h !! p = Some c ∧ data_eq (g c) c'.
Proof.
  intros [L H] Hq.
  destruct (h !! p) as [c|] eqn:E.
  - destruct (H p c E) as (c2 & ? & HE). rewrite decide_True in HE by done.
    simplify_eq. eauto.
  - apply lookup_ge_None in E. apply lookup_lt_Some in Hq. lia.
Qed.

Lemma live_record_data c c' : data_eq c c' → live_record c → live_record c'.
Proof. intros (Ha & Hl & Hf). unfold live_record. by rewrite Ha, Hl, Hf. Qed.

Lemma free_record_data c c' : data_eq c c' → free_record c → free_record c'.
Proof. intros (Ha & Hl & Hf). unfold free_record. by rewrite Ha, Hl, Hf. Qed.

Lemma elem_of_middle_inv (l1 l2 : list nat) p q :
  q ∈ l1 ++ p :: l2 → q ≠ p → q ∈ l1 ++ l2.
Proof. rewrite !elem_of_app, elem_of_cons. tauto. Qed.

Lemma elem_of_middle_drop (l1 l2 : list nat) p q :
  q ∈ l1 ++ l2 → q ∈ l1 ++ p :: l2.
Proof. rewrite !elem_of_app, elem_of_cons. tauto. Qed.

Lemma shape_middle_fresh d l1 p l2 fl :
  shape d (l1 ++ p :: l2) fl → (p ∉ l1 ++ l2) ∧ (p ∉ fl).
Proof.
  intros Hnd%shape_NoDup. apply NoDup_app in Hnd as (Hnd & Hd & _).
  apply NoDup_app in Hnd as (_ & Hd1 & Hnd). apply NoDup_cons in Hnd as [Hd2 _].
  split.
  - rewrite elem_of_app. intros [?|?]; [|done]. eapply Hd1; [done|left].
  - apply Hd. rewrite elem_of_app, elem_of_cons. auto.
Qed.

Lemma repr_lookup d al fl p :
  repr d al fl → p ∈ al ++ fl → is_Some (heap d !! p).
Proof.
  intros [Hs _ _] Hin. apply lookup_lt_is_Some. by eapply shape_elem_of.
Qed.

(** ** EventInternalData::disconnect *)

Lemma disconnect_spec d l1 p l2 fl c :
  repr d (l1 ++ p :: l2) fl → heap d !! p = Some c →
  ∃ d', disconnect p d = Ok d'
    ∧ data_upd p (λ c, dec_links (deactivate c)) (heap d) (heap d')
    ∧ if decide (handleLinks c = 1%Z)
      then repr d' (l1 ++ l2) (p :: fl)
      else repr d' (l1 ++ p :: l2) fl.
Proof.
  intros [Hs Hlive Hdead] Hp.
  destruct (shape_middle_fresh _ _ _ _ _ Hs) as [Hp12 Hpf].
  assert (Hpal : p ∈ l1 ++ p :: l2) by (rewrite elem_of_app, elem_of_cons; auto).
  destruct (Hlive p c Hpal Hp) as [Hrange _].
  unfold disconnect. erewrite store_Ok by done. simpl.
  erewrite store_Ok by lookup_same.
  simpl. rewrite list_insert_insert_eq.
  set (c2 := dec_links (deactivate c)).
  set (d2 := set_heap _ _).
  assert (Hp2 : heap d2 !! p = Some c2).
  { lookup_same. }
  assert (Hs2 : shape d2 (l1 ++ p :: l2) fl).
  { unfold d2. unfold set_heap at 1. simpl.
    change (mkEvent ?h (mConnections d) (mFreeConnections d)) with (set_heap h d).
    by eapply shape_store. }
  assert (Hu2 : data_upd p (λ c, dec_links (deactivate c)) (heap d) (heap d2)).
  { simpl. by apply (data_upd_insert _ _ _ (λ c, dec_links (deactivate c))). }
  rewrite (deref_Ok _ _ c2) by done. simpl.
  pose proof (u32_dec_zero _ Hrange) as Hz.
  case_bool_decide as Hl0; case_decide as Hl1; try (exfalso; tauto).
  - destruct (free_spec d2 l1 p l2 fl c2) as (d' & Hfree & Hs' & Hsd); [done..|].
    exists d'. split; [done|]. split; [by eapply data_upd_same|].
    split; [done|..].
    + intros q cq' Hq Hcq'.
      destruct (same_data_lookup _ _ _ _ Hsd Hcq') as (cq2 & Hcq2 & E2).
      eapply live_record_data; [done|].
      assert (q ≠ p) by (by intros ->).
      destruct (data_upd_lookup_ne _ _ _ _ _ _ Hu2 H Hcq2) as (cq & Hcq & E).
      eapply live_record_data; [done|].
      eapply Hlive; [|done]. by apply elem_of_middle_drop.
    + intros q cq' Hq Hcq'.
      destruct (same_data_lookup _ _ _ _ Hsd Hcq') as (cq2 & Hcq2 & E2).
      eapply free_record_data; [done|].
      apply elem_of_cons in Hq as [->|Hq].
      * by simplify_eq.
      * assert (q ≠ p) by (by intros ->).
        destruct (data_upd_lookup_ne _ _ _ _ _ _ Hu2 H Hcq2) as (cq & Hcq & E).
        eapply free_record_data; [done|]. by eapply Hdead.
  - exists d2. split; [done|]. split; [done|].
    split; [done|..].
    + intros q cq' Hq Hcq'. destruct (decide (q = p)) as [->|Hne].
      * simplify_eq. split; [apply u32_dec_range|done].
      * destruct (data_upd_lookup_ne _ _ _ _ _ _ Hu2 Hne Hcq') as (cq & Hcq & E).
        eapply live_record_data; [done|]. by eapply Hlive.
    + intros q cq' Hq Hcq'.
      assert (q ≠ p) by (by intros ->).
      destruct (data_upd_lookup_ne _ _ _ _ _ _ Hu2 H Hcq') as (cq & Hcq & E).
      eapply free_record_data; [done|]. by eapply Hdead.
Qed.

(** ** EventInternalData::freeHandle *)

Lemma freeHandle_spec d l1 p l2 fl c :
  repr d (l1 ++ p :: l2) fl → heap d !! p = Some c →
  ∃ d', freeHandle p d = Ok d'
    ∧ data_upd p dec_links (heap d) (heap d')
    ∧ if decide (handleLinks c = 1%Z ∧ isActive c = false)
      then repr d' (l1 ++ l2) (p :: fl)
      else repr d' (l1 ++ p :: l2) fl.
Proof.
  intros [Hs Hlive Hdead] Hp.
  destruct (shape_middle_fresh _ _ _ _ _ Hs) as [Hp12 Hpf].
  assert (Hpal : p ∈ l1 ++ p :: l2) by (rewrite elem_of_app, elem_of_cons; auto).
  destruct (Hlive p c Hpal Hp) as [Hrange Hinact].
  unfold freeHandle. erewrite store_Ok by done. simpl.
  set (c2 := dec_links c).
  set (d2 := set_heap _ _).
  assert (Hp2 : heap d2 !! p = Some c2).
  { lookup_same. }
  assert (Hs2 : shape d2 (l1 ++ p :: l2) fl) by (by eapply shape_store).
  assert (Hu2 : data_upd p dec_links (heap d) (heap d2)).
  { simpl. by apply data_upd_insert. }
  rewrite (deref_Ok _ _ c2) by done. simpl.
  pose proof (u32_dec_zero _ Hrange) as Hz.
  destruct (isActive c) eqn:Hact; simpl.
  - rewrite andb_false_r.
    exists d2. split; [done|]. split; [done|].
    rewrite decide_False by (intros [_ ?]; done).
    split; [done|..].
    + intros q cq' Hq Hcq'. destruct (decide (q = p)) as [->|Hne].
      * simplify_eq. split; [apply u32_dec_range|]. simpl. congruence.
      * destruct (data_upd_lookup_ne _ _ _ _ _ _ Hu2 Hne Hcq') as (cq & Hcq & E).
        eapply live_record_data; [done|]. by eapply Hlive.
    + intros q cq' Hq Hcq'.
      assert (q ≠ p) by (by intros ->).
      destruct (data_upd_lookup_ne _ _ _ _ _ _ Hu2 H Hcq') as (cq & Hcq & E).
      eapply free_record_data; [done|]. by eapply Hdead.
  - rewrite andb_true_r. destruct (Hinact eq_refl) as [Hfn Hnz].
    case_bool_decide as Hl0; case_decide as Hl1; try (exfalso; tauto).
    + destruct (free_spec d2 l1 p l2 fl c2) as (d' & Hfree & Hs' & Hsd);
        [done|done|by split_and!|].
      exists d'. split; [done|]. split; [by eapply data_upd_same|].
      split; [done|..].
      * intros q cq' Hq Hcq'.
        destruct (same_data_lookup _ _ _ _ Hsd Hcq') as (cq2 & Hcq2 & E2).
        eapply live_record_data; [done|].
        assert (q ≠ p) by (by intros ->).
        destruct (data_upd_lookup_ne _ _ _ _ _ _ Hu2 H Hcq2) as (cq & Hcq & E).
        eapply live_record_data; [done|].
        eapply Hlive; [|done]. by apply elem_of_middle_drop.
      * intros q cq' Hq Hcq'.
        destruct (same_data_lookup _ _ _ _ Hsd Hcq') as (cq2 & Hcq2 & E2).
        eapply free_record_data; [done|].
        apply elem_of_cons in Hq as [->|Hq].
        -- simplify_eq. by split_and!.
        -- assert (q ≠ p) by (by intros ->).
           destruct (data_upd_lookup_ne _ _ _ _ _ _ Hu2 H Hcq2) as (cq & Hcq & E).
           eapply free_record_data; [done|]. by eapply Hdead.
    + exists d2. split; [done|]. split; [done|].
      split; [done|..].
      * intros q cq' Hq Hcq'. destruct (decide (q = p)) as [->|Hne].
        -- simplify_eq. split; [apply u32_dec_range|]. simpl. intros _.
           split; [done|]. tauto.
        -- destruct (data_upd_lookup_ne _ _ _ _ _ _ Hu2 Hne Hcq') as (cq & Hcq & E).
           eapply live_record_data; [done|]. by eapply Hlive.
      * intros q cq' Hq Hcq'.
        assert (q ≠ p) by (by intros ->).
        destruct (data_upd_lookup_ne _ _ _ _ _ _ Hu2 H Hcq') as (cq & Hcq & E).
        eapply free_record_data; [done|]. by eapply Hdead.
Qed.

(** ** TEvent::connect *)

(** The second half of [connect]: the record at [q], freshly constructed,
    is linked in front of the connection list and handed out. *)
Lemma connect_link f q d al :
  heap d !! q = Some ConnectionData_new →
  q ∉ al → NoDup al →
  mConnections d = head al →
  dlseg (heap d) None al None →
  ∃ d',
    (d1 ← store q (set_next (mConnections d)) d;
     d2 ← match mConnections d1 with
           | Some m => store m (set_prev (Some q)) d1
           | None => Ok d1
           end;
     d3 ← store q (set_func (Some f)) (set_mConnections (Some q) d2);
     HEvent_new q d3) = Ok (mkHEvent (Some q) true, d')
    ∧ mConnections d' = Some q
    ∧ mFreeConnections d' = mFreeConnections d
    ∧ length (heap d') = length (heap d)
    ∧ dlseg (heap d') None (q :: al) None
    ∧ (∃ c', heap d' !! q = Some c' ∧ isActive c' = true
             ∧ handleLinks c' = 1%Z ∧ func c' = Some f)
    ∧ (∀ x, x ∉ al → x ≠ q → heap d' !! x = heap d !! x)
    ∧ (∀ x c, x ∈ al → heap d !! x = Some c →
         ∃ c', heap d' !! x = Some c' ∧ next c' = next c ∧ data_eq c c').
Proof.
  intros Hq Hqal Hnd HmC Hal. destruct d as [h mC mF]. simpl in *.
  erewrite store_Ok by done. simpl.
  set (c1 := set_next mC ConnectionData_new).
  assert (Hal1 : dlseg (<[q := c1]> h) None al None).
  { eapply dlseg_ext; [|done]. intros x cx Hx Hcx. exists cx.
    split; [|done]. rewrite list_lookup_insert_ne; [done|by intros ->]. }
  destruct al as [|m al]; simplify_eq/=.
  - erewrite store_Ok by lookup_same.
    simpl. rewrite list_insert_insert_eq.
    unfold HEvent_new.
    erewrite store_Ok by lookup_same.
    simpl. rewrite list_insert_insert_eq.
    eexists. split; [done|]. simpl.
    assert (Hlk : <[q := inc_links (set_func (Some f) c1)]> h !! q
                  = Some (inc_links (set_func (Some f) c1))).
    { lookup_same. }
    split_and!; try done.
    + by rewrite length_insert.
    + eauto.
    + eauto.
    + intros x _ Hx. by rewrite list_lookup_insert_ne.
    + by intros x c ?%elem_of_nil.
  - destruct Hal as [(cm & Hm & Hpm & Hnm) Hal].
    apply not_elem_of_cons in Hqal as [Hqm Hqal].
    erewrite store_Ok by (simpl; by rewrite list_lookup_insert_ne). simpl.
    erewrite store_Ok by (simpl; rewrite list_lookup_insert_ne by done;
      erewrite lookup_insert_heap by done; by rewrite decide_True).
    simpl. unfold HEvent_new.
    erewrite store_Ok by (simpl; erewrite lookup_insert_heap
      by (rewrite list_lookup_insert_ne by done;
          erewrite lookup_insert_heap by done; by rewrite decide_True);
      by rewrite decide_True).
    simpl. rewrite list_insert_insert_eq.
    rewrite (list_insert_insert_ne _ q m) by done.
    rewrite list_insert_insert_eq.
    eexists. split; [done|]. simpl.
    assert (Hlen : q < length h) by (by eapply lookup_lt_Some).
    assert (Hlk : <[m := set_prev (Some q) cm]>
                    (<[q := inc_links (set_func (Some f) c1)]> h) !! q
                  = Some (inc_links (set_func (Some f) c1))).
    { rewrite list_lookup_insert_ne by done. by apply list_lookup_insert_eq. }
    split_and!; try done.
    + by rewrite !length_insert.
    + eauto.
    + exists (set_prev (Some q) cm). split; [|done].
      apply list_lookup_insert_eq. rewrite length_insert. by eapply lookup_lt_Some.
    + eapply dlseg_ext; [|done]. intros x cx Hx Hcx. exists cx. split; [|done].
      apply NoDup_cons in Hnd as [Hmal _].
      rewrite !list_lookup_insert_ne; [done|by intros ->|by intros ->].
    + eauto.
    + intros x Hx Hxq. apply not_elem_of_cons in Hx as [Hxm Hx].
      by rewrite !list_lookup_insert_ne.
    + intros x c Hx Hc. destruct (decide (x = m)) as [->|Hxm].
      * simplify_eq. exists (set_prev (Some q) cm). split; [|done].
        apply list_lookup_insert_eq. rewrite length_insert. by eapply lookup_lt_Some.
      * exists c. rewrite !list_lookup_insert_ne; [done| |done].
        intros ->. apply elem_of_cons in Hx as [?|?]; done.
Qed.

Lemma shape_split_NoDup d al fl :
  shape d al fl → NoDup al ∧ NoDup fl ∧ (∀ x, x ∈ al → x ∉ fl).
Proof.
  intros Hnd%shape_NoDup. apply NoDup_app in Hnd as (? & ? & ?). auto.
Qed.

Lemma connect_spec d al fl f :
  repr d al fl →
  let p := hd (length (heap d)) fl in
  ∃ d', TEvent_connect f d = Ok (mkHEvent (Some p) true, d')
    ∧ repr d' (p :: al) (tail fl)
    ∧ length (heap d')
      = match fl with [] => S (length (heap d)) | _ => length (heap d) end
    ∧ (∃ c', heap d' !! p = Some c' ∧ isActive c' = true
             ∧ handleLinks c' = 1%Z ∧ func c' = Some f)
    ∧ (∀ x c, x ≠ p → heap d !! x = Some c →
         ∃ c', heap d' !! x = Some c' ∧ data_eq c c').
Proof.
  intros [Hs Hlive Hdead] p.
  destruct (shape_split_NoDup _ _ _ Hs) as (Hnda & Hndf & Hdisj).
  pose proof (λ x, shape_elem_of _ _ _ x Hs) as Hdom.
  destruct Hs as [HmC HmF Hal Hfl Hperm].
  destruct fl as [|q fl']; simpl in p; subst p.
  - (* no free record: allocation *)
    unfold TEvent_connect. rewrite HmF. simpl.
    set (q := length (heap d)).
    set (d2 := set_heap (heap d ++ [ConnectionData_new]) d).
    assert (Hqal : q ∉ al).
    { intros Hin. specialize (Hdom q). rewrite app_nil_r in Hdom.
      apply Hdom in Hin. unfold q in Hin. lia. }
    destruct (connect_link f q d2 al) as
      (d' & Hrun & HmC' & HmF' & Hlen' & Hal' & Hq' & Hfr' & Hin'); try done.
    { simpl. by apply list_lookup_middle. }
    { simpl. eapply dlseg_ext; [|done]. intros x cx _ Hx. exists cx.
      split; [|done]. by apply lookup_app_l_Some. }
    exists d'. split; [exact Hrun|]. simpl in *.
    split; [|split; [by rewrite Hlen', length_app, Nat.add_comm|split; [done|]]].
    + split.
      * split; simpl; try done.
        -- by rewrite HmF'.
        -- rewrite Hlen', length_app. simpl. rewrite Nat.add_1_r, seq_S. simpl.
           rewrite app_nil_r in *. rewrite Hperm. fold q.
           by rewrite Permutation_cons_append.
      * intros x cx' [->|Hx]%elem_of_cons Hcx'.
        -- destruct Hq' as (c' & ? & Ha & Hl & _). simplify_eq.
           split; [rewrite Hl; by vm_compute|]. by rewrite Ha.
        -- destruct (lookup_lt_is_Some_2 (heap d) x) as [cx Hcx].
           { apply Hdom. rewrite app_nil_r. done. }
           destruct (Hin' x cx Hx) as (cx2 & ? & _ & E).
           { by apply lookup_app_l_Some. }
           simplify_eq. eapply live_record_data; [done|]. by eapply Hlive.
      * by intros x cx' ?%elem_of_nil.
    + intros x cx Hxq Hcx. destruct (decide (x ∈ al)) as [Hx|Hx].
      * destruct (Hin' x cx Hx) as (cx2 & ? & _ & E); [|by eauto].
        by apply lookup_app_l_Some.
      * rewrite Hfr' by done. exists cx. split; [|apply data_eq_refl].
        by apply lookup_app_l_Some.
  - (* a free record is taken from the free list and constructed anew *)
    destruct Hfl as [(cq & Hq & Hnq) Hfl].
    assert (Hqal : q ∉ al).
    { intros Hin. eapply Hdisj; [done|left]. }
    assert (Hqfl : q ∉ fl') by (by apply NoDup_cons in Hndf as [? _]).
    unfold TEvent_connect. rewrite HmF. simpl.
    rewrite (deref_Ok _ _ cq) by done. simpl.
    erewrite store_Ok by done. simpl.
    rewrite (deref_Ok _ _ ConnectionData_new)
      by lookup_same.
    simpl.
    erewrite store_Ok
      by lookup_same.
    simpl. rewrite list_insert_insert_eq.
    change (set_isActive true ConnectionData_new) with ConnectionData_new.
    set (d2 := set_heap _ _).
    assert (Hq2 : heap d2 !! q = Some ConnectionData_new).
    { lookup_same. }
    destruct (connect_link f q d2 al) as
      (d' & Hrun & HmC' & HmF' & Hlen' & Hal' & Hq' & Hfr' & Hin'); try done.
    { simpl. eapply dlseg_ext; [|done]. intros x cx Hx Hcx. exists cx.
      split; [|done]. rewrite list_lookup_insert_ne; [done|by intros ->]. }
    exists d'. split; [exact Hrun|]. simpl in *. rewrite length_insert in Hlen'.
    split; [|split; [done|split; [done|]]].
    + split.
      * split; simpl; try done.
        -- by rewrite HmF'.
        -- eapply sll_ext; [|done]. intros x cx Hx Hcx. exists cx.
           split; [|done]. rewrite Hfr'.
           ++ rewrite list_lookup_insert_ne; [done|by intros ->].
           ++ intros ?. eapply Hdisj; [done|by right].
           ++ by intros ->.
        -- rewrite Hlen', <- Hperm. by rewrite Permutation_middle.
      * intros x cx' [->|Hx]%elem_of_cons Hcx'.
        -- destruct Hq' as (c' & ? & Ha & Hl & _). simplify_eq.
           split; [rewrite Hl; by vm_compute|]. by rewrite Ha.
        -- destruct (lookup_lt_is_Some_2 (heap d) x) as [cx Hcx].
           { apply Hdom. rewrite elem_of_app. auto. }
           destruct (Hin' x cx Hx) as (cx2 & ? & _ & E).
           { rewrite list_lookup_insert_ne; [done|by intros ->]. }
           simplify_eq. eapply live_record_data; [done|]. by eapply Hlive.
      * intros x cx' Hx Hcx'.
        assert (x ≠ q) by (by intros ->).
        rewrite Hfr' in Hcx'; [|intros ?; eapply Hdisj; [done|by right]|done].
        rewrite list_lookup_insert_ne in Hcx' by done.
        eapply Hdead; [|done]. by right.
    + intros x cx Hxq Hcx. destruct (decide (x ∈ al)) as [Hx|Hx].
      * destruct (Hin' x cx Hx) as (cx2 & ? & _ & E); [|by eauto].
        by rewrite list_lookup_insert_ne.
      * rewrite Hfr' by done. exists cx. split; [|apply data_eq_refl].
        by rewrite list_lookup_insert_ne.
Qed.

(** ** EventInternalData::clear *)

Lemma filter_ext_in {A} (P Q : A → Prop) `{!∀ x, Decision (P x)}
    `{!∀ x, Decision (Q x)} (l : list A) :
  (∀ x, x ∈ l → P x ↔ Q x) → filter P l = filter Q l.
Proof.
  induction l as [|x l IH]; intros Hext; [done|].
  rewrite !filter_cons. rewrite IH by (intros y Hy; apply Hext; by right).
  destruct (decide (P x)) as [HP|HP], (decide (Q x)) as [HQ|HQ]; try done;
    exfalso; apply (Hext x) in HP || apply (Hext x) in HQ; done || by left.
Qed.

Lemma links_of_lookup q d c : heap d !! q = Some c → links_of q d = handleLinks c.
Proof. unfold links_of. by intros ->. Qed.

Lemma clear_loop_spec rest : ∀ vis d fl fuel,
  repr d (vis ++ rest) fl →
  match clear_loop fuel (head rest) d with
  | Ok d' =>
      length rest ≤ fuel
      ∧ repr d' (vis ++ filter (λ q, links_of q d ≠ 0%Z) rest)
                (reverse (filter (λ q, links_of q d = 0%Z) rest) ++ fl)
      ∧ length (heap d') = length (heap d)
      ∧ ∀ q c, heap d !! q = Some c →
          ∃ c', heap d' !! q = Some c'
                ∧ data_eq (if decide (q ∈ rest) then deactivate c else c) c'
  | Fault => False
  | OutOfFuel => fuel < length rest
  end.
Proof.
  induction rest as [|p rest IH]; intros vis d fl fuel Hr.
  { assert (clear_loop fuel (head []) d = Ok d) as -> by (by destruct fuel).
    split; [simpl; lia|]. split; [exact Hr|]. split; [done|].
    intros q c Hq. exists c. split; [done|].
    case_decide as Hin; [by apply elem_of_nil in Hin|]. apply data_eq_refl. }
  destruct fuel as [|fuel]; [simpl; lia|].
  pose proof Hr as [Hs Hlive Hdead].
  destruct (shape_middle_fresh _ _ _ _ _ Hs) as [Hp12 Hpf].
  assert (Hpal : p ∈ vis ++ p :: rest) by (rewrite elem_of_app, elem_of_cons; auto).
  destruct (repr_lookup _ _ _ p Hr) as [c Hc]; [rewrite elem_of_app; auto|].
  assert (Hnext : next c = head rest).
  { destruct Hs as [_ _ Hal _ _]. apply dlseg_app in Hal as [_ Hal].
    destruct Hal as [(c' & ? & _ & Hn) _]. simplify_eq. by rewrite Hn, hd_or_None. }
  destruct (Hlive p c Hpal Hc) as [Hrange _].
  simpl. rewrite (deref_Ok _ _ c) by done. simpl.
  erewrite store_Ok by done. simpl.
  set (d1 := set_heap _ d).
  assert (Hc1 : heap d1 !! p = Some (deactivate c)).
  { lookup_same. }
  assert (Hs1 : shape d1 (vis ++ p :: rest) fl) by (by eapply shape_store).
  assert (Hu1 : data_upd p deactivate (heap d) (heap d1)).
  { simpl. by apply data_upd_insert. }
  rewrite (deref_Ok _ _ (deactivate c)) by done. simpl.
  assert (Hprest : p ∉ rest).
  { intros ?. apply Hp12. rewrite elem_of_app. auto. }
  case_bool_decide as Hl0.
  - (* no handle left: the record goes to the free list *)
    destruct (free_spec d1 vis p rest fl (deactivate c)) as (d2 & Hfree & Hs2 & Hsd);
      [done|done|by split_and!|].
    rewrite Hfree. simpl.
    assert (Hu2 : data_upd p deactivate (heap d) (heap d2))
      by (by eapply data_upd_same).
    assert (Hr2 : repr d2 (vis ++ rest) (p :: fl)).
    { split; [done|..].
      - intros q cq' Hq Hcq'.
        assert (q ≠ p) by (by intros ->).
        destruct (data_upd_lookup_ne _ _ _ _ _ _ Hu2 H Hcq') as (cq & Hcq & E).
        eapply live_record_data; [done|].
        eapply Hlive; [|done]. by apply elem_of_middle_drop.
      - intros q cq' Hq Hcq'. apply elem_of_cons in Hq as [->|Hq].
        + destruct (data_upd_lookup_eq _ _ _ _ _ Hu2 Hcq') as (cq & Hcq & E).
          simplify_eq. eapply free_record_data; [done|]. by split_and!.
        + assert (q ≠ p) by (by intros ->).
          destruct (data_upd_lookup_ne _ _ _ _ _ _ Hu2 H Hcq') as (cq & Hcq & E).
          eapply free_record_data; [done|]. by eapply Hdead. }
    rewrite Hnext. specialize (IH vis d2 (p :: fl) fuel Hr2).
    destruct (clear_loop fuel (head rest) d2) as [d'| |]; [|done|simpl; lia].
    destruct IH as (Hfuel' & Hr' & Hlen' & Hdata').
    split; [simpl; lia|].
    assert (Hlk : ∀ x, x ∈ rest → links_of x d2 = links_of x d).
    { intros x Hx. assert (x ≠ p) by (by intros ->).
      destruct (lookup_lt_is_Some_2 (heap d) x) as [cx Hcx].
      { eapply shape_elem_of; [done|]. rewrite elem_of_app. left.
        rewrite elem_of_app, elem_of_cons. auto. }
      destruct (proj2 Hu2 x cx Hcx) as (cx' & Hcx' & E).
      rewrite decide_False in E by done.
      rewrite (links_of_lookup _ _ _ Hcx), (links_of_lookup _ _ _ Hcx').
      by destruct E as (_ & ? & _). }
    split; [|split; [destruct Hu2; congruence|]].
    + rewrite filter_cons_False
        by (rewrite (links_of_lookup _ _ _ Hc); simpl in Hl0; tauto).
      rewrite filter_cons_True by (by rewrite (links_of_lookup _ _ _ Hc)).
      rewrite reverse_cons, <- (assoc_L (++)). simpl.
      rewrite (filter_ext_in (λ q, links_of q d ≠ 0%Z) (λ q, links_of q d2 ≠ 0%Z))
        by (intros x Hx; by rewrite Hlk).
      rewrite (filter_ext_in (λ q, links_of q d = 0%Z) (λ q, links_of q d2 = 0%Z))
        by (intros x Hx; by rewrite Hlk).
      done.
    + intros q cq Hcq.
      destruct (proj2 Hu2 q cq Hcq) as (cq2 & Hcq2 & E2).
      destruct (Hdata' q cq2 Hcq2) as (cq' & Hcq' & E').
      exists cq'. split; [done|].
      destruct (decide (q = p)) as [->|Hne].
      * rewrite decide_True by left. rewrite decide_False in E' by done.
        by eapply data_eq_trans.
      * destruct (decide (q ∈ rest)) as [Hin|Hin].
        -- rewrite decide_True by (by right).
           destruct E2 as (A2 & L2 & F2), E' as (A' & L' & F').
           split_and!; simpl in *; congruence.
        -- rewrite decide_False by (rewrite elem_of_cons; tauto).
           by eapply data_eq_trans.
  - (* a handle still references the record: it stays, inactive *)
    assert (Hr1 : repr d1 ((vis ++ [p]) ++ rest) fl).
    { rewrite <- (assoc_L (++)). simpl. split; [done|..].
      - intros q cq' Hq Hcq'. destruct (decide (q = p)) as [->|Hne].
        + simplify_eq. split; [done|]. done.
        + destruct (data_upd_lookup_ne _ _ _ _ _ _ Hu1 Hne Hcq') as (cq & Hcq & E).
          eapply live_record_data; [done|]. by eapply Hlive.
      - intros q cq' Hq Hcq'.
        assert (q ≠ p) by (by intros ->).
        destruct (data_upd_lookup_ne _ _ _ _ _ _ Hu1 H Hcq') as (cq & Hcq & E).
        eapply free_record_data; [done|]. by eapply Hdead. }
    simpl. rewrite Hnext. specialize (IH (vis ++ [p]) d1 fl fuel Hr1).
    destruct (clear_loop fuel (head rest) d1) as [d'| |]; [|done|simpl; lia].
    destruct IH as (Hfuel' & Hr' & Hlen' & Hdata').
    split; [simpl; lia|].
    assert (Hlk : ∀ x, x ∈ rest → links_of x d1 = links_of x d).
    { intros x Hx. assert (x ≠ p) by (by intros ->).
      unfold links_of. simpl. by rewrite list_lookup_insert_ne. }
    split; [|split; [destruct Hu1; congruence|]].
    + rewrite filter_cons_True by (by rewrite (links_of_lookup _ _ _ Hc)).
      rewrite filter_cons_False
        by (rewrite (links_of_lookup _ _ _ Hc); simpl in Hl0; tauto).
      rewrite (filter_ext_in (λ q, links_of q d ≠ 0%Z) (λ q, links_of q d1 ≠ 0%Z))
        by (intros x Hx; by rewrite Hlk).
      rewrite (filter_ext_in (λ q, links_of q d = 0%Z) (λ q, links_of q d1 = 0%Z))
        by (intros x Hx; by rewrite Hlk).
      by rewrite <- (assoc_L (++)) in Hr'.
    + intros q cq Hcq.
      destruct (proj2 Hu1 q cq Hcq) as (cq2 & Hcq2 & E2).
      destruct (Hdata' q cq2 Hcq2) as (cq' & Hcq' & E').
      exists cq'. split; [done|].
      destruct (decide (q = p)) as [->|Hne].
      * rewrite decide_True by left. rewrite decide_False in E' by done.
        by eapply data_eq_trans.
      * destruct (decide (q ∈ rest)) as [Hin|Hin].
        -- rewrite decide_True by (by right).
           destruct E2 as (A2 & L2 & F2), E' as (A' & L' & F').
           split_and!; simpl in *; congruence.
        -- rewrite decide_False by (rewrite elem_of_cons; tauto).
           by eapply data_eq_trans.
Qed.

(** ** Counting handles *)

Lemma refs_empty q : refs q ∅ = 0.
Proof. unfold refs. by rewrite map_filter_empty, map_size_empty. Qed.

Lemma refs_insert q s h (hs : gmap nat HEvent) :
  refs q (<[s := h]> hs) + points q (default HEvent_null (hs !! s))
  = refs q hs + points q h.
Proof.
  unfold refs, points.
  set (P := λ kv : nat * HEvent, mConnection kv.2 = Some q).
  assert (Hlk : filter P hs !! s
                = match hs !! s with
                  | Some h0 => if decide (mConnection h0 = Some q)
                               then Some h0 else None
                  | None => None
                  end).
  { rewrite map_lookup_filter. destruct (hs !! s) as [h0|]; simpl; [|done].
    case_decide as E.
    - rewrite option_guard_True; [done|exact E].
    - rewrite option_guard_False; [done|exact E]. }
  assert (Hpos : ∀ h0, filter P hs !! s = Some h0 → 0 < size (filter P hs)).
  { intros h0 E.
    assert (size (filter P hs) ≠ 0)
      by (eapply map_size_ne_0_lookup_2; by rewrite E).
    lia. }
  destruct (decide (mConnection h = Some q)) as [HP|HP].
  - rewrite map_filter_insert_True by done. rewrite map_size_insert, Hlk.
    destruct (hs !! s) as [h0|] eqn:E; simpl.
    + case_decide; simpl; lia.
    + simpl. lia.
  - rewrite map_filter_insert_False by done.
    rewrite map_filter_delete, map_size_delete.
    destruct (filter P hs !! s) as [h1|] eqn:E1.
    + specialize (Hpos _ eq_refl). rewrite Hlk in E1.
      destruct (hs !! s) as [h0|] eqn:E; simpl; [|done].
      case_decide; [|done]. simpl. lia.
    + rewrite Hlk in E1. destruct (hs !! s) as [h0|] eqn:E; simpl; [|lia].
      case_decide; [done|]. simpl. lia.
Qed.

Lemma refs_delete q s (hs : gmap nat HEvent) :
  refs q (delete s hs) + points q (default HEvent_null (hs !! s)) = refs q hs.
Proof.
  pose proof (refs_insert q s HEvent_null (delete s hs)) as H1.
  rewrite lookup_delete_eq in H1. simpl in H1.
  pose proof (refs_insert q s HEvent_null hs) as H2.
  rewrite insert_delete_eq in H1.
  unfold points in *. simpl in *. lia.
Qed.

Lemma refs_lookup q s h (hs : gmap nat HEvent) :
  hs !! s = Some h → mConnection h = Some q → 1 ≤ refs q hs.
Proof.
  intros Hs Hq. pose proof (refs_insert q s HEvent_null hs) as H.
  rewrite Hs in H. unfold points in H. simpl in H.
  rewrite decide_True in H by done. lia.
Qed.

Lemma points_le q h : points q h ≤ 1.
Proof. unfold points. case_decide; lia. Qed.

Lemma handle_at_Some s w p :
  mConnection (handle_at s w) = Some p →
  handles w !! s = Some (handle_at s w).
Proof.
  unfold handle_at. by destruct (handles w !! s).
Qed.

(** ** Reference counts across an update *)

Lemma links_of_data_upd d d' p g q :
  data_upd p g (heap d) (heap d') →
  links_of q d'
  = if decide (q = p)
    then match heap d !! p with
         | Some c => handleLinks (g c)
         | None => 0%Z
         end
    else links_of q d.
Proof.
  intros [Hlen Hupd]. unfold links_of.
  destruct (heap d !! q) as [c|] eqn:E.
  - destruct (Hupd q c E) as (c' & -> & (_ & Hl & _)).
    case_decide; simplify_eq; by rewrite ?E.
  - assert (heap d' !! q = None) as ->.
    { apply lookup_ge_None. apply lookup_ge_None in E. lia. }
    case_decide; simplify_eq; by rewrite ?E.
Qed.

Lemma links_of_free d al fl p : repr d al fl → p ∈ fl → links_of p d = 0%Z.
Proof.
  intros Hr Hp. destruct (repr_lookup _ _ _ p Hr) as [c Hc].
  { rewrite elem_of_app. auto. }
  rewrite (links_of_lookup _ _ _ Hc).
  by destruct (repr_dead _ _ _ Hr p c Hp Hc) as (_ & ? & _).
Qed.

Lemma links_of_unallocated d p : length (heap d) ≤ p → links_of p d = 0%Z.
Proof. intros Hp. unfold links_of. by rewrite (lookup_ge_None_2 _ _ Hp). Qed.

(** A handle that references a record references a record of the
    connection list whose count is positive. *)
Lemma inv_handle w al fl s p :
  inv w al fl → mConnection (handle_at s w) = Some p →
  mEventData (handle_at s w) = true
  ∧ ∃ l1 l2 c, al = l1 ++ p :: l2 ∧ heap (ev w) !! p = Some c
               ∧ (1 ≤ handleLinks c < UINT32_MOD)%Z.
Proof.
  intros [Hr Hrefs Hdata] Hp.
  pose proof (handle_at_Some _ _ _ Hp) as Hs.
  split; [apply (Hdata s); [done|by rewrite Hp]|].
  pose proof (refs_lookup _ _ _ _ Hs Hp) as H1.
  specialize (Hrefs p).
  destruct (heap (ev w) !! p) as [c|] eqn:Hc.
  2:{ unfold links_of in Hrefs. rewrite Hc in Hrefs. lia. }
  rewrite (links_of_lookup _ _ _ Hc) in Hrefs.
  assert (Hin : p ∈ al ++ fl).
  { eapply shape_elem_of; [apply Hr|]. by eapply lookup_lt_Some. }
  apply elem_of_app in Hin as [Hin|Hin].
  - apply list_elem_of_split in Hin as (l1 & l2 & ->).
    exists l1, l2, c. split; [done|]. split; [done|].
    destruct (repr_live _ _ _ Hr p c) as [? _]; [|done|lia].
    rewrite elem_of_app, elem_of_cons. auto.
  - destruct (repr_dead _ _ _ Hr p c Hin Hc) as (_ & ? & _). lia.
Qed.

(** ** Statements of client code *)

Lemma elem_of_middle (l1 l2 : list nat) p : p ∈ l1 ++ p :: l2.
Proof. rewrite elem_of_app, elem_of_cons. auto. Qed.

(** [h.disconnect()] on a handle that references a record. *)
Lemma exec_disconnect_Some fuel trig w al fl s p :
  inv w al fl → mConnection (handle_at s w) = Some p →
  ∃ l1 l2 c d',
    al = l1 ++ p :: l2 ∧ heap (ev w) !! p = Some c
    ∧ (1 ≤ handleLinks c < UINT32_MOD)%Z
    ∧ exec_cmd fuel trig (CDisconnect s) w
      = Ok (mkWorld d' (<[s := HEvent_null]> (handles w)) (log w))
    ∧ data_upd p (λ c, dec_links (deactivate c)) (heap (ev w)) (heap d')
    ∧ if decide (handleLinks c = 1%Z)
      then inv (mkWorld d' (<[s := HEvent_null]> (handles w)) (log w))
               (l1 ++ l2) (p :: fl)
      else inv (mkWorld d' (<[s := HEvent_null]> (handles w)) (log w)) al fl.
Proof.
  intros Hinv Hp.
  destruct (inv_handle _ _ _ _ _ Hinv Hp) as (Hdata & l1 & l2 & c & -> & Hc & Hrange).
  destruct Hinv as [Hr Hrefs Hd].
  destruct (disconnect_spec _ _ _ _ _ _ Hr Hc) as (d' & Hrun & Hupd & Hr').
  exists l1, l2, c, d'. split; [done|]. split; [done|]. split; [done|].
  split.
  { simpl. unfold HEvent_disconnect. rewrite Hp, Hdata, Hrun. done. }
  split; [done|].
  assert (Hrefs' : ∀ q, (Z.of_nat (refs q (<[s := HEvent_null]> (handles w)))
                         ≤ links_of q d')%Z).
  { intros q. pose proof (refs_insert q s HEvent_null (handles w)) as Hins.
    fold (handle_at s w) in Hins. unfold points in Hins. simpl in Hins.
    rewrite Hp in Hins. rewrite (links_of_data_upd _ _ _ _ q Hupd).
    specialize (Hrefs q). destruct (decide (q = p)) as [->|Hq].
    - rewrite decide_True in Hins by done.
      rewrite Hc. simpl. rewrite (links_of_lookup _ _ _ Hc) in Hrefs.
      rewrite u32_dec_pos by done. lia.
    - rewrite decide_False in Hins by congruence. lia. }
  assert (Hd' : ∀ s' h, <[s := HEvent_null]> (handles w) !! s' = Some h →
                  is_Some (mConnection h) → mEventData h = true).
  { intros s' h. rewrite lookup_insert_Some. intros [[_ <-]|[_ Hs']].
    - simpl. by intros [? ?].
    - by apply (Hd s'). }
  case_decide; by split.
Qed.

(** [h.disconnect()] on an empty handle does nothing. *)
Lemma exec_disconnect_None fuel trig w al fl s :
  inv w al fl → mConnection (handle_at s w) = None →
  exec_cmd fuel trig (CDisconnect s) w
  = Ok (mkWorld (ev w) (<[s := handle_at s w]> (handles w)) (log w))
  ∧ inv (mkWorld (ev w) (<[s := handle_at s w]> (handles w)) (log w)) al fl.
Proof.
  intros [Hr Hrefs Hd] Hp. split.
  { simpl. unfold HEvent_disconnect. by rewrite Hp. }
  split; simpl; [done|..].
  - intros q. pose proof (refs_insert q s (handle_at s w) (handles w)) as Hins.
    fold (handle_at s w) in Hins. specialize (Hrefs q). lia.
  - intros s' h. rewrite lookup_insert_Some. intros [[_ <-]|[_ Hs']].
    + rewrite Hp. by intros [? ?].
    + by apply (Hd s').
Qed.

(** A handle that references a record goes out of scope. *)
Lemma exec_destroy_Some fuel trig w al fl s p :
  inv w al fl → mConnection (handle_at s w) = Some p →
  ∃ l1 l2 c d',
    al = l1 ++ p :: l2 ∧ heap (ev w) !! p = Some c
    ∧ (1 ≤ handleLinks c < UINT32_MOD)%Z
    ∧ exec_cmd fuel trig (CDestroy s) w
      = Ok (mkWorld d' (delete s (handles w)) (log w))
    ∧ data_upd p dec_links (heap (ev w)) (heap d')
    ∧ if decide (handleLinks c = 1%Z ∧ isActive c = false)
      then inv (mkWorld d' (delete s (handles w)) (log w)) (l1 ++ l2) (p :: fl)
      else inv (mkWorld d' (delete s (handles w)) (log w)) al fl.
Proof.
  intros Hinv Hp.
  destruct (inv_handle _ _ _ _ _ Hinv Hp) as (Hdata & l1 & l2 & c & -> & Hc & Hrange).
  destruct Hinv as [Hr Hrefs Hd].
  destruct (freeHandle_spec _ _ _ _ _ _ Hr Hc) as (d' & Hrun & Hupd & Hr').
  exists l1, l2, c, d'. split; [done|]. split; [done|]. split; [done|].
  split.
  { simpl. unfold HEvent_dtor. rewrite Hp, Hdata, Hrun. done. }
  split; [done|].
  assert (Hrefs' : ∀ q, (Z.of_nat (refs q (delete s (handles w)))
                         ≤ links_of q d')%Z).
  { intros q. pose proof (refs_delete q s (handles w)) as Hins.
    fold (handle_at s w) in Hins. unfold points in Hins.
    rewrite Hp in Hins. rewrite (links_of_data_upd _ _ _ _ q Hupd).
    specialize (Hrefs q). destruct (decide (q = p)) as [->|Hq].
    - rewrite decide_True in Hins by done.
      rewrite Hc. simpl. rewrite (links_of_lookup _ _ _ Hc) in Hrefs.
      rewrite u32_dec_pos by done. lia.
    - rewrite decide_False in Hins by congruence. lia. }
  assert (Hd' : ∀ s' h, delete s (handles w) !! s' = Some h →
                  is_Some (mConnection h) → mEventData h = true).
  { intros s' h. rewrite lookup_delete_Some. intros [_ Hs']. by apply (Hd s'). }
  case_decide; by split.
Qed.

(** An empty handle goes out of scope. *)
Lemma exec_destroy_None fuel trig w al fl s :
  inv w al fl → mConnection (handle_at s w) = None →
  exec_cmd fuel trig (CDestroy s) w
  = Ok (mkWorld (ev w) (delete s (handles w)) (log w))
  ∧ inv (mkWorld (ev w) (delete s (handles w)) (log w)) al fl.
Proof.
  intros [Hr Hrefs Hd] Hp. split.
  { simpl. unfold HEvent_dtor. by rewrite Hp. }
  split; simpl; [done|..].
  - intros q. pose proof (refs_delete q s (handles w)) as Hins.
    specialize (Hrefs q). lia.
  - intros s' h. rewrite lookup_delete_Some. intros [_ Hs']. by apply (Hd s').
Qed.

(** [handleLinks++] on a record of the connection list. *)
Lemma inc_links_spec d al fl p c :
  repr d al fl → p ∈ al → heap d !! p = Some c →
  isActive c = true ∨ (handleLinks c < UINT32_MOD - 1)%Z →
  ∃ d', store p inc_links d = Ok d'
    ∧ data_upd p inc_links (heap d) (heap d')
    ∧ repr d' al fl.
Proof.
  intros [Hs Hlive Hdead] Hp Hc Hok.
  destruct (shape_split_NoDup _ _ _ Hs) as (_ & _ & Hdisj).
  erewrite store_Ok by done. eexists. split; [done|].
  assert (Hu : data_upd p inc_links (heap d) (<[p := inc_links c]> (heap d)))
    by (by apply data_upd_insert).
  split; [done|]. split.
  - by eapply shape_store.
  - intros q cq' Hq Hcq'. simpl in Hcq'. destruct (decide (q = p)) as [->|Hne].
    + erewrite lookup_insert_heap in Hcq' by done.
      rewrite decide_True in Hcq' by done. simplify_eq.
      destruct (Hlive p c Hp Hc) as [Hrange Hinact].
      split; [apply u32_inc_range|]. simpl. intros Ha.
      destruct (Hinact Ha) as [? ?]. split; [done|].
      destruct Hok as [?|?]; [congruence|].
      rewrite u32_inc_small by lia. lia.
    + destruct (data_upd_lookup_ne _ _ _ _ _ _ Hu Hne Hcq') as (cq & Hcq & E).
      eapply live_record_data; [done|]. by eapply Hlive.
  - intros q cq' Hq Hcq'. simpl in Hcq'.
    assert (q ≠ p) by (intros ->; by eapply Hdisj).
    destruct (data_upd_lookup_ne _ _ _ _ _ _ Hu H Hcq') as (cq & Hcq & E).
    eapply free_record_data; [done|]. by eapply Hdead.
Qed.

Lemma links_of_frame d d' p q :
  (∀ x c, x ≠ p → heap d !! x = Some c →
     ∃ c', heap d' !! x = Some c' ∧ data_eq c c') →
  (∀ x, length (heap d) ≤ x → x ≠ p → length (heap d') ≤ x) →
  q ≠ p → links_of q d' = links_of q d.
Proof.
  intros Hfr Hlen Hq. unfold links_of.
  destruct (heap d !! q) as [c|] eqn:E.
  - destruct (Hfr q c Hq E) as (c' & -> & (_ & ? & _)). done.
  - apply lookup_ge_None in E. by rewrite (lookup_ge_None_2 _ _ (Hlen q E Hq)).
Qed.

(** [h = event.connect(f);] and [event.connect(f);] *)
Lemma exec_connect_spec fuel trig w al fl dst f :
  inv w al fl →
  let p := hd (length (heap (ev w))) fl in
  let hs' := match dst with
             | Some s => <[s := mkHEvent (Some p) true]> (handles w)
             | None => handles w
             end in
  ∃ d', exec_cmd fuel trig (CConnect dst f) w = Ok (mkWorld d' hs' (log w))
    ∧ inv (mkWorld d' hs' (log w)) (p :: al) (tail fl)
    ∧ length (heap d')
      = match fl with
        | [] => S (length (heap (ev w)))
        | _ => length (heap (ev w))
        end
    ∧ (∃ c', heap d' !! p = Some c' ∧ isActive c' = true
             ∧ handleLinks c' = match dst with Some _ => 1%Z | None => 0%Z end ∧ func c' = Some f)
    ∧ (∀ x c, x ≠ p → heap (ev w) !! x = Some c →
         ∃ c', heap d' !! x = Some c' ∧ data_eq c c').
Proof.
  intros [Hr Hrefs Hd] p hs'.
  destruct (connect_spec _ _ _ f Hr) as (d1 & Hrun & Hr1 & Hlen1 & Hp1 & Hfr1).
  fold p in Hrun, Hr1, Hp1, Hfr1.
  destruct Hp1 as (c1 & Hc1 & Ha1 & Hl1 & Hf1).
  assert (Hp0 : links_of p (ev w) = 0%Z).
  { destruct fl as [|q fl']; simpl in p.
    - by apply links_of_unallocated.
    - eapply links_of_free; [done|left]. }
  assert (Hrefs0 : refs p (handles w) = 0).
  { specialize (Hrefs p). lia. }
  assert (Hlenx : ∀ x, length (heap (ev w)) ≤ x → x ≠ p → length (heap d1) ≤ x).
  { intros x Hx Hxp. rewrite Hlen1. destruct fl; [|done]. simpl in p. lia. }
  simpl. rewrite Hrun. simpl.
  destruct dst as [s|]; subst hs'.
  - (* the handle is kept: operator= and the destructor of the temporary *)
    destruct (inc_links_spec d1 (p :: al) (tail fl) p c1) as (d2 & Hrun2 & Hu2 & Hr2);
      [done|left|done|by left|].
    unfold HEvent_assign. simpl. rewrite Hrun2. simpl.
    destruct (proj2 Hu2 p c1 Hc1) as (c2 & Hc2 & E2).
    rewrite decide_True in E2 by done. destruct E2 as (Ha2 & Hl2 & Hf2).
    simpl in Ha2, Hl2, Hf2.
    destruct (freeHandle_spec d2 [] p al (tail fl) c2) as (d3 & Hrun3 & Hu3 & Hr3);
      [done|done|].
    unfold HEvent_dtor. simpl. rewrite Hrun3. simpl. rewrite decide_False in Hr3
      by (intros [_ ?]; congruence).
    exists d3. split; [done|].
    destruct (proj2 Hu3 p c2 Hc2) as (c3 & Hc3 & E3).
    rewrite decide_True in E3 by done. destruct E3 as (Ha3 & Hl3 & Hf3).
    simpl in Ha3, Hl3, Hf3.
    assert (Hl3' : handleLinks c3 = 1%Z).
    { rewrite Hl3, Hl2, Hl1. by vm_compute. }
    assert (Hfr3 : ∀ x c, x ≠ p → heap (ev w) !! x = Some c →
              ∃ c', heap d3 !! x = Some c' ∧ data_eq c c').
    { intros x c Hx Hc. destruct (Hfr1 x c Hx Hc) as (c' & Hc' & E').
      destruct (proj2 Hu2 x c' Hc') as (c'' & Hc'' & E'').
      rewrite decide_False in E'' by done.
      destruct (proj2 Hu3 x c'' Hc'') as (c''' & Hc''' & E''').
      rewrite decide_False in E''' by done.
      exists c'''. split; [done|]. eauto using data_eq_trans. }
    split; [|split; [|split]].
    + split; simpl; [done|..].
      * intros q. pose proof (refs_insert q s (mkHEvent (Some p) true) (handles w)) as Hins.
        pose proof (points_le q (default HEvent_null (handles w !! s))).
        unfold points at 2 in Hins. simpl in Hins.
        destruct (decide (q = p)) as [->|Hq].
        -- rewrite (links_of_lookup _ _ _ Hc3), Hl3'.
           rewrite decide_True in Hins by done. lia.
        -- rewrite decide_False in Hins by congruence.
           rewrite (links_of_frame (ev w) d3 p q); [|done| |done].
           ++ specialize (Hrefs q). lia.
           ++ intros x Hx Hxp. destruct Hu3 as [-> _], Hu2 as [-> _]. auto.
      * intros s' h. rewrite lookup_insert_Some. intros [[_ <-]|[_ Hs']]; [done|].
        by apply (Hd s').
    + destruct Hu2 as [L2 _], Hu3 as [L3 _]. by rewrite L3, L2.
    + exists c3. split_and!; congruence.
    + done.
  - (* the returned temporary is dropped at once *)
    unfold HEvent_dtor. simpl.
    destruct (freeHandle_spec d1 [] p al (tail fl) c1) as (d3 & Hrun3 & Hu3 & Hr3);
      [done|done|].
    rewrite Hrun3. simpl. rewrite decide_False in Hr3
      by (intros [_ ?]; congruence).
    exists d3. split; [done|].
    destruct (proj2 Hu3 p c1 Hc1) as (c3 & Hc3 & E3).
    rewrite decide_True in E3 by done. destruct E3 as (Ha3 & Hl3 & Hf3).
    simpl in Ha3, Hl3, Hf3.
    assert (Hl3' : handleLinks c3 = 0%Z).
    { rewrite Hl3, Hl1. by vm_compute. }
    assert (Hfr3 : ∀ x c, x ≠ p → heap (ev w) !! x = Some c →
              ∃ c', heap d3 !! x = Some c' ∧ data_eq c c').
    { intros x c Hx Hc. destruct (Hfr1 x c Hx Hc) as (c' & Hc' & E').
      destruct (proj2 Hu3 x c' Hc') as (c''' & Hc''' & E''').
      rewrite decide_False in E''' by done.
      exists c'''. split; [done|]. eauto using data_eq_trans. }
    split; [|split; [|split]].
    + split; simpl; [done|..].
      * intros q. destruct (decide (q = p)) as [->|Hq].
        -- rewrite (links_of_lookup _ _ _ Hc3), Hl3'. lia.
        -- rewrite (links_of_frame (ev w) d3 p q); [|done| |done].
           ++ apply Hrefs.
           ++ intros x Hx Hxp. destruct Hu3 as [-> _]. auto.
      * done.
    + destruct Hu3 as [L3 _]. by rewrite L3.
    + exists c3. split_and!; congruence.
    + done.
Qed.

(** [event.clear();] *)
Lemma exec_clear_spec fuel trig w al fl :
  inv w al fl →
  match exec_cmd fuel trig CClear w with
  | Ok w' =>
      length al ≤ fuel
      ∧ inv w' (filter (λ q, links_of q (ev w) ≠ 0%Z) al)
               (reverse (filter (λ q, links_of q (ev w) = 0%Z) al) ++ fl)
      ∧ handles w' = handles w ∧ log w' = log w
      ∧ length (heap (ev w')) = length (heap (ev w))
      ∧ ∀ q c, heap (ev w) !! q = Some c →
          ∃ c', heap (ev w') !! q = Some c'
                ∧ data_eq (if decide (q ∈ al) then deactivate c else c) c'
  | Fault => False
  | OutOfFuel => fuel < length al
  end.
Proof.
  intros [Hr Hrefs Hd]. simpl. unfold clear.
  pose proof (clear_loop_spec al [] (ev w) fl fuel Hr) as Hspec.
  rewrite (shape_head _ _ _ (repr_shape _ _ _ Hr)).
  destruct (clear_loop fuel (head al) (ev w)) as [d'| |]; simpl; [|done..].
  destruct Hspec as (Hfuel & Hr' & Hlen & Hdata).
  split; [done|]. split; [|done]. split; simpl; [done| |done].
  intros q. assert (links_of q d' = links_of q (ev w)) as ->; [|done].
  unfold links_of. destruct (heap (ev w) !! q) as [c|] eqn:E.
  - destruct (Hdata q c E) as (c' & -> & (_ & Hl & _)).
    rewrite Hl. by case_decide.
  - apply lookup_ge_None in E. rewrite lookup_ge_None_2; [done|lia].
Qed.

Lemma safe_mono n m r : m ≤ n → safe n r → safe m r.
Proof. intros Hle. destruct r; simpl; [|done..]. intros [? ?]. split; [done|lia]. Qed.

Lemma inv_log w al fl l :
  inv w al fl → inv (mkWorld (ev w) (handles w) l) al fl.
Proof. intros [? ? ?]. by split. Qed.

(** Every statement other than a handle assignment keeps the invariant. *)
Lemma exec_safe fuel trig c w al fl :
  inv w al fl → is_assign c = false →
  (∀ w' al' fl', inv w' al' fl' → safe (length (heap (ev w'))) (trig w')) →
  safe (length (heap (ev w))) (exec_cmd fuel trig c w).
Proof.
  intros Hinv Hc Htrig. destruct c as [dst f|s|s|dst src| |]; try done.
  - destruct (exec_connect_spec fuel trig w al fl dst f Hinv)
      as (d' & -> & Hinv' & Hlen & _).
    split; [eauto|]. simpl. rewrite Hlen. destruct fl; lia.
  - destruct (mConnection (handle_at s w)) as [p|] eqn:Hp.
    + destruct (exec_disconnect_Some fuel trig w al fl s p Hinv Hp)
        as (l1 & l2 & c & d' & -> & _ & _ & -> & [Hlen _] & Hinv').
      split; [|simpl; lia]. case_decide; eauto.
    + destruct (exec_disconnect_None fuel trig w al fl s Hinv Hp) as [-> Hinv'].
      split; [eauto|done].
  - destruct (mConnection (handle_at s w)) as [p|] eqn:Hp.
    + destruct (exec_destroy_Some fuel trig w al fl s p Hinv Hp)
        as (l1 & l2 & c & d' & -> & _ & _ & -> & [Hlen _] & Hinv').
      split; [|simpl; lia]. case_decide; eauto.
    + destruct (exec_destroy_None fuel trig w al fl s Hinv Hp) as [-> Hinv'].
      split; [eauto|done].
  - pose proof (exec_clear_spec fuel trig w al fl Hinv) as Hspec.
    destruct (exec_cmd fuel trig CClear w) as [w'| |]; [|done..].
    destruct Hspec as (_ & Hinv' & _ & _ & Hlen & _).
    split; [eauto|lia].
  - simpl. by eapply Htrig.
Qed.

Lemma run_cmds_safe exec cs : ∀ w al fl,
  inv w al fl →
  (∀ c w' al' fl', c ∈ cs → inv w' al' fl' →
     safe (length (heap (ev w'))) (exec c w')) →
  safe (length (heap (ev w))) (run_cmds exec cs w).
Proof.
  induction cs as [|c cs IH]; intros w al fl Hinv Hexec; simpl.
  - split; [eauto|done].
  - pose proof (Hexec c w al fl (list_elem_of_here _ _) Hinv) as Hc.
    destruct (exec c w) as [w1| |]; simpl; [|done..].
    destruct Hc as [(al1 & fl1 & Hinv1) Hlen1].
    eapply safe_mono; [done|]. eapply IH; [done|].
    intros c' w' al' fl' Hin. apply Hexec. by right.
Qed.

(** A pointer stored in a record is a valid address. *)
Lemma repr_next_valid d al fl p c n :
  repr d al fl → heap d !! p = Some c → next c = Some n →
  n < length (heap d).
Proof.
  intros Hr Hc Hn. pose proof (repr_shape _ _ _ Hr) as Hs.
  assert (Hin : p ∈ al ++ fl).
  { eapply shape_elem_of; [done|]. by eapply lookup_lt_Some. }
  apply elem_of_app in Hin as [Hin|Hin];
    apply list_elem_of_split in Hin as (l1 & l2 & ->).
  - destruct Hs as [_ _ Hal _ Hperm].
    apply dlseg_app in Hal as [_ [(c' & ? & _ & Hn') _]]. simplify_eq.
    destruct l2 as [|n' l2]; simpl in *; [congruence|]. simplify_eq.
    apply (elem_of_seq 0). rewrite <- Hperm.
    rewrite !elem_of_app, !elem_of_cons. auto.
  - destruct Hs as [_ _ _ Hfl Hperm].
    assert (∀ l, sll (heap d) (l ++ p :: l2) → next c = head l2) as Hsll.
    { intros l. induction l as [|x l IHl]; simpl.
      - intros [(c' & ? & ?) _]. by simplify_eq.
      - intros [_ ?]. auto. }
    rewrite (Hsll _ Hfl) in Hn.
    destruct l2 as [|n' l2]; simpl in *; [congruence|]. simplify_eq.
    apply (elem_of_seq 0). rewrite <- Hperm.
    rewrite !elem_of_app, !elem_of_cons. auto.
Qed.

Lemma repr_head_valid d al fl p :
  repr d al fl → mConnections d = Some p → p < length (heap d).
Proof.
  intros Hr Hp. pose proof (repr_shape _ _ _ Hr) as Hs.
  rewrite (shape_head _ _ _ Hs) in Hp. destruct al as [|q al]; simplify_eq/=.
  eapply shape_elem_of; [done|left].
Qed.

Section Safety.

Variable body : nat → list cmd.
Hypothesis body_no_assign : ∀ f c, c ∈ body f → is_assign c = false.

Lemma walk_safe fuel : ∀ conn w al fl,
  inv w al fl →
  (∀ p, conn = Some p → p < length (heap (ev w))) →
  safe (length (heap (ev w))) (walk body fuel conn w).
Proof.
  induction fuel as [|fuel IH]; intros conn w al fl Hinv Hconn.
  { destruct conn; simpl; [done|]. split; [eauto|done]. }
  destruct conn as [p|]; simpl; [|split; [eauto|done]].
  destruct (lookup_lt_is_Some_2 (heap (ev w)) p) as [c Hc]; [by apply Hconn|].
  rewrite (deref_Ok _ _ c) by done. simpl.
  set (trig := λ w', walk body fuel (mConnections (ev w')) w').
  assert (Htrig : ∀ w' al' fl', inv w' al' fl' →
            safe (length (heap (ev w'))) (trig w')).
  { intros w' al' fl' Hinv'. eapply IH; [done|].
    intros q Hq. eapply repr_head_valid; [apply Hinv'|done]. }
  assert (Hcb : safe (length (heap (ev w)))
            match func c with
            | Some f => run_cmds (exec_cmd fuel trig) (body f) (log_call f w)
            | None => Ok w
            end).
  { destruct (func c) as [f|]; [|split; [eauto|done]].
    apply (run_cmds_safe _ _ (log_call f w) al fl).
    - by apply inv_log.
    - intros c' w' al' fl' Hin Hinv'. eapply exec_safe; eauto. }
  destruct (match func c with Some _ => _ | None => _ end) as [w1| |];
    simpl; [|done..].
  destruct Hcb as [(al1 & fl1 & Hinv1) Hlen1].
  eapply safe_mono; [done|]. eapply IH; [done|].
  intros n Hn. pose proof (repr_next_valid _ _ _ _ _ _ (inv_repr _ _ _ Hinv) Hc Hn).
  lia.
Qed.

Lemma trigger_safe fuel w al fl :
  inv w al fl → safe (length (heap (ev w))) (trigger body fuel w).
Proof.
  intros Hinv. eapply walk_safe; [done|].
  intros p Hp. eapply repr_head_valid; [apply Hinv|done].
Qed.

Lemma run_safe fuel cs w al fl :
  inv w al fl → (∀ c, c ∈ cs → is_assign c = false) →
  safe (length (heap (ev w))) (run body fuel cs w).
Proof.
  intros Hinv Hcs. eapply run_cmds_safe; [done|].
  intros c w' al' fl' Hin Hinv'. eapply exec_safe; [done|by apply Hcs|].
  intros. by eapply trigger_safe.
Qed.

End Safety.

Lemma inv_world_new : inv world_new [] [].
Proof.
  split; simpl.
  - split; [by split|..]; by intros p c ?%elem_of_nil.
  - intros q. rewrite refs_empty. unfold links_of. simpl. done.
  - intros s h. by rewrite lookup_empty.
Qed.

(** ** Sequences of statements *)

Lemma run_cmds_cons exec c cs w :
  run_cmds exec (c :: cs) w = exec c w ≫= run_cmds exec cs.
Proof. done. Qed.

Lemma run_cmds_app exec cs1 cs2 w :
  run_cmds exec (cs1 ++ cs2) w = run_cmds exec cs1 w ≫= run_cmds exec cs2.
Proof.
  revert w. induction cs1 as [|c cs1 IH]; intros w; simpl; [done|].
  destruct (exec c w); simpl; [|done..]. apply IH.
Qed.

Lemma callbacks_cons h p l :
  callbacks h (p :: l)
  = match h !! p ≫= func with
    | Some f => f :: callbacks h l
    | None => callbacks h l
    end.
Proof. done. Qed.

Lemma callbacks_ext h h' l :
  (∀ p c, p ∈ l → h !! p = Some c → ∃ c', h' !! p = Some c' ∧ func c' = func c) →
  (∀ p, p ∈ l → is_Some (h !! p)) →
  callbacks h' l = callbacks h l.
Proof.
  intros Hext Hdom. induction l as [|p l IH]; [done|].
  rewrite !callbacks_cons, IH.
  - destruct (Hdom p) as [c Hc]; [left|].
    destruct (Hext p c) as (c' & Hc' & Hf); [left|done|].
    by rewrite Hc, Hc'; simpl; rewrite Hf.
  - intros q c ?. apply Hext. by right.
  - intros q ?. apply Hdom. by right.
Qed.

Section Walk.

Variable body : nat → list cmd.

Lemma run_cons fuel c cs w :
  run body fuel (c :: cs) w
  = exec_cmd fuel (trigger body fuel) c w ≫= run body fuel cs.
Proof. done. Qed.

Lemma run_app fuel cs1 cs2 w :
  run body fuel (cs1 ++ cs2) w = run body fuel cs1 w ≫= run body fuel cs2.
Proof. apply run_cmds_app. Qed.

(** The walk over records whose callbacks leave the event alone. *)
Lemma walk_passive rest : ∀ vis w fl fuel,
  repr (ev w) (vis ++ rest) fl →
  (∀ f, f ∈ callbacks (heap (ev w)) rest → body f = []) →
  length rest ≤ fuel →
  walk body fuel (head rest) w
  = Ok (mkWorld (ev w) (handles w)
                (log w ++ callbacks (heap (ev w)) rest)).
Proof.
  induction rest as [|p rest IH]; intros vis w fl fuel Hr Hbody Hfuel.
  { destruct w, fuel; simpl; by rewrite app_nil_r. }
  destruct fuel as [|fuel]; simpl in Hfuel; [lia|].
  destruct (repr_lookup _ _ _ p Hr) as [c Hc].
  { rewrite elem_of_app. left. apply elem_of_middle. }
  assert (Hnext : next c = head rest).
  { destruct Hr as [[_ _ Hal _ _] _ _]. apply dlseg_app in Hal as [_ Hal].
    destruct Hal as [(c' & ? & _ & Hn) _]. simplify_eq. by rewrite Hn, hd_or_None. }
  simpl. rewrite (deref_Ok _ _ c) by done. simpl. rewrite Hnext.
  rewrite callbacks_cons in *. rewrite Hc in *. simpl in *.
  destruct (func c) as [f|] eqn:Hf.
  - rewrite (Hbody f) by left. simpl.
    rewrite (IH (vis ++ [p]) (log_call f w) fl fuel); simpl.
    + by rewrite <- (assoc_L (++)).
    + by rewrite <- (assoc_L (++)).
    + intros g Hg. apply Hbody. by right.
    + lia.
  - simpl. apply (IH (vis ++ [p]) w fl fuel).
    + by rewrite <- (assoc_L (++)).
    + done.
    + lia.
Qed.

Lemma trigger_passive w al fl fuel :
  repr (ev w) al fl →
  (∀ f, f ∈ callbacks (heap (ev w)) al → body f = []) →
  length al ≤ fuel →
  trigger body fuel w
  = Ok (mkWorld (ev w) (handles w) (log w ++ callbacks (heap (ev w)) al)).
Proof.
  intros Hr Hbody Hfuel. unfold trigger.
  rewrite (shape_head _ _ _ (repr_shape _ _ _ Hr)).
  by apply (walk_passive al [] w fl fuel).
Qed.

(** A run of [connect]s puts the new records in front of the
    connection list, the last one connected first, taking them from
    the free list as long as it has any. *)
Lemma run_connects fuel cs : ∀ w al fl,
  inv w al fl →
  ∃ w' al',
    run body fuel (connects cs) w = Ok w'
    ∧ inv w' (al' ++ al) (drop (length cs) fl)
    ∧ log w' = log w
    ∧ length al' = length cs
    ∧ length (heap (ev w'))
      = length (heap (ev w)) + (length cs - length fl)
    ∧ callbacks (heap (ev w')) (al' ++ al)
      = reverse cs.*2 ++ callbacks (heap (ev w)) al.
Proof.
  induction cs as [|[dst f] cs IH]; intros w al fl Hinv.
  { exists w, []. simpl. rewrite drop_0, Nat.add_0_r. done. }
  destruct (exec_connect_spec fuel (trigger body fuel) w al fl dst f Hinv)
    as (d1 & Hrun1 & Hinv1 & Hlen1 & (c1 & Hc1 & _ & _ & Hf1) & Hfr1).
  set (p := hd (length (heap (ev w))) fl) in *.
  set (w1 := mkWorld d1 _ _) in *.
  destruct (IH w1 (p :: al) (tail fl) Hinv1)
    as (w' & al' & Hrun' & Hinv' & Hlog' & Hlal' & Hlen' & Hcb').
  exists w', (al' ++ [p]). unfold connects in *. rewrite fmap_cons, run_cons.
  simpl fst. simpl snd. rewrite Hrun1, bind_Ok_l. fold w1.
  split; [exact Hrun'|]. rewrite <- (assoc_L (++)). simpl.
  split.
  { destruct fl; simpl in *; [by rewrite drop_nil in Hinv'|done]. }
  split; [done|].
  split; [rewrite length_app; simpl; lia|].
  split.
  { rewrite Hlen'. simpl. rewrite Hlen1. destruct fl; simpl; lia. }
  rewrite Hcb'. rewrite reverse_cons, <- (assoc_L (++)). f_equal.
  rewrite callbacks_cons. simpl. rewrite Hc1. simpl. rewrite Hf1. f_equal.
  assert (Hpal : p ∉ al).
  { pose proof (shape_NoDup _ _ _ (repr_shape _ _ _ (inv_repr _ _ _ Hinv1))) as Hnd.
    simpl in Hnd. apply NoDup_cons in Hnd as [Hnin _].
    intros ?. apply Hnin. rewrite elem_of_app. auto. }
  apply callbacks_ext.
  - intros x c Hx Hc. destruct (Hfr1 x c) as (c' & ? & (_ & _ & ?)); [|done|eauto].
    by intros ->.
  - intros x Hx. eapply repr_lookup; [apply Hinv|]. rewrite elem_of_app. auto.
Qed.

End Walk.

(** ** Callbacks that leave the rest of the walk alone *)

Lemma app_eq_middle (vis rest l1 l2 : list nat) q :
  vis ++ rest = l1 ++ q :: l2 → q ∉ rest →
  ∃ v2, l2 = v2 ++ rest ∧ vis = l1 ++ q :: v2.
Proof.
  revert vis. induction l1 as [|y l1 IH]; intros [|x vis] Heq Hq; simplify_eq/=.
  - exfalso. apply Hq. left.
  - eauto.
  - exfalso. apply Hq. apply elem_of_cons. right. apply elem_of_middle.
  - destruct (IH vis) as (v2 & -> & ->); [done..|]. eauto.
Qed.

Lemma handle_at_insert s s' h w d l :
  handle_at s' (mkWorld d (<[s := h]> (handles w)) l)
  = if decide (s = s') then h else handle_at s' w.
Proof.
  unfold handle_at. simpl. rewrite lookup_insert. by case_decide.
Qed.

Lemma handle_at_delete s s' w d l :
  handle_at s' (mkWorld d (delete s (handles w)) l)
  = if decide (s = s') then HEvent_null else handle_at s' w.
Proof.
  unfold handle_at. simpl. rewrite lookup_delete. by case_decide.
Qed.

Lemma elem_of_drop_inv {A} (l : list A) n x : x ∈ drop n l → x ∈ l.
Proof.
  intros [i Hi]%list_elem_of_lookup. rewrite lookup_drop in Hi.
  by eapply list_elem_of_lookup_2.
Qed.

Lemma kept_refl rest w : kept rest w w.
Proof. by intros s q ? ?. Qed.

Lemma kept_trans rest w1 w2 w3 :
  kept rest w1 w2 → kept rest w2 w3 → kept rest w1 w3.
Proof. intros H12 H23 s q Hs Hq. apply H12; [|done]. by apply H23. Qed.

Lemma behind_kept w w' rest cm :
  kept rest w w' → behind w rest cm → behind w' rest cm.
Proof.
  intros Hk. destruct cm as [| s | s | | |]; simpl; try done.
  - intros Hb q Hq Hin. apply (Hb q); [|done]. by apply Hk.
  - intros Hb q Hq Hin. apply (Hb q); [|done]. by apply Hk.
Qed.

(** One statement that leaves [rest] alone. *)
Lemma exec_behind fuel trig rest cm w vis fl :
  inv w (vis ++ rest) fl → behind w rest cm →
  ∃ w0 vis0 fl0,
    exec_cmd fuel trig cm w = Ok w0
    ∧ inv w0 (vis0 ++ rest) fl0
    ∧ log w0 = log w
    ∧ (∀ x c, x ∈ rest → heap (ev w) !! x = Some c →
         ∃ c', heap (ev w0) !! x = Some c' ∧ data_eq c c')
    ∧ kept rest w w0.
Proof.
  intros Hinv Hb. destruct cm as [dst f| s | s | | |]; simpl in Hb; try done.
  - (* connect *)
    destruct (exec_connect_spec fuel trig w _ fl dst f Hinv)
      as (d' & Hrun & Hinv' & _ & _ & Hfr).
    set (p := hd (length (heap (ev w))) fl) in *.
    assert (Hp : p ∉ rest).
    { pose proof (shape_NoDup _ _ _ (repr_shape _ _ _ (inv_repr _ _ _ Hinv'))) as Hnd.
      simpl in Hnd. apply NoDup_cons in Hnd as [Hnin _].
      intros ?. apply Hnin. rewrite !elem_of_app. auto. }
    eexists _, (p :: vis), _. split; [exact Hrun|]. split; [exact Hinv'|].
    split; [done|]. split.
    + intros x c Hx Hc. apply Hfr; [|done]. by intros ->.
    + intros s q Hs Hq. destruct dst as [s0|]; [|done].
      rewrite handle_at_insert in Hs. case_decide; [|done].
      simpl in Hs. by simplify_eq.
  - (* disconnect *)
    destruct (mConnection (handle_at s w)) as [q|] eqn:Hq.
    + destruct (exec_disconnect_Some fuel trig w _ fl s q Hinv Hq)
        as (l1 & l2 & c & d' & Heq & Hc & _ & Hrun & Hupd & Hinv').
      destruct (app_eq_middle _ _ _ _ _ Heq (Hb q eq_refl)) as (v2 & -> & ->).
      eexists _, (if decide (handleLinks c = 1%Z) then l1 ++ v2 else l1 ++ q :: v2),
        (if decide (handleLinks c = 1%Z) then q :: fl else fl).
      split; [exact Hrun|]. split.
      { case_decide.
        - rewrite <- (assoc_L (++)). exact Hinv'.
        - exact Hinv'. }
      split; [done|]. split.
      * intros x cx Hx Hcx. simpl.
        destruct (proj2 Hupd x cx Hcx) as (cx' & Hcx' & E).
        rewrite decide_False in E; [eauto|].
        intros ->. by apply (Hb q).
      * intros s' q' Hs' _. rewrite handle_at_insert in Hs'.
        by destruct (decide (s = s')).
    + destruct (exec_disconnect_None fuel trig w _ fl s Hinv Hq) as [Hrun Hinv'].
      eexists _, vis, fl. split; [exact Hrun|]. split; [done|].
      split; [done|]. split.
      * intros x cx _ Hcx. simpl. eauto using data_eq_refl.
      * intros s' q' Hs' _. rewrite handle_at_insert in Hs'.
        by destruct (decide (s = s')); subst.
  - (* handle destruction *)
    destruct (mConnection (handle_at s w)) as [q|] eqn:Hq.
    + destruct (exec_destroy_Some fuel trig w _ fl s q Hinv Hq)
        as (l1 & l2 & c & d' & Heq & Hc & _ & Hrun & Hupd & Hinv').
      destruct (app_eq_middle _ _ _ _ _ Heq (Hb q eq_refl)) as (v2 & -> & ->).
      eexists _,
        (if decide (handleLinks c = 1%Z ∧ isActive c = false)
         then l1 ++ v2 else l1 ++ q :: v2),
        (if decide (handleLinks c = 1%Z ∧ isActive c = false) then q :: fl else fl).
      split; [exact Hrun|]. split.
      { case_decide.
        - rewrite <- (assoc_L (++)). exact Hinv'.
        - exact Hinv'. }
      split; [done|]. split.
      * intros x cx Hx Hcx. simpl.
        destruct (proj2 Hupd x cx Hcx) as (cx' & Hcx' & E).
        rewrite decide_False in E; [eauto|].
        intros ->. by apply (Hb q).
      * intros s' q' Hs' _. rewrite handle_at_delete in Hs'.
        by destruct (decide (s = s')).
    + destruct (exec_destroy_None fuel trig w _ fl s Hinv Hq) as [Hrun Hinv'].
      eexists _, vis, fl. split; [exact Hrun|]. split; [done|].
      split; [done|]. split.
      * intros x cx _ Hcx. simpl. eauto using data_eq_refl.
      * intros s' q' Hs' _. rewrite handle_at_delete in Hs'.
        by destruct (decide (s = s')); subst.
Qed.

Lemma run_behind fuel trig rest cs : ∀ w vis fl,
  inv w (vis ++ rest) fl →
  (∀ cm, cm ∈ cs → behind w rest cm) →
  ∃ w1 vis1 fl1,
    run_cmds (exec_cmd fuel trig) cs w = Ok w1
    ∧ inv w1 (vis1 ++ rest) fl1
    ∧ log w1 = log w
    ∧ (∀ x c, x ∈ rest → heap (ev w) !! x = Some c →
         ∃ c', heap (ev w1) !! x = Some c' ∧ data_eq c c')
    ∧ kept rest w w1.
Proof.
  induction cs as [|cm cs IH]; intros w vis fl Hinv Hcs.
  { exists w, vis, fl. split_and!; eauto using data_eq_refl, kept_refl. }
  destruct (exec_behind fuel trig rest cm w vis fl Hinv)
    as (w0 & vis0 & fl0 & Hrun0 & Hinv0 & Hlog0 & Hdata0 & Hk0); [apply Hcs; left|].
  destruct (IH w0 vis0 fl0 Hinv0) as (w1 & vis1 & fl1 & Hrun1 & Hinv1 & Hlog1 & Hdata1 & Hk1).
  { intros cm' Hcm'. eapply behind_kept; [done|]. apply Hcs. by right. }
  exists w1, vis1, fl1. rewrite run_cmds_cons, Hrun0, bind_Ok_l.
  split; [done|]. split; [done|]. split; [congruence|]. split.
  - intros x c Hx Hc. destruct (Hdata0 x c Hx Hc) as (c0 & Hc0 & E0).
    destruct (Hdata1 x c0 Hx Hc0) as (c1 & Hc1 & E1).
    exists c1. split; [done|]. by eapply data_eq_trans.
  - by eapply kept_trans.
Qed.

Section Behind.

Variable body : nat → list cmd.

Lemma stays_behind_tail w p rest :
  stays_behind body w (p :: rest) → stays_behind body w rest.
Proof.
  intros H i q c f Hi Hc Hf cm Hcm.
  apply (H (S i) q c f Hi Hc Hf cm Hcm).
Qed.

Lemma stays_behind_step w w1 rest :
  stays_behind body w rest →
  (∀ x c, x ∈ rest → heap (ev w) !! x = Some c →
     ∃ c', heap (ev w1) !! x = Some c' ∧ data_eq c c') →
  (∀ x, x ∈ rest → is_Some (heap (ev w) !! x)) →
  kept rest w w1 →
  stays_behind body w1 rest.
Proof.
  intros H Hdata Hdom Hk i p c1 f Hi Hc1 Hf cm Hcm.
  assert (Hp : p ∈ rest) by (by eapply list_elem_of_lookup_2).
  destruct (Hdom p Hp) as [c Hc].
  destruct (Hdata p c Hp Hc) as (c' & Hc' & (_ & _ & Hf')).
  assert (func c = Some f) as Hfc by congruence.
  eapply behind_kept; [|by apply (H i p c f Hi Hc Hfc cm Hcm)].
  intros s q Hs Hq. apply Hk; [done|]. by eapply elem_of_drop_inv.
Qed.

Lemma walk_behind rest : ∀ vis w fl fuel,
  inv w (vis ++ rest) fl →
  stays_behind body w rest →
  length rest ≤ fuel →
  ∃ w' al' fl',
    walk body fuel (head rest) w = Ok w'
    ∧ inv w' al' fl'
    ∧ log w' = log w ++ callbacks (heap (ev w)) rest.
Proof.
  induction rest as [|p rest IH]; intros vis w fl fuel Hinv Hbody Hfuel.
  { exists w, (vis ++ []), fl. split; [by destruct fuel|].
    split; [done|]. simpl. by rewrite app_nil_r. }
  destruct fuel as [|fuel]; simpl in Hfuel; [lia|].
  pose proof (inv_repr _ _ _ Hinv) as Hr.
  destruct (repr_lookup _ _ _ p Hr) as [c Hc].
  { rewrite elem_of_app. left. apply elem_of_middle. }
  assert (Hnext : next c = head rest).
  { destruct Hr as [[_ _ Hal _ _] _ _]. apply dlseg_app in Hal as [_ Hal].
    destruct Hal as [(c' & ? & _ & Hn) _]. simplify_eq. by rewrite Hn, hd_or_None. }
  assert (Hdom : ∀ x, x ∈ rest → is_Some (heap (ev w) !! x)).
  { intros x Hx. eapply repr_lookup; [done|].
    rewrite !elem_of_app, elem_of_cons. auto. }
  assert (Hinv0 : inv w ((vis ++ [p]) ++ rest) fl)
    by (by rewrite <- (assoc_L (++))).
  rewrite callbacks_cons, Hc.
  simpl. rewrite (deref_Ok _ _ c) by done. simpl. rewrite Hnext.
  destruct (func c) as [f|] eqn:Hf; simpl.
  - set (trig := λ w', walk body fuel (mConnections (ev w')) w').
    destruct (run_behind fuel trig rest (body f)
                (log_call f w) (vis ++ [p]) fl)
      as (w1 & vis1 & fl1 & Hrun1 & Hinv1 & Hlog1 & Hdata1 & Hk1).
    { by apply inv_log. }
    { intros cm Hcm. apply (Hbody 0 p c f eq_refl Hc Hf cm Hcm). }
    rewrite Hrun1. simpl.
    destruct (IH vis1 w1 fl1 fuel Hinv1) as (w' & al' & fl' & Hrun' & Hinv' & Hlog');
      [|lia|].
    { eapply (stays_behind_step (log_call f w)); [|done|done|done].
      eapply stays_behind_tail. exact Hbody. }
    exists w', al', fl'. split; [done|]. split; [done|].
    rewrite Hlog', Hlog1. simpl. rewrite <- (assoc_L (++)). simpl.
    do 2 f_equal. apply callbacks_ext; [|done].
    intros x cx Hx Hcx. destruct (Hdata1 x cx Hx Hcx) as (cx' & ? & (_ & _ & ?)).
    eauto.
  - destruct (IH (vis ++ [p]) w fl fuel Hinv0) as (w' & al' & fl' & Hrun' & Hinv' & Hlog');
      [|lia|].
    { eapply stays_behind_tail. exact Hbody. }
    exists w', al', fl'. done.
Qed.

End Behind.

(** ** Disconnecting everything and connecting again *)

Lemma handle_at_insert_ne s s' h w d l :
  s ≠ s' → handle_at s' (mkWorld d (<[s := h]> (handles w)) l) = handle_at s' w.
Proof. intros. rewrite handle_at_insert. by rewrite decide_False. Qed.

Section Reuse.

Variable body : nat → list cmd.

Lemma run_connects_kept fuel cs : ∀ w al fl,
  NoDup cs.*1 → inv w al fl →
  ∃ w' al',
    run body fuel (connects_kept cs) w = Ok w'
    ∧ inv w' (al' ++ al) (drop (length cs) fl)
    ∧ log w' = log w
    ∧ length al' = length cs
    ∧ length (heap (ev w'))
      = length (heap (ev w)) + (length cs - length fl)
    ∧ (∀ s, s ∈ cs.*1 → is_Some (mConnection (handle_at s w')))
    ∧ (∀ s, s ∉ cs.*1 → handle_at s w' = handle_at s w)
    ∧ (∀ p, p ∈ al' → links_of p (ev w') = 1%Z)
    ∧ (∀ p, p ∈ al → links_of p (ev w') = links_of p (ev w)).
Proof.
  induction cs as [|[s f] cs IH]; intros w al fl Hnd Hinv.
  { exists w, []. simpl. rewrite drop_0, Nat.add_0_r.
    split_and!; try done.
    - by intros s ?%elem_of_nil.
    - by intros p ?%elem_of_nil. }
  rewrite fmap_cons in Hnd. simpl in Hnd. apply NoDup_cons in Hnd as [Hs Hnd].
  destruct (exec_connect_spec fuel (trigger body fuel) w al fl (Some s) f Hinv)
    as (d1 & Hrun1 & Hinv1 & Hlen1 & (c1 & Hc1 & _ & Hl1 & _) & Hfr1).
  set (p := hd (length (heap (ev w))) fl) in *.
  set (w1 := mkWorld d1 _ _) in *.
  destruct (IH w1 (p :: al) (tail fl) Hnd Hinv1)
    as (w' & al' & Hrun' & Hinv' & Hlog' & Hlal' & Hlen' & Hh' & Hk' & Hl' & Ho').
  exists w', (al' ++ [p]). unfold connects_kept, connects in *.
  rewrite !fmap_cons, run_cons. simpl fst. simpl snd.
  rewrite Hrun1, bind_Ok_l. fold w1.
  split; [exact Hrun'|]. rewrite <- (assoc_L (++)). simpl.
  split.
  { destruct fl; simpl in *; [by rewrite drop_nil in Hinv'|done]. }
  split; [done|].
  split; [rewrite length_app; simpl; lia|].
  split.
  { rewrite Hlen'. simpl. rewrite Hlen1. destruct fl; simpl; lia. }
  assert (Hpal : p ∉ al).
  { pose proof (shape_NoDup _ _ _ (repr_shape _ _ _ (inv_repr _ _ _ Hinv1))) as Hnd1.
    simpl in Hnd1. apply NoDup_cons in Hnd1 as [Hnin _].
    intros ?. apply Hnin. rewrite elem_of_app. auto. }
  split_and!.
  - intros s' [->|Hs']%elem_of_cons; [|by apply Hh'].
    rewrite (Hk' s) by done. unfold w1. rewrite handle_at_insert.
    rewrite decide_True by done. simpl. eauto.
  - intros s' Hs'. apply not_elem_of_cons in Hs' as [Hne Hs'].
    rewrite (Hk' s') by done. unfold w1. by rewrite handle_at_insert_ne.
  - intros x [Hx|Hx]%elem_of_app; [by apply Hl'|].
    apply list_elem_of_singleton in Hx as ->.
    rewrite Ho' by left. unfold w1. simpl.
    by rewrite (links_of_lookup _ _ _ Hc1).
  - intros x Hx. rewrite Ho' by (by right). unfold w1. simpl.
    apply (links_of_frame (ev w) d1 p x); [done| |by intros ->].
    intros y Hy Hyp. rewrite Hlen1. destruct fl; [|done]. simpl in p. lia.
Qed.

Lemma run_disconnect_all fuel order : ∀ w al fl,
  NoDup order → inv w al fl →
  (∀ p, p ∈ al → links_of p (ev w) = 1%Z) →
  (∀ s, s ∈ order → is_Some (mConnection (handle_at s w))) →
  ∃ w' al' fl',
    run body fuel (CDisconnect <$> order) w = Ok w'
    ∧ inv w' al' fl'
    ∧ log w' = log w
    ∧ length al' + length order = length al
    ∧ length fl' = length fl + length order
    ∧ length (heap (ev w')) = length (heap (ev w))
    ∧ (∀ p, p ∈ al' → links_of p (ev w') = 1%Z).
Proof.
  induction order as [|s order IH]; intros w al fl Hnd Hinv Hone Hh.
  { exists w, al, fl. simpl. split_and!; try done; lia. }
  apply NoDup_cons in Hnd as [Hs Hnd].
  destruct (Hh s) as [q Hq]; [left|].
  destruct (exec_disconnect_Some fuel (trigger body fuel) w al fl s q Hinv Hq)
    as (l1 & l2 & c & d' & -> & Hc & _ & Hrun & Hupd & Hinv').
  assert (Hlc : handleLinks c = 1%Z).
  { rewrite <- (links_of_lookup _ _ _ Hc). apply Hone. apply elem_of_middle. }
  rewrite decide_True in Hinv' by done.
  set (w0 := mkWorld d' _ _) in *.
  destruct (shape_middle_fresh _ _ _ _ _ (repr_shape _ _ _ (inv_repr _ _ _ Hinv)))
    as [Hq12 _].
  destruct (IH w0 (l1 ++ l2) (q :: fl) Hnd Hinv')
    as (w' & al' & fl' & Hrun' & Hinv'' & Hlog' & Hlal' & Hlfl' & Hlen' & Hone').
  { intros x Hx. unfold w0. simpl.
    rewrite (links_of_data_upd _ _ _ _ x Hupd).
    rewrite decide_False by (by intros ->).
    apply Hone. by apply elem_of_middle_drop. }
  { intros s' Hs'. unfold w0. rewrite handle_at_insert_ne; [|by intros ->].
    apply Hh. by right. }
  exists w', al', fl'. rewrite fmap_cons, run_cons, Hrun, bind_Ok_l. fold w0.
  split; [done|]. split; [done|]. split; [done|].
  rewrite !length_app in *. simpl in *.
  split; [lia|]. split; [lia|]. split; [|done].
  rewrite Hlen'. by destruct Hupd.
Qed.

End Reuse.

(** ** The example states *)

Lemma inv_world_one : inv world_one [0] [].
Proof.
  destruct (exec_connect_spec 0 Ok world_new [] [] (Some 0) 7 inv_world_new)
    as (d' & Hrun & Hinv & _).
  vm_compute in Hrun. injection Hrun as <-. exact Hinv.
Qed.

Lemma inv_world_two : inv world_two [1; 0] [].
Proof.
  destruct (exec_connect_spec 0 Ok world_new [] [] (Some 0) 10 inv_world_new)
    as (d1 & Hrun1 & Hinv1 & _).
  vm_compute in Hrun1. injection Hrun1 as <-.
  destruct (exec_connect_spec 0 Ok _ _ _ (Some 1) 20 Hinv1)
    as (d2 & Hrun2 & Hinv2 & _).
  vm_compute in Hrun2. injection Hrun2 as <-. exact Hinv2.
Qed.

Lemma inv_world_shared : inv world_shared [0] [].
Proof.
  destruct inv_world_one as [Hr Hrefs Hd].
  destruct (inc_links_spec (ev world_one) [0] [] 0
              (mkConn None None true 1%Z (Some 7)) Hr) as (d' & Hrun & Hupd & Hr');
    [left|done|by left|].
  vm_compute in Hrun. injection Hrun as <-.
  split; [exact Hr'|..].
  - intros q. unfold world_shared. simpl.
    pose proof (refs_insert q 1 (mkHEvent (Some 0) true) (handles world_one)) as Hins.
    change (handles world_one) with ({[0 := mkHEvent (Some 0) true]} : gmap nat HEvent) in Hins.
    rewrite lookup_singleton_ne in Hins by done.
    unfold points in Hins. simpl in Hins. specialize (Hrefs q).
    change (handles world_one) with ({[0 := mkHEvent (Some 0) true]} : gmap nat HEvent) in Hrefs.
    destruct (decide (q = 0)) as [->|Hq].
    + rewrite decide_True in Hins by done. vm_compute in Hrefs |- *.
      intros ?. discriminate.
    + rewrite decide_False in Hins by congruence.
      unfold links_of in *. simpl in *.
      destruct q as [|q]; [done|]. simpl in *. lia.
  - intros s h. unfold world_shared. simpl.
    rewrite lookup_insert_Some, lookup_singleton_Some.
    intros [[_ <-]|[_ [_ <-]]]; done.
Qed.

Lemma elem_of_callbacks h l p c f :
  p ∈ l → h !! p = Some c → func c = Some f → f ∈ callbacks h l.
Proof.
  intros Hp Hc Hf. apply list_elem_of_omap. exists p. split; [done|].
  by rewrite Hc.
Qed.

Lemma filter_nil_iff {A} (P : A → Prop) `{!∀ x, Decision (P x)} (l : list A) :
  filter P l = [] ↔ ∀ x, x ∈ l → ¬ P x.
Proof.
  split.
  - intros Hnil x Hx HP. by eapply filter_nil_not_elem_of.
  - intros Hall. induction l as [|x l IH]; [done|].
    rewrite filter_cons_False by (apply Hall; left).
    apply IH. intros y Hy. apply Hall. by right.
Qed.

Lemma TEvent_empty_head d al fl :
  shape d al fl → TEvent_empty d = true ↔ al = [].
Proof.
  intros Hs. unfold TEvent_empty. rewrite (shape_head _ _ _ Hs).
  by destruct al.
Qed.

(** ** Destruction of the event *)

Lemma dlseg_sll h l : ∀ prv, dlseg h prv l None → sll h l.
Proof.
  induction l as [|p l IH]; intros prv Hd; [done|].
  destruct Hd as [(c & Hc & _ & Hn) Hd]. split; [|by eapply IH].
  exists c. split; [done|]. rewrite Hn. by destruct l.
Qed.

Lemma free_loop_spec d l : ∀ released fuel,
  sll (heap d) l → NoDup l → (∀ p, p ∈ l → p ∉ released) →
  match free_loop fuel (head l) d released with
  | Ok r => length l ≤ fuel ∧ r = released ++ l
  | Fault => False
  | OutOfFuel => fuel < length l
  end.
Proof.
  induction l as [|p l IH]; intros released fuel Hs Hnd Hfresh.
  - destruct fuel; simpl; (split; [lia|by rewrite app_nil_r]).
  - destruct fuel as [|fuel]; simpl; [lia|].
    destruct Hs as [(c & Hc & Hn) Hs].
    apply NoDup_cons in Hnd as [Hp Hnd].
    rewrite decide_False by (apply Hfresh; left).
    unfold deref. rewrite Hc. simpl. rewrite Hn.
    specialize (IH (released ++ [p]) fuel Hs Hnd).
    destruct (free_loop fuel (head l) d (released ++ [p])) as [r| |].
    + destruct IH as [Hlen ->].
      { intros q Hq. rewrite elem_of_app, list_elem_of_singleton.
        intros [Hr| ->]; [|done]. eapply Hfresh; [right; exact Hq|done]. }
      split; [lia|]. by rewrite <- app_assoc.
    + apply IH. intros q Hq. rewrite elem_of_app, list_elem_of_singleton.
      intros [Hr| ->]; [|done]. eapply Hfresh; [right; exact Hq|done].
    + assert (fuel < length l); [|lia].
      apply IH. intros q Hq. rewrite elem_of_app, list_elem_of_singleton.
      intros [Hr| ->]; [|done]. eapply Hfresh; [right; exact Hq|done].
Qed.

Lemma dtor_spec d al fl fuel :
  shape d al fl →
  match EventInternalData_dtor fuel d with
  | Ok r => length al ≤ fuel ∧ length fl ≤ fuel ∧ r = al ++ fl
  | Fault => False
  | OutOfFuel => fuel < length al ∨ fuel < length fl
  end.
Proof.
  intros Hs. destruct (shape_split_NoDup _ _ _ Hs) as (Hna & Hnf & Hdisj).
  unfold EventInternalData_dtor.
  rewrite (shape_head _ _ _ Hs), (shape_free_head _ _ _ Hs).
  pose proof (free_loop_spec d al [] fuel
                (dlseg_sll _ _ _ (shape_active _ _ _ Hs)) Hna) as H1.
  destruct (free_loop fuel (head al) d []) as [r| |]; simpl.
  - destruct H1 as [Hlen ->]; [intros p _; apply not_elem_of_nil|].
    pose proof (free_loop_spec d fl al fuel (shape_free _ _ _ Hs) Hnf) as H2.
    simpl. destruct (free_loop fuel (head fl) d al) as [r| |].
    + destruct H2 as [Hlen2 ->]; [intros p Hp Hal; by apply (Hdisj p)|]. done.
    + apply H2. intros p Hp Hal; by apply (Hdisj p).
    + right. apply H2. intros p Hp Hal; by apply (Hdisj p).
  - apply H1. intros p _; apply not_elem_of_nil.
  - left. apply H1. intros p _; apply not_elem_of_nil.
Qed.

Lemma shape_lengths d al fl :
  shape d al fl → length al + length fl = length (heap d).
Proof.
  intros Hs. rewrite <- length_app, (shape_alloc _ _ _ Hs). by rewrite length_seq.
Qed.

(** ** After [clear] *)

Lemma world_eta w : mkWorld (ev w) (handles w) (log w) = w.
Proof. by destruct w. Qed.

Lemma handle_at_handles s w w' : handles w' = handles w → handle_at s w' = handle_at s w.
Proof. intros H. unfold handle_at. by rewrite H. Qed.

Lemma deactivate_idle c :
  isActive c = false → func c = None → deactivate c = c.
Proof. destruct c; simpl; intros -> ->; reflexivity. Qed.

Lemma clear_loop_idle d l : ∀ fuel,
  sll (heap d) l →
  (∀ p c, p ∈ l → heap d !! p = Some c →
     isActive c = false ∧ func c = None ∧ handleLinks c ≠ 0%Z) →
  length l ≤ fuel →
  clear_loop fuel (head l) d = Ok d.
Proof.
  induction l as [|p l IH]; intros fuel Hs Hidle Hfuel.
  - by destruct fuel.
  - destruct fuel as [|fuel]; simpl in Hfuel; [lia|].
    destruct Hs as [(c & Hc & Hn) Hs].
    destruct (Hidle p c) as (Ha & Hf & Hl); [left|done|].
    simpl. unfold deref, store. rewrite Hc. simpl.
    rewrite (deactivate_idle c Ha Hf), list_insert_id by done.
    assert (Hd : set_heap (heap d) d = d) by (by destruct d).
    rewrite Hd, Hc. simpl. rewrite bool_decide_eq_false_2 by done.
    simpl. rewrite Hn. apply IH; [done| |lia].
    intros q c' Hq. apply Hidle. by right.
Qed.

Lemma callbacks_nil h l :
  (∀ p c, p ∈ l → h !! p = Some c → func c = None) → callbacks h l = [].
Proof.
  induction l as [|p l IH]; intros Hnone; [done|].
  rewrite callbacks_cons.
  destruct (h !! p) as [c|] eqn:Hc; simpl.
  - rewrite (Hnone p c) by (done || left). apply IH.
    intros q c' Hq. apply Hnone. by right.
  - apply IH. intros q c' Hq. apply Hnone. by right.
Qed.

(** What [exec_clear_spec] says of a record of the connection list. *)
Lemma cleared_record w w' (al : list nat) p c' :
  (∀ q c, heap (ev w) !! q = Some c →
     ∃ c', heap (ev w') !! q = Some c'
           ∧ data_eq (if decide (q ∈ al) then deactivate c else c) c') →
  length (heap (ev w')) = length (heap (ev w)) →
  p ∈ al → heap (ev w') !! p = Some c' →
  isActive c' = false ∧ func c' = None ∧ handleLinks c' = links_of p (ev w).
Proof.
  intros Hdata Hlen Hp Hc'.
  destruct (lookup_lt_is_Some_2 (heap (ev w)) p) as [c Hc].
  { rewrite <- Hlen. by eapply lookup_lt_Some. }
  destruct (Hdata p c Hc) as (c2 & Hc2 & Ha & Hl & Hf).
  assert (c2 = c') as -> by congruence.
  rewrite decide_True in Ha, Hl, Hf by done.
  rewrite (links_of_lookup _ _ _ Hc). done.
Qed.

(** ** Callbacks across a disconnect *)

Lemma callbacks_app h l1 l2 :
  callbacks h (l1 ++ l2) = callbacks h l1 ++ callbacks h l2.
Proof. unfold callbacks. apply omap_app. Qed.

Lemma callbacks_data h h' l :
  (∀ q c, q ∈ l → h !! q = Some c → ∃ c', h' !! q = Some c' ∧ data_eq c c') →
  (∀ q, q ∈ l → is_Some (h !! q)) →
  callbacks h' l = callbacks h l.
Proof.
  intros Hd Hl. apply callbacks_ext; [|done].
  intros q c Hq Hc. destruct (Hd q c Hq Hc) as (c' & Hc' & _ & _ & Hf).
  by exists c'.
Qed.

Lemma NoDup_middle_head (p : nat) al l1 l2 :
  NoDup (p :: al) → p :: al = l1 ++ p :: l2 → l1 = [] ∧ l2 = al.
Proof.
  intros Hnd Heq. destruct l1 as [|x l1]; simplify_eq/=; [done|].
  apply NoDup_cons in Hnd as [Hp _]. destruct Hp.
  rewrite elem_of_app. right; left.
Qed.

Lemma inv_world_recycled : inv world_recycled [] [0].
Proof.
  destruct (exec_disconnect_Some 0 Ok world_one [0] [] 0 0 inv_world_one eq_refl)
    as (l1 & l2 & c & d' & Hal & Hc & _ & Hrun & _ & Hres).
  assert (Hnd : NoDup [0]) by (apply NoDup_singleton).
  destruct (NoDup_middle_head 0 [] l1 l2 Hnd Hal) as [-> ->].
  vm_compute in Hc. injection Hc as <-.
  vm_compute in Hrun. injection Hrun as <-.
  rewrite decide_True in Hres by done. exact Hres.
Qed.

(** ** Subscriptions without a handle *)

Lemma active_in_list d al fl q c :
  repr d al fl → heap d !! q = Some c → isActive c = true → q ∈ al ∧ q ∉ fl.
Proof.
  intros Hr Hc Ha.
  assert (Hin : q ∈ al ++ fl).
  { eapply shape_elem_of; [apply Hr|]. by eapply lookup_lt_Some. }
  assert (Hfl : q ∉ fl).
  { intros Hfl. destruct (repr_dead _ _ _ Hr q c Hfl Hc) as (? & _). congruence. }
  apply elem_of_app in Hin as [?|?]; done.
Qed.

Lemma counted_in_list d al fl q :
  repr d al fl → links_of q d ≠ 0%Z → q ∈ al ∧ q ∉ fl.
Proof.
  intros Hr Hl.
  destruct (decide (q < length (heap d))) as [Hq|Hq].
  - assert (Hin : q ∈ al ++ fl) by (eapply shape_elem_of; [apply Hr|done]).
    assert (Hfl : q ∉ fl).
    { intros Hfl. by rewrite (links_of_free _ _ _ _ Hr Hfl) in Hl. }
    apply elem_of_app in Hin as [?|?]; done.
  - rewrite links_of_unallocated in Hl by lia. done.
Qed.

Lemma orphan_data q f w d hs l :
  orphan q f w →
  (∀ c, heap (ev w) !! q = Some c → ∃ c', heap d !! q = Some c' ∧ data_eq c c') →
  (∀ s, mConnection (handle_at s (mkWorld d hs l)) ≠ Some q) →
  orphan q f (mkWorld d hs l).
Proof.
  intros [_ (c & Hc & Ha & Hf)] Hd Hh. split; [done|].
  destruct (Hd c Hc) as (c' & Hc' & Ha' & _ & Hf').
  exists c'. simpl. split; [done|]. split; congruence.
Qed.

Lemma exec_keeps_orphan fuel trig c w al fl q f :
  inv w al fl → orphan q f w →
  negb (is_assign c) && negb (is_clear c) = true →
  (∀ w' al' fl', inv w' al' fl' → orphan q f w' → keeps (orphan q f) (trig w')) →
  keeps (orphan q f) (exec_cmd fuel trig c w).
Proof.
  intros Hinv Ho Hc Htrig.
  destruct c as [dst g|s|s|dst src| |]; try done.
  - destruct (exec_connect_spec fuel trig w al fl dst g Hinv)
      as (d' & -> & Hinv' & _ & _ & Hframe).
    destruct Ho as [Hno (c & Hc0 & Ha & Hf)].
    destruct (active_in_list _ _ _ q c (inv_repr _ _ _ Hinv) Hc0 Ha) as [Hal Hfl].
    assert (Hq : q ≠ hd (length (heap (ev w))) fl).
    { destruct fl as [|x fl]; simpl.
      - apply lookup_lt_Some in Hc0. lia.
      - intros ->. apply Hfl. left. }
    apply (orphan_data q f w).
    + split; [done|]. by exists c.
    + intros c0 Hc1. by apply Hframe.
    + intros s. destruct dst as [t|]; [|apply Hno].
      rewrite handle_at_insert. case_decide; [|apply Hno].
      simpl. congruence.
  - destruct (mConnection (handle_at s w)) as [p|] eqn:Hp.
    + destruct (exec_disconnect_Some fuel trig w al fl s p Hinv Hp)
        as (l1 & l2 & c & d' & _ & _ & _ & -> & Hupd & _).
      assert (Hq : q ≠ p) by (intros ->; by apply (proj1 Ho s)).
      apply (orphan_data q f w); [done|..].
      * intros c0 Hc0. destruct (proj2 Hupd q c0 Hc0) as (c' & Hc' & Hde).
        rewrite decide_False in Hde by done. by exists c'.
      * intros t. rewrite handle_at_insert. case_decide; [done|apply Ho].
    + destruct (exec_disconnect_None fuel trig w al fl s Hinv Hp) as [-> _].
      apply (orphan_data q f w); [done|..].
      * intros c0 Hc0. exists c0. by split.
      * intros t. rewrite handle_at_insert. case_decide; [|apply Ho].
        rewrite Hp. done.
  - destruct (mConnection (handle_at s w)) as [p|] eqn:Hp.
    + destruct (exec_destroy_Some fuel trig w al fl s p Hinv Hp)
        as (l1 & l2 & c & d' & _ & _ & _ & -> & Hupd & _).
      assert (Hq : q ≠ p) by (intros ->; by apply (proj1 Ho s)).
      apply (orphan_data q f w); [done|..].
      * intros c0 Hc0. destruct (proj2 Hupd q c0 Hc0) as (c' & Hc' & Hde).
        rewrite decide_False in Hde by done. by exists c'.
      * intros t. rewrite handle_at_delete. case_decide; [done|apply Ho].
    + destruct (exec_destroy_None fuel trig w al fl s Hinv Hp) as [-> _].
      apply (orphan_data q f w); [done|..].
      * intros c0 Hc0. exists c0. by split.
      * intros t. rewrite handle_at_delete. case_decide; [done|apply Ho].
  - simpl. by eapply Htrig.
Qed.

Lemma points_handle_at q s w :
  points q (default HEvent_null (handles w !! s))
  = if decide (mConnection (handle_at s w) = Some q) then 1 else 0.
Proof. reflexivity. Qed.

Lemma exec_keeps_leaked fuel trig c w al fl q :
  inv w al fl → leaked q w →
  negb (is_assign c) = true →
  (∀ w' al' fl', inv w' al' fl' → leaked q w' → keeps (leaked q) (trig w')) →
  keeps (leaked q) (exec_cmd fuel trig c w).
Proof.
  intros Hinv Hl Hc Htrig. unfold leaked in Hl.
  destruct c as [dst g|s|s|dst src| |]; try done.
  - destruct (exec_connect_spec fuel trig w al fl dst g Hinv)
      as (d' & -> & Hinv' & Hlen & _ & Hframe).
    assert (Hne : links_of q (ev w) ≠ 0%Z) by lia.
    destruct (counted_in_list _ _ _ q (inv_repr _ _ _ Hinv) Hne) as [Hal Hfl].
    assert (Hq : q ≠ hd (length (heap (ev w))) fl).
    { destruct fl as [|x fl]; simpl.
      - destruct (repr_lookup _ _ _ q (inv_repr _ _ _ Hinv)) as [c Hc0].
        { rewrite elem_of_app. by left. }
        apply lookup_lt_Some in Hc0. lia.
      - intros ->. apply Hfl. left. }
    unfold keeps, leaked. simpl.
    rewrite (links_of_frame (ev w) d' _ q Hframe); [| |done].
    2:{ intros x Hx Hxp. rewrite Hlen. destruct fl; simpl in *; lia. }
    destruct dst as [t|]; [|done].
    pose proof (refs_insert q t (mkHEvent (Some (hd (length (heap (ev w))) fl)) true)
                  (handles w)) as Hins.
    unfold points at 2 in Hins. simpl in Hins.
    rewrite decide_False in Hins by congruence. lia.
  - destruct (mConnection (handle_at s w)) as [p|] eqn:Hp.
    + destruct (exec_disconnect_Some fuel trig w al fl s p Hinv Hp)
        as (l1 & l2 & c & d' & _ & Hc0 & Hrange & -> & Hupd & _).
      unfold keeps, leaked. simpl.
      rewrite (links_of_data_upd (ev w) d' p _ q Hupd).
      pose proof (refs_insert q s HEvent_null (handles w)) as Hins.
      rewrite points_handle_at, Hp in Hins.
      unfold points at 1 in Hins. simpl in Hins.
      destruct (decide (q = p)) as [->|Hq].
      * rewrite decide_True in Hins by done. rewrite Hc0. simpl.
        rewrite u32_dec_pos by done.
        rewrite (links_of_lookup _ _ _ Hc0) in Hl. lia.
      * rewrite decide_False in Hins by congruence. lia.
    + destruct (exec_disconnect_None fuel trig w al fl s Hinv Hp) as [-> _].
      unfold keeps, leaked. simpl.
      pose proof (refs_insert q s (handle_at s w) (handles w)) as Hins.
      unfold handle_at in Hins |- *. lia.
  - destruct (mConnection (handle_at s w)) as [p|] eqn:Hp.
    + destruct (exec_destroy_Some fuel trig w al fl s p Hinv Hp)
        as (l1 & l2 & c & d' & _ & Hc0 & Hrange & -> & Hupd & _).
      unfold keeps, leaked. simpl.
      rewrite (links_of_data_upd (ev w) d' p _ q Hupd).
      pose proof (refs_delete q s (handles w)) as Hdel.
      rewrite points_handle_at, Hp in Hdel.
      destruct (decide (q = p)) as [->|Hq].
      * rewrite decide_True in Hdel by done. rewrite Hc0. simpl.
        rewrite u32_dec_pos by done.
        rewrite (links_of_lookup _ _ _ Hc0) in Hl. lia.
      * rewrite decide_False in Hdel by congruence. lia.
    + destruct (exec_destroy_None fuel trig w al fl s Hinv Hp) as [-> _].
      unfold keeps, leaked. simpl.
      pose proof (refs_delete q s (handles w)) as Hdel. lia.
  - pose proof (exec_clear_spec fuel trig w al fl Hinv) as Hspec.
    destruct (exec_cmd fuel trig CClear w) as [w'| |]; [|done..].
    destruct Hspec as (_ & _ & Hhs & _ & Hlen & Hdata).
    unfold keeps, leaked. rewrite Hhs.
    assert (links_of q (ev w') = links_of q (ev w)) as ->; [|done].
    unfold links_of. destruct (heap (ev w) !! q) as [c|] eqn:E.
    + destruct (Hdata q c E) as (c' & -> & (_ & Hk & _)).
      rewrite Hk. by case_decide.
    + apply lookup_ge_None in E. rewrite lookup_ge_None_2; [done|lia].
  - simpl. by eapply Htrig.
Qed.

Lemma run_cmds_keeps P exec cs : ∀ w al fl,
  inv w al fl → P w →
  (∀ c w' al' fl', c ∈ cs → inv w' al' fl' →
     safe (length (heap (ev w'))) (exec c w')) →
  (∀ c w' al' fl', c ∈ cs → inv w' al' fl' → P w' → keeps P (exec c w')) →
  keeps P (run_cmds exec cs w).
Proof.
  induction cs as [|c cs IH]; intros w al fl Hinv Ho Hsafe Hkeep; simpl; [done|].
  pose proof (Hsafe c w al fl (list_elem_of_here _ _) Hinv) as Hs.
  pose proof (Hkeep c w al fl (list_elem_of_here _ _) Hinv Ho) as Hk.
  destruct (exec c w) as [w1| |]; simpl; [|done..].
  destruct Hs as [(al1 & fl1 & Hinv1) _].
  eapply IH; [done|done|..].
  - intros c' w' al' fl' Hin. apply Hsafe. by right.
  - intros c' w' al' fl' Hin. apply Hkeep. by right.
Qed.

Section Keeps.

Variable body : nat → list cmd.
Variable allowed : cmd → bool.
Variable P : world → Prop.
Hypothesis allowed_no_assign : ∀ c, allowed c = true → is_assign c = false.
Hypothesis body_allowed : ∀ f c, c ∈ body f → allowed c = true.
Hypothesis P_log : ∀ w l, P w → P (mkWorld (ev w) (handles w) l).
Hypothesis exec_keeps : ∀ fuel trig c w al fl,
  inv w al fl → P w → allowed c = true →
  (∀ w' al' fl', inv w' al' fl' → P w' → keeps P (trig w')) →
  keeps P (exec_cmd fuel trig c w).

Lemma body_no_assign f c : c ∈ body f → is_assign c = false.
Proof. intros Hc. by apply allowed_no_assign, (body_allowed f). Qed.

Lemma walk_keeps fuel : ∀ conn w al fl,
  inv w al fl → P w →
  (∀ p, conn = Some p → p < length (heap (ev w))) →
  keeps P (walk body fuel conn w).
Proof.
  induction fuel as [|fuel IH]; intros conn w al fl Hinv Ho Hconn.
  { by destruct conn. }
  destruct conn as [p|]; simpl; [|done].
  destruct (lookup_lt_is_Some_2 (heap (ev w)) p) as [c Hc]; [by apply Hconn|].
  rewrite (deref_Ok _ _ c) by done. simpl.
  set (trig := λ w', walk body fuel (mConnections (ev w')) w').
  assert (Htrig : ∀ w' al' fl', inv w' al' fl' →
            safe (length (heap (ev w'))) (trig w')).
  { intros w' al' fl' Hinv'. eapply (walk_safe body body_no_assign); [done|].
    intros n Hn. eapply repr_head_valid; [apply Hinv'|done]. }
  assert (Htrigk : ∀ w' al' fl', inv w' al' fl' → P w' → keeps P (trig w')).
  { intros w' al' fl' Hinv' Ho'. eapply IH; [done|done|].
    intros n Hn. eapply repr_head_valid; [apply Hinv'|done]. }
  assert (Hcb : safe (length (heap (ev w)))
            match func c with
            | Some g => run_cmds (exec_cmd fuel trig) (body g) (log_call g w)
            | None => Ok w
            end).
  { destruct (func c) as [g|]; [|split; [eauto|done]].
    apply (run_cmds_safe _ _ (log_call g w) al fl).
    - by apply inv_log.
    - intros c' w' al' fl' Hin Hinv'.
      eapply exec_safe; [done|by eapply body_no_assign|done]. }
  assert (Hcbk : keeps P
            match func c with
            | Some g => run_cmds (exec_cmd fuel trig) (body g) (log_call g w)
            | None => Ok w
            end).
  { destruct (func c) as [g|]; [|done].
    apply (run_cmds_keeps P _ _ (log_call g w) al fl).
    - by apply inv_log.
    - by apply P_log.
    - intros c' w' al' fl' Hin Hinv'.
      eapply exec_safe; [done|by eapply body_no_assign|done].
    - intros c' w' al' fl' Hin Hinv' Ho'.
      eapply exec_keeps; [done|done|by eapply body_allowed|done]. }
  destruct (match func c with Some _ => _ | None => _ end) as [w1| |];
    simpl; [|done..].
  destruct Hcb as [(al1 & fl1 & Hinv1) Hlen1].
  eapply IH; [done|done|].
  intros n Hn. pose proof (repr_next_valid _ _ _ _ _ _ (inv_repr _ _ _ Hinv) Hc Hn).
  lia.
Qed.

Lemma run_keeps fuel cs w al fl :
  inv w al fl → P w → (∀ c, c ∈ cs → allowed c = true) →
  keeps P (run body fuel cs w).
Proof.
  intros Hinv Ho Hcs.
  eapply run_cmds_keeps; [done|done|..].
  - intros c w' al' fl' Hin Hinv'.
    eapply exec_safe; [done|by apply allowed_no_assign, Hcs|].
    intros. by eapply (trigger_safe body body_no_assign).
  - intros c w' al' fl' Hin Hinv' Ho'.
    eapply exec_keeps; [done|done|by apply Hcs|].
    intros w2 al2 fl2 Hinv2 Ho2. eapply walk_keeps; [done|done|].
    intros n Hn. eapply repr_head_valid; [apply Hinv2|done].
Qed.

End Keeps.

(** ** Scripts without assignment or [clear] *)

Lemma inv_world_unheld : inv world_unheld [0] [].
Proof.
  destruct (exec_connect_spec 0 Ok world_new [] [] None 5 inv_world_new)
    as (d' & Hrun & Hinv & _).
  vm_compute in Hrun. injection Hrun as <-. exact Hinv.
Qed.

Lemma inv_world_overwritten : inv world_overwritten [1; 0] [].
Proof.
  destruct (exec_connect_spec 0 Ok world_new [] [] (Some 0) 1 inv_world_new)
    as (d1 & Hrun1 & Hinv1 & _).
  vm_compute in Hrun1. injection Hrun1 as <-.
  destruct (exec_connect_spec 0 Ok _ _ _ (Some 0) 2 Hinv1)
    as (d2 & Hrun2 & Hinv2 & _).
  vm_compute in Hrun2. injection Hrun2 as <-. exact Hinv2.
Qed.

Lemma no_assign_script cs :
  forallb (λ c, negb (is_assign c)) cs = true →
  ∀ c, c ∈ cs → is_assign c = false.
Proof.
  intros H c Hc. rewrite forallb_forall in H.
  apply negb_true_iff, H. by apply list_elem_of_In.
Qed.

Lemma no_clear_script cs :
  forallb (λ c, negb (is_clear c)) cs = true →
  ∀ c, c ∈ cs → is_clear c = false.
Proof.
  intros H c Hc. rewrite forallb_forall in H.
  apply negb_true_iff, H. by apply list_elem_of_In.
Qed.

Lemma recycling_no_assign f c : c ∈ recycling f → is_assign c = false.
Proof.
  destruct f as [|[|f]]; apply no_assign_script; reflexivity.
Qed.

Lemma recycling_no_clear f c : c ∈ recycling f → is_clear c = false.
Proof.
  destruct f as [|[|f]]; apply no_clear_script; reflexivity.
Qed.

Lemma sll_suffix h l1 l2 : sll h (l1 ++ l2) → sll h l2.
Proof. induction l1 as [|x l1 IH]; [done|]. intros [_ H]. by apply IH. Qed.

(** The walk through passive callbacks up to one that triggers. *)
Lemma walk_to_retrigger body d l1 p l2 fl c f rest fuel :
  shape d (l1 ++ p :: l2) fl →
  (∀ g, g ∈ callbacks (heap d) l1 → body g = []) →
  heap d !! p = Some c → func c = Some f → body f = CTrigger :: rest →
  (∀ k w, k < fuel → ev w = d → trigger body k w = OutOfFuel) →
  ∀ todo done_ k w,
    l1 = done_ ++ todo → k ≤ fuel → ev w = d →
    walk body k (head (todo ++ p :: l2)) w = OutOfFuel.
Proof.
  intros Hs Hpass Hc Hf Hbody IH.
  pose proof (dlseg_sll _ _ _ (shape_active _ _ _ Hs)) as Hsll.
  induction todo as [|x todo IHt]; intros done_ k w Hl1 Hk Hw.
  - destruct k as [|k]; [done|]. simpl.
    rewrite (deref_Ok _ _ c) by (by rewrite Hw). simpl.
    rewrite Hf, Hbody, run_cmds_cons.
    change (exec_cmd k (λ w', walk body k (mConnections (ev w')) w')
              CTrigger (log_call f w))
      with (trigger body k (log_call f w)).
    rewrite (IH k (log_call f w)) by (done || lia). done.
  - destruct k as [|k]; [done|].
    assert (Hx : sll (heap d) (x :: todo ++ p :: l2)).
    { apply (sll_suffix _ done_). rewrite Hl1 in Hsll.
      by rewrite <- app_assoc in Hsll. }
    destruct Hx as [(cx & Hcx & Hn) _].
    simpl. rewrite (deref_Ok _ _ cx) by (by rewrite Hw). simpl.
    rewrite Hn.
    destruct (func cx) as [g|] eqn:Hg.
    + rewrite (Hpass g).
      2:{ apply (elem_of_callbacks _ _ x cx); [|done..].
          rewrite Hl1, elem_of_app. right; left. }
      simpl. apply (IHt (done_ ++ [x])); [|lia|done].
      by rewrite <- app_assoc.
    + simpl. apply (IHt (done_ ++ [x])); [|lia|done].
      by rewrite <- app_assoc.
Qed.

Lemma trigger_diverges body d l1 p l2 fl c f rest :
  shape d (l1 ++ p :: l2) fl →
  (∀ g, g ∈ callbacks (heap d) l1 → body g = []) →
  heap d !! p = Some c → func c = Some f → body f = CTrigger :: rest →
  ∀ fuel k w, k < fuel → ev w = d → trigger body k w = OutOfFuel.
Proof.
  intros Hs Hpass Hc Hf Hbody.
  induction fuel as [|fuel IH]; intros k w Hk Hw; [lia|].
  unfold trigger. rewrite Hw, (shape_head _ _ _ Hs).
  apply (walk_to_retrigger body d l1 p l2 fl c f rest fuel Hs Hpass Hc Hf Hbody IH
           l1 []); [done|lia|done].
Qed.

(** ** The tabbed title bar *)

Lemma to_UINT32_small z : (0 ≤ z < UINT32_MOD)%Z → to_UINT32 z = z.
Proof. intros H. unfold to_UINT32. by apply Z.mod_small. Qed.

Lemma to_INT32_small z : (0 ≤ z ≤ INT32_MAX)%Z → to_INT32 z = z.
Proof.
  intros H. unfold to_INT32, INT32_MAX, UINT32_MOD in *.
  rewrite Z.mod_small by lia. by rewrite decide_True by lia.
Qed.

Lemma vec_size_small {A} (v : list A) :
  (Z.of_nat (length v) < UINT32_MOD)%Z → vec_size v = Z.of_nat (length v).
Proof. intros H. unfold vec_size. apply to_UINT32_small. lia. Qed.

Lemma INT32_MAX_lt : (INT32_MAX < UINT32_MOD - 1)%Z.
Proof. unfold INT32_MAX, UINT32_MOD. lia. Qed.

Section TabbedTitleBarProofs.

Context {GUITabButton GUIWindowMover : Type}.
Variable getIndex : GUITabButton → Z.
Variable Clamp : Z → Z → Z → Z.
Hypothesis Clamp_spec : Clamp_ok Clamp.

Local Abbreviation bar := (@GUITabbedTitleBar GUITabButton GUIWindowMover).

Lemma loop_find u : ∀ tabs idx,
  (0 ≤ idx)%Z → (idx + Z.of_nat (length tabs) ≤ INT32_MAX + 1)%Z →
  uniqueIdxToSeqIdx_loop getIndex u idx tabs
  = match list_find (λ t, getIndex t = u) tabs with
    | Some (i, _) => (idx + Z.of_nat i)%Z
    | None => (-1)%Z
    end.
Proof.
  induction tabs as [|t tabs IH]; intros idx H0 Hlen; simpl; [done|].
  simpl in Hlen. destruct (decide (getIndex t = u)) as [Ht|Ht].
  - rewrite to_INT32_small by lia. lia.
  - pose proof INT32_MAX_lt.
    rewrite u32_inc_small by lia. rewrite IH by lia.
    destruct (list_find _ tabs) as [[i x]|]; simpl; lia.
Qed.

Lemma uniqueIdxToSeqIdx_find u (b : bar) :
  (Z.of_nat (length (mTabButtons b)) ≤ INT32_MAX + 1)%Z →
  uniqueIdxToSeqIdx getIndex u b
  = match list_find (λ t, getIndex t = u) (mTabButtons b) with
    | Some (i, _) => Z.of_nat i
    | None => (-1)%Z
    end.
Proof.
  intros Hlen. unfold uniqueIdxToSeqIdx. rewrite loop_find by lia.
  by destruct (list_find _ _) as [[i x]|].
Qed.

Lemma wf_find (b : bar) i t :
  bar_wf getIndex b → mTabButtons b !! i = Some t →
  list_find (λ t', getIndex t' = getIndex t) (mTabButtons b) = Some (i, t).
Proof.
  intros (_ & _ & _ & Hnd & _) Hi. apply list_find_Some.
  split; [done|]. split; [done|].
  intros j y Hj Hlt Heq.
  assert (j = i); [|lia].
  eapply NoDup_lookup; [exact Hnd|..].
  - rewrite list_lookup_fmap, Hj. simpl. by rewrite Heq.
  - by rewrite list_lookup_fmap, Hi.
Qed.

Lemma wf_length (b : bar) :
  bar_wf getIndex b → (Z.of_nat (length (mTabButtons b)) ≤ INT32_MAX)%Z.
Proof. intros (_ & ? & ? & _). lia. Qed.

Lemma insert_at_length {A} (n : nat) (x : A) (l : list A) :
  n ≤ length l → length (take n l ++ x :: drop n l) = S (length l).
Proof.
  intros Hn. rewrite length_app, length_take. simpl. rewrite length_drop. lia.
Qed.

Lemma insert_at_perm {A} (n : nat) (x : A) (l : list A) :
  take n l ++ x :: drop n l ≡ₚ x :: l.
Proof. rewrite <- Permutation_middle. by rewrite take_drop. Qed.

Lemma insert_at_lookup {A} (n : nat) (x : A) (l : list A) :
  n ≤ length l → (take n l ++ x :: drop n l) !! n = Some x.
Proof.
  intros Hn. rewrite lookup_app_r; rewrite length_take; [|lia].
  by replace (n - n `min` length l) with 0 by lia.
Qed.

Lemma insert_at_delete {A} (n : nat) (x : A) (l : list A) :
  n ≤ length l → delete n (take n l ++ x :: drop n l) = l.
Proof.
  intros Hn.
  assert (Hl : length (take n l) = n) by (rewrite length_take; lia).
  rewrite <- Hl at 1. rewrite delete_middle. apply take_drop.
Qed.

Lemma clamp_insert idx (tabs : list GUITabButton) :
  (0 ≤ idx)%Z → (Z.of_nat (length tabs) < UINT32_MOD)%Z →
  Z.to_nat (Clamp idx 0%Z (vec_size tabs)) = Z.to_nat idx `min` length tabs.
Proof.
  intros H0 Hlen. rewrite vec_size_small by done.
  rewrite Clamp_spec by lia. lia.
Qed.

Lemma clamp_remove idx (tabs : list GUITabButton) :
  (0 ≤ idx)%Z → (Z.of_nat (length tabs) < UINT32_MOD)%Z → length tabs ≠ 0 →
  Z.to_nat (Clamp idx 0%Z (u32_dec (vec_size tabs)))
  = Z.to_nat idx `min` (length tabs - 1).
Proof.
  intros H0 Hlen Hne. rewrite vec_size_small by done.
  rewrite u32_dec_pos by lia.
  rewrite Clamp_spec by lia. lia.
Qed.

(** [insertTab] on a well-formed bar. *)
Lemma insertTab_spec idx newTab newMover (b : bar) :
  bar_wf getIndex b → getIndex newTab = mUniqueTabIdx b →
  (mUniqueTabIdx b < INT32_MAX)%Z → (0 ≤ idx)%Z →
  let n := Z.to_nat idx `min` length (mTabButtons b) in
  let b' := mkBar (take n (mTabButtons b) ++ newTab :: drop n (mTabButtons b))
                  (take n (mDragDropElements b)
                     ++ newMover :: drop n (mDragDropElements b))
                  (mUniqueTabIdx b + 1)%Z (mActiveTabIdx b) in
  insertTab Clamp idx newTab newMover b = Ok b' ∧ bar_wf getIndex b'.
Proof.
  intros Hwf Hnew Hmax H0 n b'.
  pose proof Hwf as (Hlen & Hle & Hu & Hnd & Hrange).
  pose proof INT32_MAX_lt as Hm.
  assert (Hsmall : (Z.of_nat (length (mTabButtons b)) < UINT32_MOD)%Z) by lia.
  split.
  - unfold insertTab, vec_insert. cbv zeta.
    rewrite (clamp_insert idx _ H0 Hsmall). fold n.
    rewrite !decide_True by lia. rewrite !bind_Ok_l.
    rewrite u32_inc_small; [done|].
    assert (0 ≤ Z.of_nat (length (mTabButtons b)))%Z by lia. lia.
  - unfold bar_wf, b'. simpl. split; [|split; [|split; [|split]]].
    + rewrite !insert_at_length by lia. by rewrite Hlen.
    + rewrite insert_at_length by lia. lia.
    + lia.
    + rewrite insert_at_perm, fmap_cons. apply NoDup_cons. split; [|done].
      intros Hin. apply list_elem_of_fmap in Hin as (t & Heq & Ht).
      specialize (Hrange t Ht). lia.
    + intros t. rewrite insert_at_perm, elem_of_cons. intros [->|Ht].
      * rewrite Hnew. assert (0 ≤ Z.of_nat (length (mTabButtons b)))%Z by lia. lia.
      * specialize (Hrange t Ht). lia.
Qed.

Lemma lookup_clamped {A} (n : nat) (l : list A) :
  length l ≠ 0 → is_Some (l !! (n `min` (length l - 1))).
Proof. intros Hne. apply lookup_lt_is_Some_2. lia. Qed.

(** [removeTab] on a well-formed bar. *)
Lemma removeTab_spec idx (b : bar) :
  bar_wf getIndex b → (0 ≤ idx)%Z →
  let n := Z.to_nat idx `min` (length (mTabButtons b) - 1) in
  let b' := mkBar (delete n (mTabButtons b)) (delete n (mDragDropElements b))
                  (mUniqueTabIdx b) (mActiveTabIdx b) in
  removeTab Clamp idx b = Ok b' ∧ bar_wf getIndex b'.
Proof.
  intros Hwf H0 n b'.
  pose proof Hwf as (Hlen & Hle & Hu & Hnd & Hrange).
  pose proof INT32_MAX_lt as Hm.
  assert (Hsmall : (Z.of_nat (length (mTabButtons b)) < UINT32_MOD)%Z) by lia.
  destruct (decide (length (mTabButtons b) = 0)) as [Hz|Hnz].
  - assert (Ht : mTabButtons b = []) by (by apply nil_length_inv).
    assert (Hm' : mDragDropElements b = []) by (apply nil_length_inv; lia).
    unfold removeTab. rewrite decide_True by done.
    assert (b' = b) as ->; [|done].
    unfold b'. rewrite Ht, Hm'. destruct b; simpl in *. by subst.
  - unfold removeTab, vec_at, vec_erase. rewrite decide_False by done. cbv zeta.
    rewrite (clamp_remove idx _ H0 Hsmall Hnz). fold n.
    destruct (lookup_clamped (Z.to_nat idx) (mTabButtons b) Hnz) as [t Ht].
    destruct (lookup_clamped (Z.to_nat idx) (mDragDropElements b)) as [m Hmv];
      [lia|]. rewrite Hlen in Hmv. fold n in Ht, Hmv.
    rewrite Ht, Hmv, !bind_Ok_l.
    rewrite !decide_True by (unfold n; lia). rewrite !bind_Ok_l.
    split; [done|].
    unfold bar_wf, b'. simpl. split; [|split; [|split; [|split]]].
    + rewrite !length_delete by (by eexists). by rewrite Hlen.
    + rewrite length_delete by (by eexists). lia.
    + done.
    + eapply sublist_NoDup; [exact Hnd|]. apply fmap_sublist, sublist_delete.
    + intros x Hx. apply Hrange. eapply elem_of_sublist; [exact Hx|].
      apply sublist_delete.
Qed.

End TabbedTitleBarProofs.

Lemma clamp_Z_ok : Clamp_ok clamp_Z.
Proof. intros val minval maxval _. reflexivity. Qed.

Lemma bar_abc_wf : bar_wf id bar_abc.
Proof.
  unfold bar_wf, bar_abc, INT32_MAX. simpl.
  split; [done|]. split; [lia|]. split; [lia|]. split.
  - apply (bool_decide_unpack (NoDup _)). by vm_compute.
  - intros t Ht. repeat (apply elem_of_cons in Ht as [->|Ht]; [lia|]).
    by apply elem_of_nil in Ht.
Qed.

Lemma tabClosed_not_found {T M : Type} (getIndex : T → Z)
    (Clamp : Z → Z → Z → Z) onTabClosed (b : @GUITabbedTitleBar T M) :
  (Z.of_nat (length (mTabButtons b)) ≤ INT32_MAX + 1)%Z →
  (∀ t, t ∈ mTabButtons b → getIndex t ≠ mActiveTabIdx b) →
  tabClosed getIndex Clamp onTabClosed b = Ok (b, None).
Proof.
  intros Hlen Hnone. unfold tabClosed.
  rewrite (uniqueIdxToSeqIdx_find getIndex _ b Hlen).
  assert (Hfind : list_find (λ t, getIndex t = mActiveTabIdx b) (mTabButtons b) = None).
  { apply list_find_None, Forall_forall. exact Hnone. }
  rewrite Hfind. by rewrite decide_False by (intros H; by apply H).
Qed.

(** ** The cache of input layouts *)

Lemma EqualFunc_eq a b : EqualFunc a b = true ↔ a = b.
Proof.
  unfold EqualFunc. destruct a as [a1 a2], b as [b1 b2]. simpl.
  repeat case_bool_decide; simpl; split; intros; simplify_eq; done.
Qed.

Lemma erase_all_delete {A} (ks : list (Z * Z)) (k : Z * Z) (mp : gmap (Z * Z) A) :
  erase_all ks (delete k mp) = delete k (erase_all ks mp).
Proof.
  induction ks as [|x ks IH]; simpl; [done|].
  rewrite IH. apply delete_delete.
Qed.

Lemma lookup_erase_all {A} (ks : list (Z * Z)) (k : Z * Z) (mp : gmap (Z * Z) A) :
  erase_all ks mp !! k = if decide (k ∈ ks) then None else mp !! k.
Proof.
  induction ks as [|x ks IH]; simpl; [done|].
  destruct (decide (x = k)) as [->|Hne].
  - rewrite lookup_delete_eq. by rewrite decide_True by left.
  - rewrite lookup_delete_ne by done. rewrite IH.
    destruct (decide (k ∈ ks)).
    + by rewrite decide_True by (by right).
    + rewrite decide_False; [done|]. intros [?|?]%elem_of_cons; congruence.
Qed.

Lemma size_erase_all {A} (ks : list (Z * Z)) (mp : gmap (Z * Z) A) :
  NoDup ks → (∀ k, k ∈ ks → is_Some (mp !! k)) →
  size (erase_all ks mp) = size mp - length ks.
Proof.
  induction ks as [|x ks IH]; intros Hnd Hin; simpl; [lia|].
  apply NoDup_cons in Hnd as [Hx Hnd].
  assert (Hs : is_Some (erase_all ks mp !! x)).
  { rewrite lookup_erase_all, decide_False by done. apply Hin. left. }
  rewrite map_size_delete_Some by done.
  rewrite IH; [lia|done|]. intros k Hk. apply Hin. by right.
Qed.

Section InputLayoutManagerProofs.

Context {ID3D11InputLayout : Type}.
Variable NUM_ELEMENTS_TO_PRUNE : Z.

Local Abbreviation Entry := (@InputLayoutEntry ID3D11InputLayout).
Local Abbreviation cache := (gmap (Z * Z) Entry).

Lemma foldl_by_age (l : list ((Z * Z) * Entry)) : ∀ acc : gmap Z (Z * Z),
  NoDup (by_age <$> l).*1 →
  (∀ kv, kv ∈ l → acc !! lastUsedIdx kv.2 = None) →
  map_to_list (foldl (λ acc kv, <[lastUsedIdx kv.2 := kv.1]> acc) acc l)
  ≡ₚ (by_age <$> l) ++ map_to_list acc.
Proof.
  induction l as [|kv l IH]; intros acc Hnd Hfresh; simpl; [done|].
  simpl in Hnd. apply NoDup_cons in Hnd as [Hkv Hnd].
  rewrite IH; [| done |].
  - rewrite map_to_list_insert by (apply Hfresh; left).
    by rewrite <- Permutation_middle.
  - intros kv' Hin. rewrite lookup_insert_ne; [apply Hfresh; by right|].
    intros Heq. apply Hkv. apply list_elem_of_fmap. exists (by_age kv').
    split; [by rewrite Heq|]. by apply list_elem_of_fmap_2.
Qed.

Lemma by_age_NoDup (mp : cache) :
  (∀ k1 k2 e1 e2, mp !! k1 = Some e1 → mp !! k2 = Some e2 →
     lastUsedIdx e1 = lastUsedIdx e2 → k1 = k2) →
  NoDup (by_age <$> map_to_list mp).*1.
Proof.
  intros Hdist. rewrite <- list_fmap_compose.
  apply NoDup_fmap_2_strong; [|apply NoDup_map_to_list].
  intros [k1 e1] [k2 e2] H1 H2 Heq. simpl in Heq.
  apply elem_of_map_to_list in H1, H2.
  assert (k1 = k2) as -> by (by eapply Hdist). congruence.
Qed.

(** The entries of the ordered map, in ascending order. *)
Lemma ascending_spec (mp : cache) :
  (∀ k1 k2 e1 e2, mp !! k1 = Some e1 → mp !! k2 = Some e2 →
     lastUsedIdx e1 = lastUsedIdx e2 → k1 = k2) →
  ascending (leastFrequentlyUsedMap mp) ≡ₚ by_age <$> map_to_list mp
  ∧ StronglySorted key_le (ascending (leastFrequentlyUsedMap mp)).
Proof.
  intros Hdist. unfold ascending. split.
  - rewrite merge_sort_Permutation. unfold leastFrequentlyUsedMap.
    rewrite foldl_by_age; [|by apply by_age_NoDup|done].
    by rewrite map_to_list_empty, app_nil_r.
  - apply StronglySorted_merge_sort.
    + intros a b c. unfold key_le. lia.
    + intros a b. unfold key_le. lia.
Qed.

Lemma prune_loop_spec : ∀ (todo : list (Z * (Z * Z))) (n : Z) (mp : cache),
  NoDup todo.*2 → (∀ kv, kv ∈ todo → is_Some (mp !! kv.2)) →
  (0 ≤ n)%Z → (n + Z.of_nat (length todo) < UINT32_MOD)%Z →
  prune_loop NUM_ELEMENTS_TO_PRUNE todo n mp
  = Some (erase_all (take (Z.to_nat (Z.max 1 (NUM_ELEMENTS_TO_PRUNE - n))) todo).*2 mp).
Proof.
  induction todo as [|kv todo IH]; intros n mp Hnd Hin Hn Hlen.
  { simpl. by rewrite take_nil. }
  simpl in Hnd, Hlen. apply NoDup_cons in Hnd as [Hkv Hnd].
  destruct (Hin kv) as [e He]; [left|]. simpl. rewrite He.
  rewrite u32_inc_small by lia.
  destruct (decide (NUM_ELEMENTS_TO_PRUNE ≤ n + 1)%Z) as [Hle|Hgt].
  - replace (Z.to_nat (Z.max 1 (NUM_ELEMENTS_TO_PRUNE - n))) with 1 by lia.
    simpl. destruct todo; done.
  - rewrite IH; [|done| |lia|lia].
    + replace (Z.to_nat (Z.max 1 (NUM_ELEMENTS_TO_PRUNE - n)))
        with (S (Z.to_nat (Z.max 1 (NUM_ELEMENTS_TO_PRUNE - (n + 1))))) by lia.
      simpl. by rewrite erase_all_delete.
    + intros kv' Hkv'. rewrite lookup_delete_ne; [apply Hin; by right|].
      intros Heq. apply Hkv. rewrite Heq. by apply list_elem_of_fmap_2.
Qed.

Lemma ascending_facts (mp : cache) :
  (∀ k1 k2 e1 e2, mp !! k1 = Some e1 → mp !! k2 = Some e2 →
     lastUsedIdx e1 = lastUsedIdx e2 → k1 = k2) →
  let S := ascending (leastFrequentlyUsedMap mp) in
  StronglySorted key_le S
  ∧ NoDup S.*2
  ∧ length S = size mp
  ∧ (∀ i k, (i, k) ∈ S ↔ ∃ e, mp !! k = Some e ∧ lastUsedIdx e = i).
Proof.
  intros Hdist S. destruct (ascending_spec mp Hdist) as [Hperm Hsorted].
  fold S in Hperm, Hsorted. split; [done|]. split; [|split].
  - rewrite Hperm, <- list_fmap_compose.
    apply (NoDup_fst_map_to_list mp).
  - by rewrite Hperm, length_fmap, length_map_to_list.
  - intros i k. rewrite Hperm, list_elem_of_fmap. split.
    + intros ([k0 e0] & Heq & Hin). injection Heq as -> ->.
      apply elem_of_map_to_list in Hin. by exists e0.
    + intros (e & He & <-). exists (k, e). split; [done|].
      by apply elem_of_map_to_list.
Qed.

(** [removeLeastUsed] on a well-formed cache. *)
Lemma removeLeastUsed_spec (m : @D3D11InputLayoutManager ID3D11InputLayout) :
  cache_wf m → (0 ≤ NUM_ELEMENTS_TO_PRUNE)%Z →
  (Z.of_nat (size (mInputLayoutMap m)) < UINT32_MOD)%Z →
  ∃ mp',
    removeLeastUsed NUM_ELEMENTS_TO_PRUNE m
    = Returns (mkManager mp' (mLastUsedCounter m) true) tt
    ∧ mp' ⊆ mInputLayoutMap m
    ∧ size mp' = size (mInputLayoutMap m)
                 - size (mInputLayoutMap m)
                   `min` Z.to_nat (Z.max 1 NUM_ELEMENTS_TO_PRUNE)
    ∧ ∀ k e k' e', mInputLayoutMap m !! k = Some e → mp' !! k = None →
        mp' !! k' = Some e' → (lastUsedIdx e < lastUsedIdx e')%Z.
Proof.
  intros (Hdist & Hrange & Hc) Hnum Hsize.
  destruct (ascending_facts (mInputLayoutMap m) Hdist)
    as (Hsorted & Hnd & Hlen & Hmem).
  set (S := ascending (leastFrequentlyUsedMap (mInputLayoutMap m))) in *.
  set (c := Z.to_nat (Z.max 1 NUM_ELEMENTS_TO_PRUNE)).
  assert (Hpresent : ∀ kv, kv ∈ S → is_Some (mInputLayoutMap m !! kv.2)).
  { intros [i k] Hin. apply Hmem in Hin as (e & He & _). by exists e. }
  exists (erase_all (take c S).*2 (mInputLayoutMap m)).
  assert (Htake : (take c S).*2 `sublist_of` S.*2).
  { apply fmap_sublist, sublist_take. }
  split; [|split; [|split]].
  - unfold removeLeastUsed. fold S.
    rewrite (prune_loop_spec S 0 (mInputLayoutMap m) Hnd Hpresent) by lia.
    by rewrite Z.sub_0_r.
  - apply map_subseteq_spec. intros k e. rewrite lookup_erase_all.
    by case_decide.
  - rewrite size_erase_all.
    + rewrite length_fmap, length_take, Hlen. lia.
    + by eapply sublist_NoDup.
    + intros k Hk. apply list_elem_of_fmap in Hk as (kv & -> & Hkv).
      apply Hpresent. eapply elem_of_sublist; [exact Hkv|apply sublist_take].
  - intros k e k' e' He Hgone Hkept.
    rewrite lookup_erase_all in Hgone, Hkept.
    destruct (decide (k ∈ (take c S).*2)) as [Hk|Hk]; [|congruence].
    destruct (decide (k' ∈ (take c S).*2)) as [Hk'|Hk']; [done|].
    apply list_elem_of_fmap in Hk as ([i k0] & Heq & Hin). simpl in Heq. subst k0.
    assert (HinS : (i, k) ∈ S).
    { eapply elem_of_sublist; [exact Hin|apply sublist_take]. }
    apply Hmem in HinS as (e0 & He0 & Hi).
    assert (e0 = e) as -> by congruence. subst i.
    assert (Hin' : (lastUsedIdx e', k') ∈ S) by (apply Hmem; by exists e').
    rewrite <- (take_drop c S) in Hin', Hsorted.
    apply elem_of_app in Hin' as [Hin'|Hin'].
    { destruct Hk'. apply list_elem_of_fmap. by exists (lastUsedIdx e', k'). }
    pose proof (StronglySorted_app_1_elem_of _ _ _ _ _ Hsorted Hin Hin') as Hle.
    unfold key_le in Hle. simpl in Hle.
    destruct (decide (lastUsedIdx e = lastUsedIdx e')) as [Heq|Hne]; [|lia].
    assert (k = k') as -> by (by eapply Hdist).
    destruct Hk'. apply list_elem_of_fmap. by exists (lastUsedIdx e, k').
Qed.

Lemma cache_wf_subseteq (m : @D3D11InputLayoutManager ID3D11InputLayout) mp' w :
  cache_wf m → mp' ⊆ mInputLayoutMap m →
  cache_wf (mkManager mp' (mLastUsedCounter m) w).
Proof.
  intros (Hdist & Hrange & Hc) Hsub.
  pose proof (λ k e, lookup_weaken mp' (mInputLayoutMap m) k e) as Hw.
  split; [|split]; simpl.
  - intros k1 k2 e1 e2 H1 H2. apply Hdist; by apply Hw.
  - intros k e He. apply (Hrange k). by apply Hw.
  - done.
Qed.

(** A well-formed cache after the entry at [key] is set to a time
    later than all the others. *)
Lemma cache_wf_touch (m : @D3D11InputLayoutManager ID3D11InputLayout)
    key layout t w :
  cache_wf m → (mLastUsedCounter m < t)%Z →
  cache_wf (mkManager (<[key := mkEntry (Some layout) t]> (mInputLayoutMap m)) t w).
Proof.
  intros (Hdist & Hrange & Hc) Ht. split; [|split]; simpl; [| |lia].
  - intros k1 k2 e1 e2.
    rewrite !lookup_insert_Some.
    intros [[<- <-]|[Hn1 H1]] [[<- <-]|[Hn2 H2]]; simpl; try done.
    + intros Heq. destruct (Hrange k2 e2 H2) as [? _]. lia.
    + intros Heq. destruct (Hrange k1 e1 H1) as [? _]. lia.
    + by apply Hdist.
  - intros k e. rewrite lookup_insert_Some.
    intros [[<- <-]|[Hn He]]; simpl.
    + split; [lia|by eexists].
    + destruct (Hrange k e He) as [? ?]. split; [lia|done].
Qed.

End InputLayoutManagerProofs.

Section RetrieveProofs.

Context {VertexElementSemantic VertexElementType LPCSTR DXGI_FORMAT : Type}.
Context {ID3D11InputLayout HLSLMicroCode : Type}.
Context `{!EqDecision VertexElementSemantic}.
Variable get_semantic : VertexElementSemantic → LPCSTR.
Variable get_format : VertexElementType → DXGI_FORMAT.
Variable CreateInputLayout :
  list (@D3D11_INPUT_ELEMENT_DESC LPCSTR DXGI_FORMAT) → HLSLMicroCode →
  option ID3D11InputLayout.
Variable DECLARATION_BUFFER_SIZE : Z.
Variable NUM_ELEMENTS_TO_PRUNE : Z.

Local Abbreviation Elem := (@VertexElement VertexElementSemantic VertexElementType).
Local Abbreviation Manager := (@D3D11InputLayoutManager ID3D11InputLayout).

Lemma buffer_loop_acc (l : list Elem) : ∀ acc mx,
  foldl (λ st e, (st.1 ++ [buffer_element_desc get_semantic get_format e],
                  Z.max st.2 (to_INT32 (getStreamIdx e)))) (acc, mx) l
  = (acc ++ (buffer_element_desc get_semantic get_format <$> l),
     foldl (λ m e, Z.max m (to_INT32 (getStreamIdx e))) mx l).
Proof.
  induction l as [|e l IH]; intros acc mx; simpl.
  - by rewrite app_nil_r.
  - rewrite IH. by rewrite <- app_assoc.
Qed.

Lemma max_stream_le (l : list Elem) : ∀ mx,
  (mx ≤ foldl (λ m e, Z.max m (to_INT32 (getStreamIdx e))) mx l)%Z
  ∧ ∀ e, e ∈ l →
      (to_INT32 (getStreamIdx e)
       ≤ foldl (λ m e, Z.max m (to_INT32 (getStreamIdx e))) mx l)%Z.
Proof.
  induction l as [|x l IH]; intros mx; simpl.
  - split; [lia|]. intros e He. by apply elem_of_nil in He.
  - destruct (IH (Z.max mx (to_INT32 (getStreamIdx x)))) as [H1 H2].
    split; [lia|]. intros e [->|He]%elem_of_cons; [lia|by apply H2].
Qed.

Lemma to_INT32_le z : (to_INT32 z ≤ INT32_MAX)%Z.
Proof.
  unfold to_INT32. case_decide; [done|].
  pose proof (Z.mod_pos_bound z UINT32_MOD). unfold INT32_MAX, UINT32_MOD in *. lia.
Qed.

Lemma max_stream_bound (l : list Elem) : ∀ mx,
  (mx ≤ INT32_MAX)%Z →
  (foldl (λ m e, Z.max m (to_INT32 (getStreamIdx e))) mx l ≤ INT32_MAX)%Z.
Proof.
  induction l as [|x l IH]; intros mx Hmx; simpl; [done|].
  apply IH. pose proof (to_INT32_le (getStreamIdx x)). lia.
Qed.

Lemma dummy_loop_acc (buf : list Elem) mx (l : list Elem) : ∀ acc,
  foldl (λ declElements s,
           if found_in buf s then declElements
           else declElements ++ [dummy_element_desc get_semantic get_format mx s])
        acc l
  = acc ++ (dummy_element_desc get_semantic get_format mx
              <$> filter (λ s, found_in buf s = false) l).
Proof.
  induction l as [|s l IH]; intros acc; simpl.
  - by rewrite app_nil_r.
  - rewrite IH. destruct (found_in buf s) eqn:Hf.
    + by rewrite filter_cons_False by (by rewrite Hf).
    + rewrite filter_cons_True by done. simpl. by rewrite <- app_assoc.
Qed.

(** The declaration built by [addNewInputLayout]. *)
Lemma declaration_elements_eq (shaderElems bufferElems : list Elem) :
  declaration_elements get_semantic get_format shaderElems bufferElems
  = (buffer_element_desc get_semantic get_format <$> bufferElems)
    ++ (dummy_element_desc get_semantic get_format
          (foldl (λ m e, Z.max m (to_INT32 (getStreamIdx e))) (-1)%Z bufferElems)
          <$> filter (λ s, found_in bufferElems s = false) shaderElems).
Proof.
  unfold declaration_elements, buffer_loop.
  rewrite buffer_loop_acc. simpl. by rewrite dummy_loop_acc.
Qed.

(** [retrieveInputLayout] for a key that is not cached. *)
Lemma retrieve_miss shaderElems bufferElems pair microcode (m : Manager) :
  mInputLayoutMap m !! pair = None →
  cache_wf m → (0 ≤ NUM_ELEMENTS_TO_PRUNE)%Z →
  (Z.of_nat (size (mInputLayoutMap m)) < UINT32_MOD)%Z →
  (mLastUsedCounter m < UINT32_MOD - 2)%Z →
  declaration_elements get_semantic get_format shaderElems bufferElems ≠ [] →
  ∃ mp1 w1,
    mp1 ⊆ mInputLayoutMap m
    ∧ (if decide (DECLARATION_BUFFER_SIZE ≤ Z.of_nat (size (mInputLayoutMap m)))%Z
       then size mp1 = size (mInputLayoutMap m)
                       - size (mInputLayoutMap m)
                         `min` Z.to_nat (Z.max 1 NUM_ELEMENTS_TO_PRUNE)
       else mp1 = mInputLayoutMap m)
    ∧ retrieveInputLayout get_semantic get_format CreateInputLayout
        DECLARATION_BUFFER_SIZE NUM_ELEMENTS_TO_PRUNE
        shaderElems bufferElems pair microcode m
      = match CreateInputLayout
                (declaration_elements get_semantic get_format shaderElems bufferElems)
                microcode with
        | Some layout =>
            Returns (mkManager
                       (<[pair := mkEntry (Some layout) (mLastUsedCounter m + 2)%Z]> mp1)
                       (mLastUsedCounter m + 2)%Z w1)
                    (Some layout)
        | None => Throws (mkManager mp1 (mLastUsedCounter m + 1)%Z w1)
        end.
Proof.
  intros Hmiss Hwf Hnum Hsize Hcnt Hdecl.
  pose proof Hwf as (_ & _ & Hc).
  unfold retrieveInputLayout. rewrite Hmiss.
  assert (Hadd : ∀ mp1 w1,
    outcome_bind
      (addNewInputLayout get_semantic get_format CreateInputLayout
         shaderElems bufferElems pair microcode
         (mkManager mp1 (mLastUsedCounter m) w1))
      (λ m0 _,
         match mInputLayoutMap m0 !! pair with
         | None => Returns m0 None
         | Some e =>
             Returns (mkManager (<[pair := mkEntry (inputLayout e)
                                             (u32_inc (mLastUsedCounter m0))]>
                                   (mInputLayoutMap m0))
                                (u32_inc (mLastUsedCounter m0)) (mWarningShown m0))
                     (inputLayout e)
         end)
    = match CreateInputLayout
              (declaration_elements get_semantic get_format shaderElems bufferElems)
              microcode with
      | Some layout =>
          Returns (mkManager
                     (<[pair := mkEntry (Some layout) (mLastUsedCounter m + 2)%Z]> mp1)
                     (mLastUsedCounter m + 2)%Z w1)
                  (Some layout)
      | None => Throws (mkManager mp1 (mLastUsedCounter m + 1)%Z w1)
      end).
  { intros mp1 w1. unfold addNewInputLayout. simpl.
    destruct (declaration_elements _ _ _ _) as [|d decl] eqn:Hd; [done|].
    rewrite u32_inc_small by lia.
    destruct (CreateInputLayout (d :: decl) microcode) as [layout|]; simpl; [|done].
    rewrite lookup_insert_eq. simpl. rewrite insert_insert_eq.
    rewrite u32_inc_small by lia.
    by replace (mLastUsedCounter m + 1 + 1)%Z with (mLastUsedCounter m + 2)%Z by lia. }
  destruct (decide (DECLARATION_BUFFER_SIZE ≤ Z.of_nat (size (mInputLayoutMap m)))%Z).
  - destruct (removeLeastUsed_spec NUM_ELEMENTS_TO_PRUNE m Hwf Hnum Hsize)
      as (mp1 & Hrun & Hsub & Hsz & _).
    exists mp1, true. split; [done|]. split; [done|].
    rewrite Hrun. simpl outcome_bind at 1. apply Hadd.
  - exists (mInputLayoutMap m), (mWarningShown m). split; [done|]. split; [done|].
    simpl outcome_bind at 1. destruct m. apply Hadd.
Qed.

(** [retrieveInputLayout] for a key that is cached. *)
Lemma retrieve_hit shaderElems bufferElems pair microcode (m : Manager) e :
  cache_wf m → mInputLayoutMap m !! pair = Some e →
  (mLastUsedCounter m < UINT32_MOD - 1)%Z →
  ∃ layout,
    retrieveInputLayout get_semantic get_format CreateInputLayout
      DECLARATION_BUFFER_SIZE NUM_ELEMENTS_TO_PRUNE
      shaderElems bufferElems pair microcode m
    = Returns (mkManager
                 (<[pair := mkEntry (Some layout) (mLastUsedCounter m + 1)%Z]>
                    (mInputLayoutMap m))
                 (mLastUsedCounter m + 1)%Z (mWarningShown m))
              (Some layout)
    ∧ inputLayout e = Some layout
    ∧ cache_wf (mkManager
                  (<[pair := mkEntry (Some layout) (mLastUsedCounter m + 1)%Z]>
                     (mInputLayoutMap m))
                  (mLastUsedCounter m + 1)%Z (mWarningShown m))
    ∧ ∀ k' e', k' ≠ pair → mInputLayoutMap m !! k' = Some e' →
        (lastUsedIdx e' < mLastUsedCounter m + 1)%Z.
Proof.
  intros Hwf He Hcnt. pose proof Hwf as (_ & Hrange & Hc).
  destruct (Hrange pair e He) as [_ [layout Hl]].
  unfold retrieveInputLayout. rewrite He, Hl.
  rewrite u32_inc_small by lia.
  exists layout. split; [reflexivity|]. split; [done|]. split.
  { apply cache_wf_touch; [done|lia]. }
  intros k' e' Hne He'. destruct (Hrange k' e' He') as [? _]. lia.
Qed.

(** [retrieveInputLayout] for a key that is not cached, when the two
    declarations have no elements. *)
Lemma retrieve_miss_empty shaderElems bufferElems pair microcode (m : Manager) :
  mInputLayoutMap m !! pair = None →
  declaration_elements get_semantic get_format shaderElems bufferElems = [] →
  retrieveInputLayout get_semantic get_format CreateInputLayout
    DECLARATION_BUFFER_SIZE NUM_ELEMENTS_TO_PRUNE
    shaderElems bufferElems pair microcode m
  = Undefined.
Proof.
  intros Hmiss Hd. unfold retrieveInputLayout. rewrite Hmiss.
  case_decide.
  - unfold removeLeastUsed. destruct (prune_loop _ _ _ _) as [mp|]; simpl; [|done].
    unfold addNewInputLayout. by rewrite Hd.
  - simpl. unfold addNewInputLayout. by rewrite Hd.
Qed.

Lemma cache_wf_counter (m : Manager) (mp : gmap (Z * Z) (@InputLayoutEntry ID3D11InputLayout)) (c : Z) (w : bool) :
  cache_wf (mkManager mp (mLastUsedCounter m) (mWarningShown m)) →
  (mLastUsedCounter m ≤ c)%Z → cache_wf (mkManager mp c w).
Proof.
  intros (Hdist & Hrange & Hc) Hle. split; [|split]; simpl in *; [done| |lia].
  intros k e He. destruct (Hrange k e He). split; [lia|done].
Qed.

End RetrieveProofs.

Lemma cache_two_wf : cache_wf cache_two.
Proof.
  unfold cache_wf, cache_two. simpl. split; [|split; [|lia]].
  - intros k1 k2 e1 e2. rewrite !lookup_insert_Some, !lookup_empty.
    intros [[<- <-]|[_ [[<- <-]|[_ ?]]]] [[<- <-]|[_ [[<- <-]|[_ ?]]]];
      simpl; done.
  - intros k e. rewrite !lookup_insert_Some, lookup_empty.
    intros [[<- <-]|[_ [[<- <-]|[_ ?]]]]; simpl; [| |done];
      (split; [lia|by eexists]).
Qed.

Lemma cache_at_wrap_wf : cache_wf cache_at_wrap.
Proof.
  destruct cache_two_wf as (Hdist & Hrange & _).
  split; [exact Hdist|]. split; [|by vm_compute].
  intros k e He. destruct (Hrange k e He) as [[H0 H7] Hl]. split; [|done].
  split; [done|]. etrans; [exact H7|]. by vm_compute.
Qed.

(** * The specification *)

(** ** Single delivery *)

(** C1: on an event whose connection list is [al], connect the callbacks
    of [cs] one after the other and trigger once (the callbacks leave the
    event alone).  The trigger invokes the callbacks just connected, the
    last one connected first, and then the callbacks stored in the records
    of [al] in list order; every stored callback is invoked exactly once
    and a record whose callback is empty is skipped. *)
Theorem trigger_invokes_each_once body fuel w al fl cs :
  inv w al fl →
  (∀ f, f ∈ cs.*2 ++ callbacks (heap (ev w)) al → body f = []) →
  length cs + length al ≤ fuel →
  ∃ w' al',
    run body fuel (connects cs ++ [CTrigger]) w = Ok w'
    ∧ length al' = length cs
    ∧ inv w' (al' ++ al) (drop (length cs) fl)
    ∧ log w' = log w ++ reverse cs.*2 ++ callbacks (heap (ev w)) al.
Proof.
  intros Hinv Hbody Hfuel.
  destruct (run_connects body fuel cs w al fl Hinv)
    as (w1 & al' & Hrun1 & Hinv1 & Hlog1 & Hlen1 & _ & Hcb1).
  rewrite run_app, Hrun1, bind_Ok_l.
  unfold run. rewrite run_cmds_cons. unfold exec. simpl exec_cmd.
  rewrite (trigger_passive body w1 (al' ++ al) (drop (length cs) fl) fuel).
  - rewrite bind_Ok_l. simpl. eexists _, al'. split; [done|]. split; [done|].
    split; [by apply inv_log|]. simpl. by rewrite Hcb1, Hlog1.
  - apply Hinv1.
  - intros f. rewrite Hcb1, !elem_of_app, elem_of_reverse.
    intros Hf. apply Hbody. by rewrite elem_of_app.
  - rewrite length_app. lia.
Qed.

Lemma trigger_invokes_each_once_witness :
  inv world_new [] []
  ∧ ∃ w' al',
      run passive 3 (connects [(Some 0, 10); (None, 20); (Some 1, 30)] ++ [CTrigger])
          world_new = Ok w'
      ∧ length al' = 3
      ∧ inv w' (al' ++ []) []
      ∧ log w' = [30; 20; 10].
Proof.
  split; [apply inv_world_new|].
  apply (trigger_invokes_each_once passive 3 world_new [] []
           [(Some 0, 10); (None, 20); (Some 1, 30)]).
  - apply inv_world_new.
  - reflexivity.
  - simpl. lia.
Defined.

(** ** Dropping a handle *)

(** C2: destroying a handle that references a record, without calling
    [disconnect], only decrements the record's [handleLinks]: the
    record keeps [isActive] and its callback; it is moved to the free list
    exactly when the count reaches zero while it is already inactive; and
    if it is active it stays in the connection list, so that a later
    trigger (whose callbacks leave the event alone) still invokes its
    callback. *)
Theorem handle_drop_keeps_subscription body fuel w al fl s p c :
  inv w al fl →
  mConnection (handle_at s w) = Some p →
  heap (ev w) !! p = Some c →
  ∃ w1 c1 al1 fl1,
    exec body fuel (CDestroy s) w = Ok w1
    ∧ heap (ev w1) !! p = Some c1
    ∧ handleLinks c1 = (handleLinks c - 1)%Z
    ∧ isActive c1 = isActive c
    ∧ func c1 = func c
    ∧ inv w1 al1 fl1
    ∧ (p ∈ fl1 ↔ handleLinks c1 = 0%Z ∧ isActive c = false)
    ∧ (isActive c = true →
         al1 = al ∧ fl1 = fl ∧ p ∈ al
         ∧ ((∀ g, g ∈ callbacks (heap (ev w)) al → body g = []) →
            length al ≤ fuel →
            ∃ w2, trigger body fuel w1 = Ok w2
                  ∧ log w2 = log w1 ++ callbacks (heap (ev w)) al
                  ∧ ∀ f, func c = Some f → f ∈ callbacks (heap (ev w)) al)).
Proof.
  intros Hinv Hp Hc.
  destruct (exec_destroy_Some fuel (trigger body fuel) w al fl s p Hinv Hp)
    as (l1 & l2 & c' & d' & -> & Hc' & Hrange & Hrun & Hupd & Hinv').
  assert (c' = c) as -> by congruence. clear Hc'.
  destruct (proj2 Hupd p c Hc) as (c1 & Hc1 & (Ha1 & Hl1 & Hf1)).
  rewrite decide_True in Ha1, Hl1, Hf1 by done. simpl in Ha1, Hl1, Hf1.
  rewrite u32_dec_pos in Hl1 by done.
  destruct (shape_middle_fresh _ _ _ _ _ (repr_shape _ _ _ (inv_repr _ _ _ Hinv)))
    as [Hp12 Hpf].
  set (w1 := mkWorld d' _ _) in *.
  exists w1, c1,
    (if decide (handleLinks c = 1%Z ∧ isActive c = false)
     then l1 ++ l2 else l1 ++ p :: l2),
    (if decide (handleLinks c = 1%Z ∧ isActive c = false) then p :: fl else fl).
  split; [exact Hrun|]. split; [exact Hc1|]. split; [done|]. split; [done|].
  split; [done|]. split; [by case_decide|]. split.
  { case_decide as Hcase.
    - split; [intros _; split; [lia|tauto]|intros _; left].
    - split; [by intros ?|]. intros [? ?]. exfalso. apply Hcase. split; [lia|done]. }
  intros Hact. rewrite !decide_False by (intros [_ ?]; congruence).
  rewrite decide_False in Hinv' by (intros [_ ?]; congruence).
  split; [done|]. split; [done|]. split; [apply elem_of_middle|].
  intros Hbody Hfuel.
  assert (Hcb : callbacks (heap (ev w1)) (l1 ++ p :: l2)
                = callbacks (heap (ev w)) (l1 ++ p :: l2)).
  { apply callbacks_ext.
    - intros x cx _ Hcx. destruct (proj2 Hupd x cx Hcx) as (cx' & Hcx' & (_ & _ & E)).
      exists cx'. split; [done|]. rewrite E. by case_decide.
    - intros x Hx. eapply repr_lookup; [apply Hinv|]. rewrite elem_of_app. by left. }
  eexists. split.
  { apply (trigger_passive body w1 (l1 ++ p :: l2) fl fuel); [apply Hinv'| |done].
    intros g. rewrite Hcb. apply Hbody. }
  cbn [log]. rewrite Hcb. split; [done|].
  intros f Hf. eapply elem_of_callbacks; [apply elem_of_middle|done..].
Qed.

Lemma handle_drop_keeps_subscription_witness :
  inv world_one [0] []
  ∧ mConnection (handle_at 0 world_one) = Some 0
  ∧ heap (ev world_one) !! 0 = Some (mkConn None None true 1%Z (Some 7))
  ∧ ∃ w1 c1 al1 fl1,
      exec passive 1 (CDestroy 0) world_one = Ok w1
      ∧ heap (ev w1) !! 0 = Some c1
      ∧ handleLinks c1 = 0%Z
      ∧ isActive c1 = true
      ∧ func c1 = Some 7
      ∧ inv w1 al1 fl1
      ∧ (0 ∈ fl1 ↔ handleLinks c1 = 0%Z ∧ true = false)
      ∧ (true = true →
           al1 = [0] ∧ fl1 = [] ∧ 0 ∈ [0]
           ∧ ((∀ g, g ∈ [7] → passive g = []) →
              1 ≤ 1 →
              ∃ w2, trigger passive 1 w1 = Ok w2
                    ∧ log w2 = log w1 ++ [7]
                    ∧ ∀ f, Some 7 = Some f → f ∈ [7])).
Proof.
  split; [apply inv_world_one|]. split; [reflexivity|]. split; [reflexivity|].
  apply (handle_drop_keeps_subscription passive 1 world_one [0] [] 0 0
           (mkConn None None true 1%Z (Some 7))).
  - apply inv_world_one.
  - reflexivity.
  - reflexivity.
Defined.

(** ** Disconnecting during a trigger *)

(** C3: a trigger whose callbacks disconnect (or drop) only their own
    handle or handles of subscriptions already visited, and may connect
    new callbacks, returns without a fault, leaves the lists well formed,
    and has invoked the callback of every record that was in the
    connection list exactly once, in list order. *)
Theorem self_disconnect_safe body fuel w al fl :
  inv w al fl →
  stays_behind body w al →
  length al ≤ fuel →
  ∃ w' al' fl',
    trigger body fuel w = Ok w'
    ∧ inv w' al' fl'
    ∧ log w' = log w ++ callbacks (heap (ev w)) al.
Proof.
  intros Hinv Hbody Hfuel. unfold trigger.
  rewrite (shape_head _ _ _ (repr_shape _ _ _ (inv_repr _ _ _ Hinv))).
  by apply (walk_behind body al [] w fl fuel).
Qed.

Lemma self_disconnect_safe_witness :
  inv world_two [1; 0] []
  ∧ stays_behind self_disconnecting world_two [1; 0]
  ∧ ∃ w' al' fl',
      trigger self_disconnecting 2 world_two = Ok w'
      ∧ inv w' al' fl'
      ∧ log w' = [20; 10].
Proof.
  assert (Hb : stays_behind self_disconnecting world_two [1; 0]).
  { intros i p c f Hi Hc Hf cm Hcm.
    destruct i as [|[|i]]; simpl in Hi; [| |done]; injection Hi as <-;
      vm_compute in Hc; injection Hc as <-; injection Hf as <-;
      simpl in Hcm.
    - by apply elem_of_nil in Hcm.
    - repeat (apply elem_of_cons in Hcm as [->|Hcm];
                [simpl; try done; intros q _; apply not_elem_of_nil|]).
      by apply elem_of_nil in Hcm. }
  split; [apply inv_world_two|]. split; [exact Hb|].
  apply (self_disconnect_safe self_disconnecting 2 world_two [1; 0] []).
  - apply inv_world_two.
  - exact Hb.
  - simpl. lia.
Defined.

(** ** Connecting during a trigger *)

(** C4, the code at the failing input: callback 1 disconnects the
    subscription that follows it in the list and connects callback 3,
    which takes over the record just freed; the trigger in progress goes
    on to that record, invokes the new callback 3, and then callback 1 a
    second time. *)
Theorem connect_in_trigger_is_invoked :
  ∃ w0 w,
    run recycling 3 [CConnect (Some 1) 2; CConnect None 1] world_new = Ok w0
    ∧ log w0 = []
    ∧ callbacks (heap (ev w0)) [1; 0] = [1; 2]
    ∧ trigger recycling 3 w0 = Ok w
    ∧ log w = [1; 3; 1].
Proof. eexists _, _. split; [by vm_compute|]. by vm_compute. Qed.

(** ** The emptiness check *)

(** C5, the code at the failing input: after
    [h = event.connect(7); event.clear();] no callback is registered (a
    trigger invokes nothing, whatever the callbacks are), but [empty()]
    is false, and it stays false until [h] is destroyed: [clear()] has
    kept the record that [h] references in the list headed by
    [mConnections]. *)
Theorem empty_false_after_clear body :
  run body 1 [CConnect (Some 0) 7; CClear] world_new = Ok world_cleared
  ∧ callbacks (heap (ev world_cleared)) [0] = []
  ∧ trigger body 1 world_cleared = Ok world_cleared
  ∧ TEvent_empty (ev world_cleared) = false
  ∧ ∃ w, run body 1 [CDestroy 0] world_cleared = Ok w
         ∧ TEvent_empty (ev w) = true.
Proof.
  split; [by vm_compute|]. split; [by vm_compute|]. split; [by vm_compute|].
  split; [by vm_compute|]. eexists. split; by vm_compute.
Qed.

(** What [empty()] tests: it is true exactly when the list headed by
    [mConnections] has no record, whatever the free list holds; it is
    true on a new event and false as long as some record is active;
    after [clear()] it is true exactly when no record of the list was
    still referenced by a handle, and no record is active any more. *)
Theorem empty_iff_no_connection_record fuel trig w al fl :
  inv w al fl → length al ≤ fuel →
  (TEvent_empty (ev w) = true ↔ al = [])
  ∧ TEvent_empty (ev world_new) = true
  ∧ ((∃ p c, heap (ev w) !! p = Some c ∧ isActive c = true) →
     TEvent_empty (ev w) = false)
  ∧ ∃ w',
      exec_cmd fuel trig CClear w = Ok w'
      ∧ (TEvent_empty (ev w') = true ↔ ∀ p, p ∈ al → links_of p (ev w) = 0%Z)
      ∧ ∀ p c, heap (ev w') !! p = Some c → isActive c = false.
Proof.
  intros Hinv Hfuel. pose proof (inv_repr _ _ _ Hinv) as Hr.
  pose proof (repr_shape _ _ _ Hr) as Hs.
  split; [by eapply TEvent_empty_head|]. split; [done|]. split.
  { intros (p & c & Hc & Ha).
    assert (Hin : p ∈ al ++ fl).
    { eapply shape_elem_of; [done|]. by eapply lookup_lt_Some. }
    apply elem_of_app in Hin as [Hin|Hin].
    - apply not_true_is_false. rewrite (TEvent_empty_head _ _ _ Hs).
      intros ->. by apply elem_of_nil in Hin.
    - destruct (repr_dead _ _ _ Hr p c Hin Hc) as (? & _). congruence. }
  pose proof (exec_clear_spec fuel trig w al fl Hinv) as Hspec.
  destruct (exec_cmd fuel trig CClear w) as [w'| |]; [|done|lia].
  destruct Hspec as (_ & Hinv' & _ & _ & Hlen' & Hdata').
  exists w'. split; [done|]. split.
  - rewrite (TEvent_empty_head _ _ _ (repr_shape _ _ _ (inv_repr _ _ _ Hinv'))).
    rewrite filter_nil_iff. split; intros Hall p Hp; specialize (Hall p Hp); lia.
  - intros p c' Hc'.
    destruct (lookup_lt_is_Some_2 (heap (ev w)) p) as [c Hc].
    { rewrite <- Hlen'. by eapply lookup_lt_Some. }
    destruct (Hdata' p c Hc) as (c'' & ? & (Ha & _)). simplify_eq.
    rewrite Ha. case_decide as Hin; [done|].
    assert (Hfl : p ∈ fl).
    { assert (p ∈ al ++ fl) as [?|?]%elem_of_app; [|done..].
      eapply shape_elem_of; [done|]. by eapply lookup_lt_Some. }
    by destruct (repr_dead _ _ _ Hr p c Hfl Hc) as (? & _).
Qed.

Lemma empty_iff_no_connection_record_witness :
  inv world_one [0] [] ∧ length [0] ≤ 1
  ∧ (TEvent_empty (ev world_one) = true ↔ [0] = [])
  ∧ TEvent_empty (ev world_new) = true
  ∧ ((∃ p c, heap (ev world_one) !! p = Some c ∧ isActive c = true) →
     TEvent_empty (ev world_one) = false)
  ∧ ∃ w',
      exec_cmd 1 Ok CClear world_one = Ok w'
      ∧ (TEvent_empty (ev w') = true
         ↔ ∀ p, p ∈ [0] → links_of p (ev world_one) = 0%Z)
      ∧ ∀ p c, heap (ev w') !! p = Some c → isActive c = false.
Proof.
  split; [apply inv_world_one|]. split; [reflexivity|].
  apply (empty_iff_no_connection_record 1 Ok world_one [0] []).
  - apply inv_world_one.
  - reflexivity.
Defined.

(** ** Assignment of handles *)

(** C6, the code at the failing input: with [h0] on record 0 and [h1] on
    record 1, each with count 1, [h0 = h1] raises the count of record 1
    to 2 and leaves the count of record 0 at 1, although no handle
    references record 0 any more. *)
Theorem assign_keeps_previous_count :
  ∃ w1 w2,
    run passive 0 [CConnect (Some 0) 1; CConnect (Some 1) 2] world_new = Ok w1
    ∧ mConnection (handle_at 0 w1) = Some 0 ∧ links_of 0 (ev w1) = 1%Z
    ∧ mConnection (handle_at 1 w1) = Some 1 ∧ links_of 1 (ev w1) = 1%Z
    ∧ run passive 0 [CAssign 0 1] w1 = Ok w2
    ∧ mConnection (handle_at 0 w2) = Some 1
    ∧ links_of 1 (ev w2) = 2%Z
    ∧ links_of 0 (ev w2) = 1%Z
    ∧ refs 0 (handles w2) = 0.
Proof. eexists _, _. split; [by vm_compute|]. by vm_compute. Qed.

(** ** Disconnecting through a handle *)

(** C7: disconnecting a subscription through its handle deactivates the
    record (its callback is cleared, so that no trigger invokes it any
    more), decrements [handleLinks] and empties the handle.  If the count
    reaches zero the record leaves the connection list and becomes the
    head of the free list; if it is still positive the record stays in the
    connection list, inactive, and is moved to the free list when the
    last handle that references it is destroyed. *)
Theorem disconnect_deactivates fuel trig w al fl s p c :
  inv w al fl →
  mConnection (handle_at s w) = Some p →
  heap (ev w) !! p = Some c →
  ∃ w1 c1 l1 l2,
    al = l1 ++ p :: l2
    ∧ exec_cmd fuel trig (CDisconnect s) w = Ok w1
    ∧ handle_at s w1 = HEvent_null
    ∧ heap (ev w1) !! p = Some c1
    ∧ isActive c1 = false ∧ func c1 = None
    ∧ handleLinks c1 = (handleLinks c - 1)%Z
    ∧ callbacks (heap (ev w1)) [p] = []
    ∧ (handleLinks c1 = 0%Z → inv w1 (l1 ++ l2) (p :: fl))
    ∧ (handleLinks c1 ≠ 0%Z →
         inv w1 al fl ∧ (0 < handleLinks c1)%Z
         ∧ ∀ fuel' trig' w2 al2 fl2 s2 c2,
             inv w2 al2 fl2 →
             mConnection (handle_at s2 w2) = Some p →
             heap (ev w2) !! p = Some c2 →
             isActive c2 = false → handleLinks c2 = 1%Z →
             ∃ w3 k1 k2,
               al2 = k1 ++ p :: k2
               ∧ exec_cmd fuel' trig' (CDestroy s2) w2 = Ok w3
               ∧ inv w3 (k1 ++ k2) (p :: fl2)).
Proof.
  intros Hinv Hp Hc.
  destruct (exec_disconnect_Some fuel trig w al fl s p Hinv Hp)
    as (l1 & l2 & c' & d' & -> & Hc' & Hrange & Hrun & Hupd & Hinv').
  assert (c' = c) as -> by congruence. clear Hc'.
  destruct (proj2 Hupd p c Hc) as (c1 & Hc1 & (Ha1 & Hl1 & Hf1)).
  rewrite decide_True in Ha1, Hl1, Hf1 by done. simpl in Ha1, Hl1, Hf1.
  rewrite u32_dec_pos in Hl1 by done.
  set (w1 := mkWorld d' _ _) in *.
  exists w1, c1, l1, l2.
  split; [done|]. split; [exact Hrun|]. split.
  { unfold w1. rewrite handle_at_insert. by rewrite decide_True. }
  split; [exact Hc1|]. split; [done|]. split; [done|]. split; [done|]. split.
  { rewrite callbacks_cons. simpl. rewrite Hc1. simpl. by rewrite Hf1. }
  split.
  - intros Hz. rewrite decide_True in Hinv' by lia. exact Hinv'.
  - intros Hnz. rewrite decide_False in Hinv' by lia.
    split; [exact Hinv'|]. split; [lia|].
    intros fuel' trig' w2 al2 fl2 s2 c2 Hinv2 Hp2 Hc2 Ha2 Hl2.
    destruct (exec_destroy_Some fuel' trig' w2 al2 fl2 s2 p Hinv2 Hp2)
      as (k1 & k2 & c2' & d2 & -> & Hc2' & _ & Hrun2 & _ & Hinv2').
    assert (c2' = c2) as -> by congruence.
    rewrite decide_True in Hinv2' by done.
    eexists _, k1, k2. split; [done|]. split; [exact Hrun2|exact Hinv2'].
Qed.

Lemma disconnect_deactivates_witness :
  inv world_shared [0] []
  ∧ mConnection (handle_at 0 world_shared) = Some 0
  ∧ heap (ev world_shared) !! 0 = Some (mkConn None None true 2%Z (Some 7))
  ∧ ∃ w1 c1 l1 l2,
      [0] = l1 ++ 0 :: l2
      ∧ exec_cmd 0 Ok (CDisconnect 0) world_shared = Ok w1
      ∧ handle_at 0 w1 = HEvent_null
      ∧ heap (ev w1) !! 0 = Some c1
      ∧ isActive c1 = false ∧ func c1 = None
      ∧ handleLinks c1 = 1%Z
      ∧ callbacks (heap (ev w1)) [0] = []
      ∧ (handleLinks c1 = 0%Z → inv w1 (l1 ++ l2) [0])
      ∧ (handleLinks c1 ≠ 0%Z →
           inv w1 [0] [] ∧ (0 < handleLinks c1)%Z
           ∧ ∀ fuel' trig' w2 al2 fl2 s2 c2,
               inv w2 al2 fl2 →
               mConnection (handle_at s2 w2) = Some 0 →
               heap (ev w2) !! 0 = Some c2 →
               isActive c2 = false → handleLinks c2 = 1%Z →
               ∃ w3 k1 k2,
                 al2 = k1 ++ 0 :: k2
                 ∧ exec_cmd fuel' trig' (CDestroy s2) w2 = Ok w3
                 ∧ inv w3 (k1 ++ k2) (0 :: fl2)).
Proof.
  split; [apply inv_world_shared|]. split; [reflexivity|]. split; [reflexivity|].
  apply (disconnect_deactivates 0 Ok world_shared [0] [] 0 0
           (mkConn None None true 2%Z (Some 7))).
  - apply inv_world_shared.
  - reflexivity.
  - reflexivity.
Defined.

(** ** Inactive records without handles *)

(** C8: from the empty event, whatever sequence of connect, disconnect,
    handle destruction, clear and trigger is run (callbacks running such
    statements too), nothing faults (in particular the assertion of the
    destructor, [!handleLinks && !isActive], holds whenever [free] moves
    a record), and in the state that is reached the records with
    [handleLinks == 0] and [isActive == false] are exactly the records
    of the free list: none of them is in the connection list. *)
Theorem inactive_unreferenced_is_free body fuel cs :
  (∀ c, c ∈ cs → is_assign c = false) →
  (∀ f c, c ∈ body f → is_assign c = false) →
  match run body fuel cs world_new with
  | Ok w =>
      ∃ al fl,
        inv w al fl
        ∧ ∀ p c, heap (ev w) !! p = Some c →
            (handleLinks c = 0%Z ∧ isActive c = false ↔ p ∈ fl)
            ∧ (p ∈ fl ↔ p ∉ al)
  | Fault => False
  | OutOfFuel => True
  end.
Proof.
  intros Hcs Hbody.
  pose proof (run_safe body Hbody fuel cs world_new [] [] inv_world_new Hcs) as Hsafe.
  destruct (run body fuel cs world_new) as [w| |]; [|done..].
  destruct Hsafe as [(al & fl & Hinv) _]. exists al, fl. split; [done|].
  intros p c Hc. pose proof (inv_repr _ _ _ Hinv) as Hr.
  assert (Hin : p ∈ al ++ fl).
  { eapply shape_elem_of; [apply Hr|]. by eapply lookup_lt_Some. }
  destruct (shape_split_NoDup _ _ _ (repr_shape _ _ _ Hr)) as (_ & _ & Hdisj).
  apply elem_of_app in Hin as [Hin|Hin].
  - destruct (repr_live _ _ _ Hr p c Hin Hc) as [_ Hlive].
    split; split.
    + intros [Hz Ha]. destruct (Hlive Ha) as [_ ?]. done.
    + intros Hf. by destruct (Hdisj p Hin).
    + intros Hf. by destruct (Hdisj p Hin).
    + done.
  - destruct (repr_dead _ _ _ Hr p c Hin Hc) as (Ha & Hz & _).
    split; split; try done. intros _ Hal. by destruct (Hdisj p Hal).
Qed.

Lemma inactive_unreferenced_is_free_witness :
  (∀ c, c ∈ mixed_script → is_assign c = false)
  ∧ (∀ f c, c ∈ recycling f → is_assign c = false)
  ∧ ∃ w, run recycling 8 mixed_script world_new = Ok w
         ∧ ∃ al fl,
             inv w al fl
             ∧ ∀ p c, heap (ev w) !! p = Some c →
                 (handleLinks c = 0%Z ∧ isActive c = false ↔ p ∈ fl)
                 ∧ (p ∈ fl ↔ p ∉ al).
Proof.
  assert (H1 : ∀ c, c ∈ mixed_script → is_assign c = false).
  { intros c Hc. unfold mixed_script in Hc.
    repeat (apply elem_of_cons in Hc as [->|Hc]; [reflexivity|]).
    by apply elem_of_nil in Hc. }
  assert (H2 : ∀ f c, c ∈ recycling f → is_assign c = false).
  { intros f c Hc. destruct f as [|[|f]]; simpl in Hc.
    - by apply elem_of_nil in Hc.
    - repeat (apply elem_of_cons in Hc as [->|Hc]; [reflexivity|]).
      by apply elem_of_nil in Hc.
    - by apply elem_of_nil in Hc. }
  split; [exact H1|]. split; [exact H2|].
  pose proof (inactive_unreferenced_is_free recycling 8 mixed_script H1 H2) as H.
  destruct (run recycling 8 mixed_script world_new) as [w| |] eqn:E.
  - exists w. split; [reflexivity|]. exact H.
  - destruct H.
  - vm_compute in E. discriminate E.
Defined.

(** ** Reuse of records *)

(** C9: [connect] takes its record from the head of the free list when
    there is one, constructing it anew, and allocates only when the free
    list is empty.  Hence, on an event whose subscriptions have one
    handle each, after all of them are disconnected through their handles
    (in any order) and as many new ones are connected, the connection
    list holds exactly the new subscriptions, the last one connected
    first; no record was allocated, each record is in one list once, and
    the free list is as long as before. *)
Theorem reconnect_reuses_records body fuel w al fl
    (order : list nat) (cs : list (option nat * nat)) :
  inv w al fl →
  NoDup order → length order = length al →
  (∀ s, s ∈ order → is_Some (mConnection (handle_at s w))) →
  (∀ p, p ∈ al → links_of p (ev w) = 1%Z) →
  length cs = length al →
  (∀ d al fl f, repr d al fl →
     ∃ d', TEvent_connect f d
           = Ok (mkHEvent (Some (hd (length (heap d)) fl)) true, d')
       ∧ repr d' (hd (length (heap d)) fl :: al) (tail fl)
       ∧ length (heap d')
         = match fl with [] => S (length (heap d)) | _ => length (heap d) end)
  ∧ ∃ w' al' fl',
      run body fuel ((CDisconnect <$> order) ++ connects cs) w = Ok w'
      ∧ inv w' al' fl'
      ∧ NoDup (al' ++ fl')
      ∧ length al' = length cs
      ∧ length fl' = length fl
      ∧ length (heap (ev w')) = length (heap (ev w))
      ∧ callbacks (heap (ev w')) al' = reverse cs.*2.
Proof.
  intros Hinv Hnd Hlo Hh Hone Hlen. split.
  { intros d al0 fl0 f Hr.
    destruct (connect_spec d al0 fl0 f Hr) as (d' & Hrun & Hr' & Hl' & _).
    exists d'. by split_and!. }
  destruct (run_disconnect_all body fuel order w al fl Hnd Hinv Hone Hh)
    as (w2 & al2 & fl2 & Hrun2 & Hinv2 & _ & Hlal2 & Hlfl2 & Hlen2 & _).
  assert (al2 = []) as -> by (apply nil_length_inv; lia).
  destruct (run_connects body fuel cs w2 [] fl2 Hinv2)
    as (w3 & al3 & Hrun3 & Hinv3 & _ & Hlal3 & Hlen3 & Hcb3).
  rewrite app_nil_r in Hinv3, Hcb3.
  exists w3, al3, (drop (length cs) fl2).
  rewrite run_app, Hrun2, bind_Ok_l.
  split; [done|]. split; [done|]. split.
  { apply (shape_NoDup _ _ _ (repr_shape _ _ _ (inv_repr _ _ _ Hinv3))). }
  split; [done|]. split; [rewrite length_drop; lia|].
  split; [lia|]. rewrite Hcb3. simpl. by rewrite app_nil_r.
Qed.

Lemma reconnect_reuses_records_witness :
  inv world_two [1; 0] []
  ∧ NoDup [0; 1] ∧ length [0; 1] = length [1; 0]
  ∧ (∀ s, s ∈ [0; 1] → is_Some (mConnection (handle_at s world_two)))
  ∧ (∀ p, p ∈ [1; 0] → links_of p (ev world_two) = 1%Z)
  ∧ length [(None, 40); (Some 5, 50)] = length [1; 0]
  ∧ (∀ d al fl f, repr d al fl →
       ∃ d', TEvent_connect f d
             = Ok (mkHEvent (Some (hd (length (heap d)) fl)) true, d')
         ∧ repr d' (hd (length (heap d)) fl :: al) (tail fl)
         ∧ length (heap d')
           = match fl with [] => S (length (heap d)) | _ => length (heap d) end)
  ∧ ∃ w' al' fl',
      run passive 0 ((CDisconnect <$> [0; 1]) ++ connects [(None, 40); (Some 5, 50)])
          world_two = Ok w'
      ∧ inv w' al' fl'
      ∧ NoDup (al' ++ fl')
      ∧ length al' = 2
      ∧ length fl' = 0
      ∧ length (heap (ev w')) = 2
      ∧ callbacks (heap (ev w')) al' = [50; 40].
Proof.
  assert (H1 : NoDup [0; 1]) by exact (NoDup_seq 0 2).
  assert (H2 : ∀ s, s ∈ [0; 1] → is_Some (mConnection (handle_at s world_two))).
  { intros s Hs. repeat (apply elem_of_cons in Hs as [->|Hs]; [by eexists|]).
    by apply elem_of_nil in Hs. }
  assert (H3 : ∀ p, p ∈ [1; 0] → links_of p (ev world_two) = 1%Z).
  { intros p Hp. repeat (apply elem_of_cons in Hp as [->|Hp]; [reflexivity|]).
    by apply elem_of_nil in Hp. }
  split; [apply inv_world_two|]. split; [exact H1|]. split; [reflexivity|].
  split; [exact H2|]. split; [exact H3|]. split; [reflexivity|].
  apply (reconnect_reuses_records passive 0 world_two [1; 0] [] [0; 1]
           [(None, 40); (Some 5, 50)] inv_world_two H1 eq_refl H2 H3 eq_refl).
Defined.

(** The same from the empty event: [n] subscriptions connected with their
    handles kept, disconnected in any order, and [n] connected again use
    [n] records in all. *)
Lemma reconnect_from_empty body fuel
    (cs1 : list (nat * nat)) (order : list nat) (cs2 : list (option nat * nat)) :
  NoDup cs1.*1 → order ≡ₚ cs1.*1 → length cs2 = length cs1 →
  ∃ w al,
    run body fuel
        (connects_kept cs1 ++ (CDisconnect <$> order) ++ connects cs2)
        world_new = Ok w
    ∧ inv w al []
    ∧ length al = length cs2
    ∧ length (heap (ev w)) = length cs1
    ∧ callbacks (heap (ev w)) al = reverse cs2.*2.
Proof.
  intros Hnd Hperm Hlen.
  destruct (run_connects_kept body fuel cs1 world_new [] [] Hnd inv_world_new)
    as (w1 & al1 & Hrun1 & Hinv1 & _ & Hlal1 & Hlen1 & Hh1 & _ & Hone1 & _).
  rewrite app_nil_r, drop_nil in Hinv1. simpl in Hlen1.
  assert (Hndo : NoDup order) by (by rewrite Hperm).
  destruct (run_disconnect_all body fuel order w1 al1 [] Hndo Hinv1 Hone1)
    as (w2 & al2 & fl2 & Hrun2 & Hinv2 & _ & Hlal2 & Hlfl2 & Hlen2 & _).
  { intros s Hs. apply Hh1. by rewrite <- Hperm. }
  assert (Hlo : length order = length cs1).
  { rewrite Hperm. by rewrite length_fmap. }
  assert (al2 = []) as -> by (apply nil_length_inv; lia).
  destruct (run_connects body fuel cs2 w2 [] fl2 Hinv2)
    as (w3 & al3 & Hrun3 & Hinv3 & _ & Hlal3 & Hlen3 & Hcb3).
  rewrite app_nil_r in Hinv3, Hcb3. rewrite drop_ge in Hinv3 by (simpl in *; lia).
  exists w3, al3. rewrite run_app, Hrun1, bind_Ok_l, run_app, Hrun2, bind_Ok_l.
  split; [done|]. split; [done|]. split; [done|]. split; [simpl in *; lia|].
  rewrite Hcb3. simpl. by rewrite app_nil_r.
Qed.

(** * Further properties *)

(** ** Repeated calls *)

(** X1: [h.disconnect()] may be repeated.  On a consistent event the
    first call returns and leaves the handle empty; a second call on the
    same handle then changes nothing at all, and so does the destruction
    of the handle, which only removes the variable. *)
Theorem disconnect_twice_is_once fuel trig w al fl s :
  inv w al fl →
  ∃ w1,
    exec_cmd fuel trig (CDisconnect s) w = Ok w1
    ∧ HEvent_bool (handle_at s w1) = false
    ∧ exec_cmd fuel trig (CDisconnect s) w1 = Ok w1
    ∧ exec_cmd fuel trig (CDestroy s) w1
      = Ok (mkWorld (ev w1) (delete s (handles w1)) (log w1)).
Proof.
  intros Hinv.
  destruct (mConnection (handle_at s w)) as [p|] eqn:Hh.
  - destruct (exec_disconnect_Some fuel trig w al fl s p Hinv Hh)
      as (l1 & l2 & c & d' & _ & _ & _ & Hrun & _).
    eexists. split; [exact Hrun|].
    assert (Hat : handle_at s (mkWorld d' (<[s := HEvent_null]> (handles w)) (log w))
                  = HEvent_null).
    { rewrite handle_at_insert. by rewrite decide_True. }
    split; [by rewrite Hat|].
    unfold exec_cmd. rewrite Hat. simpl.
    by rewrite insert_insert_eq.
  - destruct (exec_disconnect_None fuel trig w al fl s Hinv Hh) as [Hrun _].
    eexists. split; [exact Hrun|].
    assert (Hat : handle_at s (mkWorld (ev w) (<[s := handle_at s w]> (handles w)) (log w))
                  = handle_at s w).
    { rewrite handle_at_insert. by rewrite decide_True. }
    split; [unfold HEvent_bool; by rewrite Hat, Hh|].
    unfold exec_cmd. rewrite Hat. unfold HEvent_disconnect, HEvent_dtor.
    rewrite Hh. simpl. by rewrite insert_insert_eq.
Qed.

Lemma disconnect_twice_is_once_witness :
  inv world_shared [0] []
  ∧ ∃ w1,
      exec_cmd 0 Ok (CDisconnect 1) world_shared = Ok w1
      ∧ HEvent_bool (handle_at 1 w1) = false
      ∧ exec_cmd 0 Ok (CDisconnect 1) w1 = Ok w1
      ∧ exec_cmd 0 Ok (CDestroy 1) w1
        = Ok (mkWorld (ev w1) (delete 1 (handles w1)) (log w1)).
Proof.
  split; [exact inv_world_shared|].
  apply (disconnect_twice_is_once 0 Ok world_shared [0] [] 1 inv_world_shared).
Defined.

(** X2: [EventInternalData::disconnect] must be called once only, as
    its note says.  On a record with one handle the first call moves the
    record to the free list; a second call does not fault but wraps the
    count of the record, which is then in the free list with
    [handleLinks == 2^32 - 1].  ([HEvent::disconnect] empties the handle
    and so never makes the second call.) *)
Theorem disconnect_record_twice d l1 p l2 fl c :
  repr d (l1 ++ p :: l2) fl → heap d !! p = Some c → handleLinks c = 1%Z →
  ∃ d1 d2,
    disconnect p d = Ok d1
    ∧ repr d1 (l1 ++ l2) (p :: fl)
    ∧ disconnect p d1 = Ok d2
    ∧ mFreeConnections d2 = Some p
    ∧ links_of p d2 = (UINT32_MOD - 1)%Z.
Proof.
  intros Hr Hc Hone.
  destruct (disconnect_spec d l1 p l2 fl c Hr Hc) as (d1 & Hrun1 & _ & Hr1).
  rewrite decide_True in Hr1 by done.
  destruct (repr_lookup _ _ _ p Hr1) as [c1 Hc1].
  { rewrite elem_of_app. right; left. }
  destruct (repr_dead _ _ _ Hr1 p c1) as (_ & Hz & _); [left|done|].
  exists d1. eexists. split; [done|]. split; [done|].
  unfold disconnect.
  rewrite (store_Ok _ _ _ c1) by done. rewrite bind_Ok_l.
  rewrite (store_Ok _ _ _ (deactivate c1))
    by (simpl; rewrite list_lookup_insert_eq; [done|by eapply lookup_lt_Some]).
  rewrite bind_Ok_l.
  rewrite (deref_Ok _ _ (dec_links (deactivate c1)))
    by (simpl; rewrite list_lookup_insert_eq;
        [done|rewrite length_insert; by eapply lookup_lt_Some]).
  rewrite bind_Ok_l.
  assert (Hk : handleLinks (dec_links (deactivate c1)) = (UINT32_MOD - 1)%Z).
  { simpl. rewrite Hz. reflexivity. }
  rewrite bool_decide_eq_false_2 by (rewrite Hk; unfold UINT32_MOD; lia).
  split; [reflexivity|]. split.
  - simpl. by rewrite (shape_free_head _ _ _ (repr_shape _ _ _ Hr1)).
  - unfold links_of. simpl. rewrite list_lookup_insert_eq; [done|].
    rewrite length_insert. by eapply lookup_lt_Some.
Qed.

Lemma disconnect_record_twice_witness :
  repr (ev world_two) ([1] ++ 0 :: []) []
  ∧ heap (ev world_two) !! 0 = Some (mkConn (Some 1) None true 1%Z (Some 10))
  ∧ handleLinks (mkConn (Some 1) None true 1%Z (Some 10)) = 1%Z
  ∧ ∃ d1 d2,
      disconnect 0 (ev world_two) = Ok d1
      ∧ repr d1 ([1] ++ []) (0 :: [])
      ∧ disconnect 0 d1 = Ok d2
      ∧ mFreeConnections d2 = Some 0
      ∧ links_of 0 d2 = (UINT32_MOD - 1)%Z.
Proof.
  assert (Hr : repr (ev world_two) ([1] ++ 0 :: []) []) by apply inv_world_two.
  split; [exact Hr|]. split; [reflexivity|]. split; [reflexivity|].
  apply (disconnect_record_twice (ev world_two) [1] 0 [] []
           (mkConn (Some 1) None true 1%Z (Some 10)) Hr); reflexivity.
Defined.

(** X3: after [clear()] a trigger invokes no callback and changes
    nothing, whatever the callbacks were and whichever handles are still
    held; and a second [clear()] changes nothing either. *)
Theorem nothing_left_after_clear body fuel w al fl :
  inv w al fl → length al ≤ fuel →
  ∃ w',
    exec body fuel CClear w = Ok w'
    ∧ log w' = log w
    ∧ trigger body fuel w' = Ok w'
    ∧ exec body fuel CClear w' = Ok w'.
Proof.
  intros Hinv Hfuel.
  pose proof (exec_clear_spec fuel (trigger body fuel) w al fl Hinv) as Hspec.
  unfold exec.
  destruct (exec_cmd fuel (trigger body fuel) CClear w) as [w'| |];
    [|done|lia].
  destruct Hspec as (_ & Hinv' & _ & Hlog & Hlen & Hdata).
  exists w'. split; [done|]. split; [done|].
  pose proof (inv_repr _ _ _ Hinv') as Hr'.
  set (al' := filter (λ q, links_of q (ev w) ≠ 0%Z) al) in *.
  assert (Hidle : ∀ p c, p ∈ al' → heap (ev w') !! p = Some c →
            isActive c = false ∧ func c = None ∧ handleLinks c ≠ 0%Z).
  { intros p c Hp Hc. apply list_elem_of_filter in Hp as [Hl Hp].
    destruct (cleared_record w w' al p c Hdata Hlen Hp Hc) as (? & ? & Hk).
    split; [done|]. split; [done|]. by rewrite Hk. }
  assert (Hcb : callbacks (heap (ev w')) al' = []).
  { apply callbacks_nil. intros p c Hp Hc. by destruct (Hidle p c Hp Hc) as (_ & ? & _). }
  assert (Hlen' : length al' ≤ fuel).
  { etrans; [apply length_filter|done]. }
  split.
  - rewrite (trigger_passive body w' _ _ fuel Hr').
    + rewrite Hcb, app_nil_r. by rewrite world_eta.
    + rewrite Hcb. intros f Hf. by apply elem_of_nil in Hf.
    + done.
  - unfold exec_cmd, clear.
    rewrite (shape_head _ _ _ (repr_shape _ _ _ Hr')).
    rewrite (clear_loop_idle (ev w') al' fuel); [|
      exact (dlseg_sll _ _ _ (shape_active _ _ _ (repr_shape _ _ _ Hr')))|done|done].
    simpl. by destruct w'.
Qed.

Lemma nothing_left_after_clear_witness :
  inv world_shared [0] [] ∧ length [0] ≤ 1
  ∧ ∃ w',
      exec recycling 1 CClear world_shared = Ok w'
      ∧ log w' = log world_shared
      ∧ trigger recycling 1 w' = Ok w'
      ∧ exec recycling 1 CClear w' = Ok w'.
Proof.
  split; [exact inv_world_shared|]. split; [simpl; lia|].
  apply (nothing_left_after_clear recycling 1 world_shared [0] [] inv_world_shared).
  simpl. lia.
Defined.

(** X4: an event can be triggered again and again.  When the callbacks
    leave the event alone, a trigger changes neither the records nor the
    handles, and a second trigger invokes the same callbacks once more,
    in the same order. *)
Theorem trigger_is_repeatable body fuel w al fl :
  repr (ev w) al fl →
  (∀ f, f ∈ callbacks (heap (ev w)) al → body f = []) →
  length al ≤ fuel →
  ∃ w1 w2,
    trigger body fuel w = Ok w1
    ∧ ev w1 = ev w ∧ handles w1 = handles w
    ∧ trigger body fuel w1 = Ok w2
    ∧ ev w2 = ev w ∧ handles w2 = handles w
    ∧ log w2 = log w ++ callbacks (heap (ev w)) al ++ callbacks (heap (ev w)) al.
Proof.
  intros Hr Hpass Hfuel.
  eexists _, _. split; [by apply (trigger_passive body w al fl fuel)|].
  split; [done|]. split; [done|].
  split; [by apply (trigger_passive body _ al fl fuel)|].
  split; [done|]. split; [done|]. simpl. by rewrite <- app_assoc.
Qed.

Lemma trigger_is_repeatable_witness :
  repr (ev world_two) [1; 0] []
  ∧ (∀ f, f ∈ callbacks (heap (ev world_two)) [1; 0] → passive f = [])
  ∧ length [1; 0] ≤ 2
  ∧ ∃ w1 w2,
      trigger passive 2 world_two = Ok w1
      ∧ ev w1 = ev world_two ∧ handles w1 = handles world_two
      ∧ trigger passive 2 w1 = Ok w2
      ∧ ev w2 = ev world_two ∧ handles w2 = handles world_two
      ∧ log w2 = log world_two ++ callbacks (heap (ev world_two)) [1; 0]
                 ++ callbacks (heap (ev world_two)) [1; 0].
Proof.
  assert (Hr : repr (ev world_two) [1; 0] []) by apply inv_world_two.
  split; [exact Hr|]. split; [done|]. split; [simpl; lia|].
  apply (trigger_is_repeatable passive 2 world_two [1; 0] [] Hr); [done|].
  simpl. lia.
Defined.

(** ** Destruction of the event *)

(** X5: [~EventInternalData] hands every allocated record to [bs_free]
    exactly once, the records of the connection list first and those of
    the free list after them, and reads no record it has released;
    whatever the reference counts and the activity of the records are. *)
Theorem teardown_releases_each_record_once d al fl fuel :
  shape d al fl → length (heap d) ≤ fuel →
  EventInternalData_dtor fuel d = Ok (al ++ fl)
  ∧ NoDup (al ++ fl)
  ∧ ∀ p, p ∈ al ++ fl ↔ is_Some (heap d !! p).
Proof.
  intros Hs Hfuel. pose proof (dtor_spec d al fl fuel Hs) as H.
  pose proof (shape_lengths _ _ _ Hs) as Hlen.
  split; [|split].
  - destruct (EventInternalData_dtor fuel d) as [r| |].
    + by destruct H as (_ & _ & ->).
    + done.
    + lia.
  - by eapply shape_NoDup.
  - intros p. rewrite lookup_lt_is_Some. by apply shape_elem_of.
Qed.

Lemma teardown_releases_each_record_once_witness :
  shape (ev world_two) [1; 0] [] ∧ length (heap (ev world_two)) ≤ 2
  ∧ EventInternalData_dtor 2 (ev world_two) = Ok ([1; 0] ++ [])
  ∧ NoDup ([1; 0] ++ [])
  ∧ ∀ p, p ∈ [1; 0] ++ [] ↔ is_Some (heap (ev world_two) !! p).
Proof.
  assert (Hs : shape (ev world_two) [1; 0] []) by apply inv_world_two.
  split; [exact Hs|]. split; [simpl; lia|].
  apply (teardown_releases_each_record_once (ev world_two) [1; 0] [] 2 Hs).
  simpl. lia.
Defined.

(** X6: the destruction of an event: [~TEvent], and then
    [~EventInternalData] (which follows at once when no handle shares the
    data).  [~TEvent] leaves every record inactive and without a
    callback, so that no callback object is left in storage that is
    released without a destructor call, and every allocated record is
    then released exactly once. *)
Theorem event_destruction d al fl fuel :
  repr d al fl → length (heap d) ≤ fuel →
  ∃ d' l,
    TEvent_dtor fuel d = Ok d'
    ∧ length (heap d') = length (heap d)
    ∧ (∀ p c, heap d' !! p = Some c → func c = None ∧ isActive c = false)
    ∧ EventInternalData_dtor fuel d' = Ok l
    ∧ l ≡ₚ seq 0 (length (heap d)).
Proof.
  intros Hr Hfuel.
  pose proof (clear_loop_spec al [] d fl fuel Hr) as Hc.
  unfold TEvent_dtor, TEvent_clear, clear.
  rewrite (shape_head _ _ _ (repr_shape _ _ _ Hr)).
  pose proof (shape_lengths _ _ _ (repr_shape _ _ _ Hr)) as Hlen.
  destruct (clear_loop fuel (head al) d) as [d'| |]; [|done|lia].
  destruct Hc as (_ & Hr' & Hl & Hdata). simpl in Hr'.
  pose proof (repr_shape _ _ _ Hr') as Hs'.
  pose proof (dtor_spec d' _ _ fuel Hs') as Hd.
  pose proof (shape_lengths _ _ _ Hs') as Hlen'.
  destruct (EventInternalData_dtor fuel d') as [l| |] eqn:Edt; [|done|lia].
  destruct Hd as (_ & _ & ->).
  eexists d', _. split; [done|]. split; [done|]. split; [|split; [exact Edt|]].
  - intros p c' Hc'.
    assert (Hp : p < length (heap d)) by (rewrite <- Hl; by eapply lookup_lt_Some).
    destruct (lookup_lt_is_Some_2 _ _ Hp) as [c Hcd].
    destruct (Hdata p c Hcd) as (c2 & Hc2 & Ha & _ & Hf).
    assert (c2 = c') as -> by congruence.
    destruct (decide (p ∈ al)) as [Hin|Hin]; [done|].
    assert (Hfl : p ∈ fl).
    { assert (p ∈ al ++ fl) as Hx
        by (eapply shape_elem_of; [apply Hr|done]).
      apply elem_of_app in Hx as [?|?]; done. }
    destruct (repr_dead _ _ _ Hr p c Hfl Hcd) as (Hia & _ & Hfn).
    split; congruence.
  - rewrite (shape_alloc _ _ _ Hs'). by rewrite Hl.
Qed.

Lemma event_destruction_witness :
  repr (ev world_two) [1; 0] [] ∧ length (heap (ev world_two)) ≤ 2
  ∧ ∃ d' l,
      TEvent_dtor 2 (ev world_two) = Ok d'
      ∧ length (heap d') = length (heap (ev world_two))
      ∧ (∀ p c, heap d' !! p = Some c → func c = None ∧ isActive c = false)
      ∧ EventInternalData_dtor 2 d' = Ok l
      ∧ l ≡ₚ seq 0 (length (heap (ev world_two))).
Proof.
  assert (Hr : repr (ev world_two) [1; 0] []) by apply inv_world_two.
  split; [exact Hr|]. split; [simpl; lia|].
  apply (event_destruction (ev world_two) [1; 0] [] 2 Hr). simpl. lia.
Defined.

(** ** Handles that outlive [clear] *)

(** X7: a handle that outlives [clear()].  When the handle in [s] is
    the only one on its record, the record stays in the connection list
    across [clear()] and is moved to the head of the free list as soon as
    the handle is destroyed. *)
Theorem release_after_clear_reclaims body fuel w al fl s p :
  inv w al fl → length al ≤ fuel →
  mConnection (handle_at s w) = Some p → links_of p (ev w) = 1%Z →
  ∃ w1 w2 al2 fl2,
    exec body fuel CClear w = Ok w1
    ∧ (∃ al1 fl1, inv w1 al1 fl1 ∧ p ∈ al1)
    ∧ exec body fuel (CDestroy s) w1 = Ok w2
    ∧ inv w2 al2 (p :: fl2)
    ∧ p ∉ al2.
Proof.
  intros Hinv Hfuel Hh Hone.
  pose proof (exec_clear_spec fuel (trigger body fuel) w al fl Hinv) as Hspec.
  unfold exec.
  destruct (exec_cmd fuel (trigger body fuel) CClear w) as [w1| |];
    [|done|lia].
  destruct Hspec as (_ & Hinv1 & Hhs & Hlog & Hlen & Hdata).
  destruct (inv_handle w al fl s p Hinv Hh) as (_ & k1 & k2 & c & Hal & Hc & _).
  assert (Hp : p ∈ al) by (rewrite Hal, elem_of_app; right; left).
  assert (Hh1 : mConnection (handle_at s w1) = Some p).
  { by rewrite (handle_at_handles s w w1 Hhs). }
  destruct (exec_destroy_Some fuel (trigger body fuel) w1 _ _ s p Hinv1 Hh1)
    as (l1 & l2 & c1 & d' & Hal1 & Hc1 & _ & Hrun & _ & Hres).
  destruct (cleared_record w w1 al p c1 Hdata Hlen Hp Hc1) as (Ha & _ & Hk).
  rewrite decide_True in Hres by (split; congruence).
  eexists w1, _, (l1 ++ l2), _. split; [done|]. split.
  { eexists _, _. split; [exact Hinv1|]. rewrite Hal1, elem_of_app. right; left. }
  split; [exact Hrun|]. split; [exact Hres|].
  destruct (shape_split_NoDup _ _ _ (repr_shape _ _ _ (inv_repr _ _ _ Hres)))
    as (_ & _ & Hdisj).
  intros Hin. apply (Hdisj p Hin). left.
Qed.

Lemma release_after_clear_reclaims_witness :
  inv world_one [0] [] ∧ length [0] ≤ 1
  ∧ mConnection (handle_at 0 world_one) = Some 0
  ∧ links_of 0 (ev world_one) = 1%Z
  ∧ ∃ w1 w2 al2 fl2,
      exec recycling 1 CClear world_one = Ok w1
      ∧ (∃ al1 fl1, inv w1 al1 fl1 ∧ 0 ∈ al1)
      ∧ exec recycling 1 (CDestroy 0) w1 = Ok w2
      ∧ inv w2 al2 (0 :: fl2)
      ∧ 0 ∉ al2.
Proof.
  split; [exact inv_world_one|]. split; [simpl; lia|].
  split; [reflexivity|]. split; [reflexivity|].
  apply (release_after_clear_reclaims recycling 1 world_one [0] [] 0 0 inv_world_one);
    [simpl; lia|reflexivity|reflexivity].
Defined.

(** ** Disconnecting one subscription *)

(** X8: disconnecting a subscription leaves the others alone.  The data
    of every other record is kept, and the callbacks that a trigger finds
    afterwards are those found before with the one of the disconnected
    record taken out, in the same order. *)
Theorem disconnect_removes_one_callback fuel trig w al fl s p :
  inv w al fl → mConnection (handle_at s w) = Some p →
  ∃ l1 l2 w' al' fl',
    al = l1 ++ p :: l2
    ∧ exec_cmd fuel trig (CDisconnect s) w = Ok w'
    ∧ inv w' al' fl'
    ∧ callbacks (heap (ev w')) al'
      = callbacks (heap (ev w)) l1 ++ callbacks (heap (ev w)) l2
    ∧ ∀ q c, q ≠ p → heap (ev w) !! q = Some c →
        ∃ c', heap (ev w') !! q = Some c' ∧ data_eq c c'.
Proof.
  intros Hinv Hh.
  destruct (exec_disconnect_Some fuel trig w al fl s p Hinv Hh)
    as (l1 & l2 & c & d' & Hal & Hc & _ & Hrun & Hupd & Hres).
  pose proof (inv_repr _ _ _ Hinv) as Hr.
  destruct (shape_split_NoDup _ _ _ (repr_shape _ _ _ Hr)) as (Hnd & _ & _).
  rewrite Hal in Hnd. apply NoDup_app in Hnd as (_ & Hl1 & Hnd2).
  apply NoDup_cons in Hnd2 as [Hl2 _].
  assert (Hframe : ∀ q c0, q ≠ p → heap (ev w) !! q = Some c0 →
            ∃ c', heap d' !! q = Some c' ∧ data_eq c0 c').
  { intros q c0 Hq Hc0. destruct (proj2 Hupd q c0 Hc0) as (c' & Hc' & Hde).
    rewrite decide_False in Hde by done. by exists c'. }
  assert (Hsome : ∀ q, q ∈ al → is_Some (heap (ev w) !! q)).
  { intros q Hq. eapply repr_lookup; [exact Hr|]. rewrite elem_of_app. by left. }
  assert (Hk1 : callbacks (heap d') l1 = callbacks (heap (ev w)) l1).
  { apply callbacks_data.
    - intros q c0 Hq. apply Hframe. intros ->. apply (Hl1 p Hq). left.
    - intros q Hq. apply Hsome. rewrite Hal, elem_of_app. by left. }
  assert (Hk2 : callbacks (heap d') l2 = callbacks (heap (ev w)) l2).
  { apply callbacks_data.
    - intros q c0 Hq. apply Hframe. by intros ->.
    - intros q Hq. apply Hsome. rewrite Hal, elem_of_app. right. by right. }
  destruct (proj2 Hupd p c Hc) as (c1 & Hc1 & (_ & _ & Hf1)).
  rewrite decide_True in Hf1 by done. simpl in Hf1.
  destruct (decide (handleLinks c = 1%Z)).
  - eexists l1, l2, _, (l1 ++ l2), _. split; [done|]. split; [exact Hrun|].
    split; [exact Hres|]. split; [|exact Hframe].
    simpl. by rewrite callbacks_app, Hk1, Hk2.
  - eexists l1, l2, _, al, _. split; [done|]. split; [exact Hrun|].
    split; [exact Hres|]. split; [|exact Hframe].
    simpl. rewrite Hal, callbacks_app, callbacks_cons, Hc1. simpl.
    by rewrite Hf1, Hk1, Hk2.
Qed.

Lemma disconnect_removes_one_callback_witness :
  inv world_two [1; 0] [] ∧ mConnection (handle_at 1 world_two) = Some 1
  ∧ ∃ l1 l2 w' al' fl',
      [1; 0] = l1 ++ 1 :: l2
      ∧ exec_cmd 0 Ok (CDisconnect 1) world_two = Ok w'
      ∧ inv w' al' fl'
      ∧ callbacks (heap (ev w')) al'
        = callbacks (heap (ev world_two)) l1 ++ callbacks (heap (ev world_two)) l2
      ∧ ∀ q c, q ≠ 1 → heap (ev world_two) !! q = Some c →
          ∃ c', heap (ev w') !! q = Some c' ∧ data_eq c c'.
Proof.
  split; [exact inv_world_two|]. split; [reflexivity|].
  apply (disconnect_removes_one_callback 0 Ok world_two [1; 0] [] 1 1
           inv_world_two).
  reflexivity.
Defined.

(** X9: [h = event.connect(f); h.disconnect();] gives the event back as
    it was: the connection list and its callbacks are those of before,
    nothing was invoked, the handle is empty, and the record that was
    used is the head of the free list, where it came from unless the free
    list was empty. *)
Theorem connect_disconnect_round_trip body fuel w al fl s f :
  inv w al fl →
  ∃ w',
    run body fuel [CConnect (Some s) f; CDisconnect s] w = Ok w'
    ∧ inv w' al (hd (length (heap (ev w))) fl :: tail fl)
    ∧ (fl ≠ [] → inv w' al fl ∧ length (heap (ev w')) = length (heap (ev w)))
    ∧ callbacks (heap (ev w')) al = callbacks (heap (ev w)) al
    ∧ log w' = log w
    ∧ HEvent_bool (handle_at s w') = false.
Proof.
  intros Hinv.
  destruct (exec_connect_spec fuel (trigger body fuel) w al fl (Some s) f Hinv)
    as (d1 & Hrun1 & Hinv1 & Hlen1 & (c1 & Hc1 & _ & Hone & _) & Hframe1).
  set (p := hd (length (heap (ev w))) fl) in *.
  set (w1 := mkWorld d1 _ _) in *.
  assert (Hh1 : mConnection (handle_at s w1) = Some p).
  { unfold w1. rewrite handle_at_insert. by rewrite decide_True. }
  destruct (exec_disconnect_Some fuel (trigger body fuel) w1 _ _ s p Hinv1 Hh1)
    as (l1 & l2 & c & d2 & Hal & Hc & _ & Hrun2 & Hupd & Hres).
  assert (c = c1) as -> by (simpl in Hc; congruence).
  rewrite decide_True in Hres by done.
  pose proof (inv_repr _ _ _ Hinv1) as Hr1.
  destruct (shape_split_NoDup _ _ _ (repr_shape _ _ _ Hr1)) as (Hnd & _ & _).
  destruct (NoDup_middle_head p al l1 l2 Hnd Hal) as [-> ->].
  apply NoDup_cons in Hnd as [Hp _]. simpl in Hres.
  set (w2 := mkWorld d2 _ _) in *.
  exists w2. split.
  { rewrite run_cons, Hrun1, bind_Ok_l, run_cons, Hrun2, bind_Ok_l. done. }
  split; [exact Hres|]. split.
  { intros Hfl. destruct fl as [|x fl]; [done|]. split; [exact Hres|].
    simpl. rewrite (proj1 Hupd). simpl. by rewrite Hlen1. }
  split.
  { pose proof (inv_repr _ _ _ Hinv) as Hr.
    apply callbacks_data.
    - intros q c Hq Hcq.
      assert (Hqp : q ≠ p) by (intros ->; done).
      destruct (Hframe1 q c Hqp Hcq) as (c' & Hc' & Hd').
      destruct (proj2 Hupd q c' Hc') as (c'' & Hc'' & Hd'').
      rewrite decide_False in Hd'' by done.
      exists c''. split; [done|].
      destruct Hd' as (? & ? & ?), Hd'' as (? & ? & ?).
      split; [|split]; congruence.
    - intros q Hq. eapply repr_lookup; [exact Hr|]. rewrite elem_of_app. by left. }
  split; [done|].
  unfold w2. rewrite handle_at_insert. by rewrite decide_True.
Qed.

Lemma connect_disconnect_round_trip_witness :
  inv world_recycled [] [0]
  ∧ ∃ w',
      run recycling 0 [CConnect (Some 5) 9; CDisconnect 5] world_recycled = Ok w'
      ∧ inv w' [] (hd (length (heap (ev world_recycled))) [0] :: tail [0])
      ∧ ([0] ≠ [] → inv w' [] [0]
                    ∧ length (heap (ev w')) = length (heap (ev world_recycled)))
      ∧ callbacks (heap (ev w')) [] = callbacks (heap (ev world_recycled)) []
      ∧ log w' = log world_recycled
      ∧ HEvent_bool (handle_at 5 w') = false.
Proof.
  split; [exact inv_world_recycled|].
  apply (connect_disconnect_round_trip recycling 0 world_recycled [] [0] 5 9
           inv_world_recycled).
Defined.

(** X10: the record released last is the one used next.  When the handle
    in [s] is the only one on its record [p], after [h.disconnect()] the
    next [connect] builds the new subscription in [p]: no record is
    allocated, the free list is as it was before the two calls, and the
    new subscription is the first of the connection list. *)
Theorem released_record_is_used_next body fuel w al fl s p dst f :
  inv w al fl →
  mConnection (handle_at s w) = Some p → links_of p (ev w) = 1%Z →
  ∃ l1 l2 w' c',
    al = l1 ++ p :: l2
    ∧ run body fuel [CDisconnect s; CConnect dst f] w = Ok w'
    ∧ inv w' (p :: l1 ++ l2) fl
    ∧ length (heap (ev w')) = length (heap (ev w))
    ∧ heap (ev w') !! p = Some c'
    ∧ isActive c' = true ∧ func c' = Some f
    ∧ (∀ t, dst = Some t → mConnection (handle_at t w') = Some p).
Proof.
  intros Hinv Hh Hone.
  destruct (exec_disconnect_Some fuel (trigger body fuel) w al fl s p Hinv Hh)
    as (l1 & l2 & c & d1 & Hal & Hc & _ & Hrun1 & Hupd & Hres).
  rewrite (links_of_lookup _ _ _ Hc) in Hone.
  rewrite decide_True in Hres by done.
  set (w1 := mkWorld d1 _ _) in *.
  destruct (exec_connect_spec fuel (trigger body fuel) w1 _ _ dst f Hres)
    as (d2 & Hrun2 & Hinv2 & Hlen2 & (c2 & Hc2 & Ha2 & _ & Hf2) & _).
  simpl in Hinv2, Hlen2, Hc2.
  eexists l1, l2, _, c2. split; [done|]. split.
  { rewrite run_cons, Hrun1, bind_Ok_l, run_cons, Hrun2, bind_Ok_l. done. }
  split; [exact Hinv2|]. split.
  { simpl. rewrite Hlen2. apply (proj1 Hupd). }
  split; [exact Hc2|]. split; [done|]. split; [done|].
  intros t ->. rewrite handle_at_insert. by rewrite decide_True.
Qed.

Lemma released_record_is_used_next_witness :
  inv world_two [1; 0] []
  ∧ mConnection (handle_at 0 world_two) = Some 0
  ∧ links_of 0 (ev world_two) = 1%Z
  ∧ ∃ l1 l2 w' c',
      [1; 0] = l1 ++ 0 :: l2
      ∧ run recycling 0 [CDisconnect 0; CConnect (Some 3) 9] world_two = Ok w'
      ∧ inv w' (0 :: l1 ++ l2) []
      ∧ length (heap (ev w')) = length (heap (ev world_two))
      ∧ heap (ev w') !! 0 = Some c'
      ∧ isActive c' = true ∧ func c' = Some 9
      ∧ (∀ t, Some 3 = Some t → mConnection (handle_at t w') = Some 0).
Proof.
  split; [exact inv_world_two|]. split; [reflexivity|]. split; [reflexivity|].
  apply (released_record_is_used_next recycling 0 world_two [1; 0] [] 0 0
           (Some 3) 9 inv_world_two); reflexivity.
Defined.

(** ** Subscriptions and handles in reachable states *)

(** X11: a subscription that no handle references, such as one made by
    [event.connect(f);] with the returned handle dropped, cannot be
    removed by anything but [clear()].  Whatever sequence of connect,
    disconnect, handle destruction and trigger is run (callbacks running
    such statements too), nothing faults, and afterwards the record is
    still active in the connection list with its callback, which every
    trigger therefore finds. *)
Theorem unheld_subscription_stays body fuel cs w al fl q f :
  inv w al fl → orphan q f w →
  (∀ c, c ∈ cs → is_assign c = false ∧ is_clear c = false) →
  (∀ g c, c ∈ body g → is_assign c = false ∧ is_clear c = false) →
  match run body fuel cs w with
  | Ok w' =>
      orphan q f w'
      ∧ ∃ al' fl', inv w' al' fl' ∧ q ∈ al'
                   ∧ f ∈ callbacks (heap (ev w')) al'
  | Fault => False
  | OutOfFuel => True
  end.
Proof.
  intros Hinv Ho Hcs Hbody.
  set (allowed := λ c, negb (is_assign c) && negb (is_clear c)).
  assert (Hal : ∀ c, allowed c = true → is_assign c = false).
  { intros c Hc. apply andb_true_iff in Hc as [Hc _]. by apply negb_true_iff. }
  assert (Hb : ∀ g c, c ∈ body g → allowed c = true).
  { intros g c Hc. destruct (Hbody g c Hc) as [H1 H2]. unfold allowed.
    by rewrite H1, H2. }
  assert (Hc' : ∀ c, c ∈ cs → allowed c = true).
  { intros c Hc. destruct (Hcs c Hc) as [H1 H2]. unfold allowed.
    by rewrite H1, H2. }
  assert (Hb1 : ∀ g c, c ∈ body g → is_assign c = false)
    by (intros g c Hc; by destruct (Hbody g c Hc)).
  assert (Hc1 : ∀ c, c ∈ cs → is_assign c = false)
    by (intros c Hc; by destruct (Hcs c Hc)).
  pose proof (run_safe body Hb1 fuel cs w al fl Hinv Hc1) as Hsafe.
  assert (Hkeep : keeps (orphan q f) (run body fuel cs w)).
  { apply (run_keeps body allowed (orphan q f) Hal Hb) with al fl; try done.
    intros fuel' trig c w' al' fl' Hinv' Ho' Hc Htrig.
    by eapply exec_keeps_orphan. }
  destruct (run body fuel cs w) as [w'| |]; [|done..].
  destruct Hsafe as [(al' & fl' & Hinv') _]. simpl in Hkeep.
  split; [done|]. exists al', fl'. split; [done|].
  destruct Hkeep as [_ (c & Hc & Ha & Hf)].
  destruct (active_in_list _ _ _ q c (inv_repr _ _ _ Hinv') Hc Ha) as [Hal' _].
  split; [done|]. by eapply elem_of_callbacks.
Qed.

Lemma unheld_subscription_stays_witness :
  inv world_unheld [0] [] ∧ orphan 0 5 world_unheld
  ∧ (∀ c, c ∈ tail orphan_script → is_assign c = false ∧ is_clear c = false)
  ∧ (∀ g c, c ∈ recycling g → is_assign c = false ∧ is_clear c = false)
  ∧ ∃ w', run recycling 8 (tail orphan_script) world_unheld = Ok w'
      ∧ orphan 0 5 w'
      ∧ ∃ al' fl', inv w' al' fl' ∧ 0 ∈ al'
                   ∧ 5 ∈ callbacks (heap (ev w')) al'.
Proof.
  assert (Ho : orphan 0 5 world_unheld).
  { split; [intros s; by vm_compute|]. eexists. by split. }
  assert (H1 : ∀ c, c ∈ tail orphan_script →
                    is_assign c = false ∧ is_clear c = false).
  { intros c Hc. split; [by apply (no_assign_script (tail orphan_script))
                        |by apply (no_clear_script (tail orphan_script))]. }
  assert (H2 : ∀ g c, c ∈ recycling g → is_assign c = false ∧ is_clear c = false).
  { intros g c Hc. split; [by eapply recycling_no_assign|by eapply recycling_no_clear]. }
  split; [exact inv_world_unheld|]. split; [exact Ho|].
  split; [exact H1|]. split; [exact H2|].
  pose proof (unheld_subscription_stays recycling 8 (tail orphan_script)
                world_unheld [0] [] 0 5 inv_world_unheld Ho H1 H2) as H.
  destruct (run recycling 8 (tail orphan_script) world_unheld) as [w'| |] eqn:E.
  - exists w'. split; [reflexivity|]. exact H.
  - destruct H.
  - vm_compute in E. discriminate E.
Defined.

(** X12: assigning to a handle that references a record leaks a count on
    that record, whatever is assigned (another handle, the handle itself,
    or an empty handle): [operator=] never releases the reference it
    overwrites, so afterwards the count of the record exceeds the number
    of handles that reference it. *)
Theorem assign_over_handle_leaks fuel trig w al fl dst src q :
  inv w al fl →
  mConnection (handle_at dst w) = Some q →
  (links_of q (ev w) < UINT32_MOD - 1)%Z →
  ∃ w',
    exec_cmd fuel trig (CAssign dst src) w = Ok w'
    ∧ mConnection (handle_at dst w') = mConnection (handle_at src w)
    ∧ leaked q w'.
Proof.
  intros Hinv Hdst Hsmall.
  pose proof (inv_refs _ _ _ Hinv q) as Hle.
  pose proof (refs_lookup q dst _ (handles w) (handle_at_Some _ _ _ Hdst) Hdst)
    as Hone.
  unfold exec_cmd, HEvent_assign. cbv zeta. simpl mConnection.
  destruct (mConnection (handle_at src w)) as [p|] eqn:Hsrc.
  - destruct (inv_handle w al fl src p Hinv Hsrc)
      as (_ & l1 & l2 & c & _ & Hc & Hk).
    rewrite (store_Ok _ _ _ c) by done. rewrite !bind_Ok_l.
    eexists. split; [reflexivity|]. split.
    { unfold handle_at. simpl. by rewrite lookup_insert_eq. }
    unfold leaked. simpl.
    pose proof (refs_insert q dst (mkHEvent (Some p) (mEventData (handle_at src w)))
                  (handles w)) as Hins.
    rewrite points_handle_at, Hdst in Hins. rewrite decide_True in Hins by done.
    unfold points in Hins. simpl in Hins.
    unfold links_of in *. simpl.
    destruct (decide (p = q)) as [->|Hpq].
    + rewrite decide_True in Hins by done.
      rewrite list_lookup_insert_eq by (by eapply lookup_lt_Some).
      rewrite Hc in Hle, Hsmall. simpl.
      rewrite u32_inc_small by lia. lia.
    + rewrite decide_False in Hins by congruence.
      rewrite list_lookup_insert_ne by done. lia.
  - rewrite !bind_Ok_l.
    eexists. split; [reflexivity|]. split.
    { unfold handle_at. simpl. by rewrite lookup_insert_eq. }
    unfold leaked. simpl.
    pose proof (refs_insert q dst (mkHEvent None (mEventData (handle_at src w)))
                  (handles w)) as Hins.
    rewrite points_handle_at, Hdst in Hins. rewrite decide_True in Hins by done.
    unfold points in Hins. simpl in Hins. lia.
Qed.

Lemma assign_over_handle_leaks_witness :
  inv world_two [1; 0] []
  ∧ mConnection (handle_at 0 world_two) = Some 0
  ∧ (links_of 0 (ev world_two) < UINT32_MOD - 1)%Z
  ∧ ∃ w',
      exec_cmd 0 Ok (CAssign 0 7) world_two = Ok w'
      ∧ mConnection (handle_at 0 w') = mConnection (handle_at 7 world_two)
      ∧ leaked 0 w'.
Proof.
  split; [exact inv_world_two|]. split; [reflexivity|]. split; [by vm_compute|].
  apply (assign_over_handle_leaks 0 Ok world_two [1; 0] [] 0 7 0 inv_world_two);
    [reflexivity|by vm_compute].
Defined.

(** X13: a count that exceeds the number of handles on its record, as
    [h = event.connect(f); h = event.connect(g);] leaves it for the first
    record, is never worked off.  Whatever sequence of connect,
    disconnect, handle destruction, clear and trigger is run afterwards,
    the record stays in the connection list with a count above the number
    of its handles: it is never reclaimed and [empty()] is false for
    good. *)
Theorem leaked_count_is_permanent body fuel cs w al fl q :
  inv w al fl → leaked q w →
  (∀ c, c ∈ cs → is_assign c = false) →
  (∀ g c, c ∈ body g → is_assign c = false) →
  match run body fuel cs w with
  | Ok w' =>
      leaked q w'
      ∧ ∃ al' fl', inv w' al' fl' ∧ q ∈ al' ∧ (q ∉ fl')
                   ∧ TEvent_empty (ev w') = false
  | Fault => False
  | OutOfFuel => True
  end.
Proof.
  intros Hinv Hl Hcs Hbody.
  set (allowed := λ c, negb (is_assign c)).
  assert (Hal : ∀ c, allowed c = true → is_assign c = false).
  { intros c Hc. by apply negb_true_iff. }
  assert (Hb : ∀ g c, c ∈ body g → allowed c = true).
  { intros g c Hc. unfold allowed. by rewrite (Hbody g c Hc). }
  assert (Hc' : ∀ c, c ∈ cs → allowed c = true).
  { intros c Hc. unfold allowed. by rewrite (Hcs c Hc). }
  pose proof (run_safe body Hbody fuel cs w al fl Hinv Hcs) as Hsafe.
  assert (Hkeep : keeps (leaked q) (run body fuel cs w)).
  { apply (run_keeps body allowed (leaked q) Hal Hb) with al fl; try done.
    intros fuel' trig c w' al' fl' Hinv' Ho' Hc Htrig.
    by eapply exec_keeps_leaked. }
  destruct (run body fuel cs w) as [w'| |]; [|done..].
  destruct Hsafe as [(al' & fl' & Hinv') _]. simpl in Hkeep.
  split; [done|]. exists al', fl'. split; [done|].
  pose proof (inv_repr _ _ _ Hinv') as Hr'.
  assert (Hne : links_of q (ev w') ≠ 0%Z) by (unfold leaked in Hkeep; lia).
  destruct (counted_in_list _ _ _ q Hr' Hne) as [Hin Hout].
  split; [done|]. split; [done|].
  apply not_true_is_false. rewrite (TEvent_empty_head _ _ _ (repr_shape _ _ _ Hr')).
  intros ->. by apply elem_of_nil in Hin.
Qed.

Lemma leaked_count_is_permanent_witness :
  inv world_overwritten [1; 0] [] ∧ leaked 0 world_overwritten
  ∧ (∀ c, c ∈ drop 2 leak_script → is_assign c = false)
  ∧ (∀ g c, c ∈ recycling g → is_assign c = false)
  ∧ ∃ w', run recycling 8 (drop 2 leak_script) world_overwritten = Ok w'
      ∧ leaked 0 w'
      ∧ ∃ al' fl', inv w' al' fl' ∧ 0 ∈ al' ∧ (0 ∉ fl')
                   ∧ TEvent_empty (ev w') = false.
Proof.
  assert (Hl : leaked 0 world_overwritten) by (by vm_compute).
  assert (H1 : ∀ c, c ∈ drop 2 leak_script → is_assign c = false)
    by (by apply no_assign_script).
  assert (H2 : ∀ g c, c ∈ recycling g → is_assign c = false)
    by (intros g c; apply recycling_no_assign).
  split; [exact inv_world_overwritten|]. split; [exact Hl|].
  split; [exact H1|]. split; [exact H2|].
  pose proof (leaked_count_is_permanent recycling 8 (drop 2 leak_script)
                world_overwritten [1; 0] [] 0 inv_world_overwritten Hl H1 H2) as H.
  destruct (run recycling 8 (drop 2 leak_script) world_overwritten) as [w'| |] eqn:E.
  - exists w'. split; [reflexivity|]. exact H.
  - destruct H.
  - vm_compute in E. discriminate E.
Defined.

(** X14: handles never dangle.  From the empty event, whatever sequence
    of connect, disconnect, handle destruction, clear and trigger is run,
    a handle that is not empty references an allocated record of the
    connection list (never one of the free list) whose count is at least
    one, and holds the event data. *)
Theorem handles_never_dangle body fuel cs :
  (∀ c, c ∈ cs → is_assign c = false) →
  (∀ f c, c ∈ body f → is_assign c = false) →
  match run body fuel cs world_new with
  | Ok w =>
      ∀ s p, mConnection (handle_at s w) = Some p →
        HEvent_bool (handle_at s w) = true
        ∧ mEventData (handle_at s w) = true
        ∧ ∃ c al fl,
            heap (ev w) !! p = Some c
            ∧ (1 ≤ handleLinks c < UINT32_MOD)%Z
            ∧ inv w al fl ∧ p ∈ al ∧ p ∉ fl
  | Fault => False
  | OutOfFuel => True
  end.
Proof.
  intros Hcs Hbody.
  pose proof (run_safe body Hbody fuel cs world_new [] [] inv_world_new Hcs) as Hsafe.
  destruct (run body fuel cs world_new) as [w| |]; [|done..].
  destruct Hsafe as [(al & fl & Hinv) _]. intros s p Hh.
  destruct (inv_handle w al fl s p Hinv Hh) as (Hd & l1 & l2 & c & Hal & Hc & Hk).
  split; [unfold HEvent_bool; by rewrite Hh|]. split; [done|].
  exists c, al, fl. split; [done|]. split; [done|]. split; [done|].
  assert (Hp : p ∈ al) by (rewrite Hal, elem_of_app; right; left).
  split; [done|].
  destruct (shape_split_NoDup _ _ _ (repr_shape _ _ _ (inv_repr _ _ _ Hinv)))
    as (_ & _ & Hdisj).
  by apply Hdisj.
Qed.

Lemma handles_never_dangle_witness :
  (∀ c, c ∈ mixed_script → is_assign c = false)
  ∧ (∀ f c, c ∈ recycling f → is_assign c = false)
  ∧ ∃ w, run recycling 8 mixed_script world_new = Ok w
      ∧ ∀ s p, mConnection (handle_at s w) = Some p →
          HEvent_bool (handle_at s w) = true
          ∧ mEventData (handle_at s w) = true
          ∧ ∃ c al fl,
              heap (ev w) !! p = Some c
              ∧ (1 ≤ handleLinks c < UINT32_MOD)%Z
              ∧ inv w al fl ∧ p ∈ al ∧ p ∉ fl.
Proof.
  assert (H1 : ∀ c, c ∈ mixed_script → is_assign c = false)
    by (by apply no_assign_script).
  assert (H2 : ∀ f c, c ∈ recycling f → is_assign c = false)
    by (intros f c; apply recycling_no_assign).
  split; [exact H1|]. split; [exact H2|].
  pose proof (handles_never_dangle recycling 8 mixed_script H1 H2) as H.
  destruct (run recycling 8 mixed_script world_new) as [w| |] eqn:E.
  - exists w. split; [reflexivity|]. exact H.
  - destruct H.
  - vm_compute in E. discriminate E.
Defined.

(** ** Triggers that do not return *)

(** X15: a callback that triggers the event it is subscribed to never
    returns.  The mutex is recursive, so the nested trigger is entered;
    it starts again at the head of the list, and when the callbacks that
    come before in the list leave the event alone it reaches the same
    callback again: no number of steps completes the outer trigger. *)
Theorem self_trigger_never_returns body fuel w l1 p l2 fl c f rest :
  shape (ev w) (l1 ++ p :: l2) fl →
  (∀ g, g ∈ callbacks (heap (ev w)) l1 → body g = []) →
  heap (ev w) !! p = Some c → func c = Some f →
  body f = CTrigger :: rest →
  trigger body fuel w = OutOfFuel.
Proof.
  intros Hs Hpass Hc Hf Hbody.
  apply (trigger_diverges body (ev w) l1 p l2 fl c f rest Hs Hpass Hc Hf Hbody
           (S fuel)); [lia|done].
Qed.

Lemma self_trigger_never_returns_witness :
  shape (ev world_two) ([1] ++ 0 :: []) []
  ∧ (∀ g, g ∈ callbacks (heap (ev world_two)) [1] → retriggering g = [])
  ∧ heap (ev world_two) !! 0 = Some (mkConn (Some 1) None true 1%Z (Some 10))
  ∧ func (mkConn (Some 1) None true 1%Z (Some 10)) = Some 10
  ∧ retriggering 10 = CTrigger :: []
  ∧ trigger retriggering 1000 world_two = OutOfFuel.
Proof.
  assert (Hs : shape (ev world_two) ([1] ++ 0 :: []) []) by apply inv_world_two.
  assert (Hp : ∀ g, g ∈ callbacks (heap (ev world_two)) [1] → retriggering g = []).
  { intros g Hg. apply list_elem_of_singleton in Hg as ->. reflexivity. }
  split; [exact Hs|]. split; [exact Hp|].
  split; [reflexivity|]. split; [reflexivity|]. split; [reflexivity|].
  apply (self_trigger_never_returns retriggering 1000 world_two [1] 0 [] []
           (mkConn (Some 1) None true 1%Z (Some 10)) 10 [] Hs Hp);
    reflexivity.
Defined.

(** ** The tabbed title bar *)

(** X16: [uniqueIdxToSeqIdx] returns the position of the first tab that
    has the given index, and -1 exactly when no tab has it (for fewer
    than 2^31 tabs, so that the position fits the [INT32] returned). *)
Theorem uniqueIdxToSeqIdx_finds_first {T M : Type} (getIndex : T → Z)
    (u : Z) (b : @GUITabbedTitleBar T M) :
  (Z.of_nat (length (mTabButtons b)) ≤ INT32_MAX + 1)%Z →
  (uniqueIdxToSeqIdx getIndex u b = (-1)%Z
   ↔ ∀ t, t ∈ mTabButtons b → getIndex t ≠ u)
  ∧ ∀ i : nat,
      uniqueIdxToSeqIdx getIndex u b = Z.of_nat i
      ↔ ∃ t, mTabButtons b !! i = Some t ∧ getIndex t = u
             ∧ ∀ j t', j < i → mTabButtons b !! j = Some t' → getIndex t' ≠ u.
Proof.
  intros Hlen. rewrite (uniqueIdxToSeqIdx_find getIndex u b Hlen).
  destruct (list_find _ _) as [[i0 x]|] eqn:Hfind.
  - apply list_find_Some in Hfind as (Hx & Hu & Hfirst). split.
    + split; [lia|]. intros Hall. destruct (Hall x); [|done].
      by eapply list_elem_of_lookup_2.
    + intros i. split.
      * intros Heq. assert (i = i0) as -> by lia. exists x.
        split; [done|]. split; [done|]. intros j t' Hj Ht'. by eapply Hfirst.
      * intros (t & Ht & Htu & Hbefore).
        destruct (lt_eq_lt_dec i i0) as [[Hlt| ->]|Hgt]; [|done|].
        -- by destruct (Hfirst i t Ht Hlt).
        -- by destruct (Hbefore i0 x Hgt Hx).
  - apply list_find_None in Hfind. rewrite Forall_forall in Hfind. split.
    + split; [|done]. intros _ t Ht. by apply Hfind.
    + intros i. split; [lia|]. intros (t & Ht & Htu & _).
      destruct (Hfind t); [|done]. by eapply list_elem_of_lookup_2.
Qed.

Lemma uniqueIdxToSeqIdx_finds_first_witness :
  (Z.of_nat (length (mTabButtons bar_abc)) ≤ INT32_MAX + 1)%Z
  ∧ (uniqueIdxToSeqIdx id 5%Z bar_abc = (-1)%Z
     ↔ ∀ t, t ∈ mTabButtons bar_abc → id t ≠ 5%Z)
  ∧ ∀ i : nat,
      uniqueIdxToSeqIdx id 5%Z bar_abc = Z.of_nat i
      ↔ ∃ t, mTabButtons bar_abc !! i = Some t ∧ id t = 5%Z
             ∧ ∀ j t', j < i → mTabButtons bar_abc !! j = Some t' → id t' ≠ 5%Z.
Proof.
  split; [by vm_compute|].
  apply (uniqueIdxToSeqIdx_finds_first id 5%Z bar_abc). by vm_compute.
Defined.

(** X17: [insertTab] puts the new tab at position [idx], clamped to the
    number of tabs, in both vectors, and hands out the next index; the
    bar stays well formed and [uniqueIdxToSeqIdx] finds the new tab at
    that position.  [addTab] appends it. *)
Theorem insertTab_places_new_tab {T M : Type} (getIndex : T → Z)
    (Clamp : Z → Z → Z → Z) idx newTab newMover (b : @GUITabbedTitleBar T M) :
  Clamp_ok Clamp → bar_wf getIndex b →
  getIndex newTab = mUniqueTabIdx b → (mUniqueTabIdx b < INT32_MAX)%Z →
  (0 ≤ idx)%Z →
  let n := Z.to_nat idx `min` length (mTabButtons b) in
  (∃ b',
     insertTab Clamp idx newTab newMover b = Ok b'
     ∧ bar_wf getIndex b'
     ∧ mTabButtons b' = take n (mTabButtons b) ++ newTab :: drop n (mTabButtons b)
     ∧ mDragDropElements b'
       = take n (mDragDropElements b) ++ newMover :: drop n (mDragDropElements b)
     ∧ mUniqueTabIdx b' = (mUniqueTabIdx b + 1)%Z
     ∧ mActiveTabIdx b' = mActiveTabIdx b
     ∧ uniqueIdxToSeqIdx getIndex (mUniqueTabIdx b) b' = Z.of_nat n)
  ∧ ∃ b'',
      addTab Clamp newTab newMover b = Ok b''
      ∧ mTabButtons b'' = mTabButtons b ++ [newTab]
      ∧ mDragDropElements b'' = mDragDropElements b ++ [newMover]
      ∧ uniqueIdxToSeqIdx getIndex (mUniqueTabIdx b) b''
        = Z.of_nat (length (mTabButtons b)).
Proof.
  intros Hclamp Hwf Hnew Hmax H0 n.
  pose proof Hwf as (Hlen & Hle & _).
  assert (Hfound : ∀ k (b' : @GUITabbedTitleBar T M), k ≤ length (mTabButtons b) → bar_wf getIndex b' →
            mTabButtons b'
            = take k (mTabButtons b) ++ newTab :: drop k (mTabButtons b) →
            uniqueIdxToSeqIdx getIndex (mUniqueTabIdx b) b' = Z.of_nat k).
  { intros k b' Hk Hwf' Htabs.
    rewrite uniqueIdxToSeqIdx_find by (pose proof (wf_length getIndex b' Hwf'); lia).
    rewrite <- Hnew. rewrite (wf_find getIndex b' k newTab Hwf'); [done|].
    rewrite Htabs. by apply insert_at_lookup. }
  split.
  - destruct (insertTab_spec getIndex Clamp Hclamp idx newTab newMover b
                Hwf Hnew Hmax H0) as [Hrun Hwf'].
    eexists. split; [exact Hrun|]. split; [exact Hwf'|]. simpl.
    split; [done|]. split; [done|]. split; [done|]. split; [done|].
    apply Hfound; [lia|exact Hwf'|done].
  - pose proof INT32_MAX_lt.
    assert (Hvs : vec_size (mTabButtons b) = Z.of_nat (length (mTabButtons b)))
      by (apply vec_size_small; lia).
    destruct (insertTab_spec getIndex Clamp Hclamp (vec_size (mTabButtons b))
                newTab newMover b Hwf Hnew Hmax) as [Hrun Hwf']; [lia|].
    rewrite Hvs, Nat2Z.id, Nat.min_id in Hrun, Hwf'.
    unfold addTab. rewrite Hvs.
    eexists. split; [exact Hrun|]. simpl.
    split; [by rewrite firstn_all, drop_all|].
    split; [by rewrite <- Hlen, firstn_all, drop_all|].
    apply Hfound; [lia|exact Hwf'|done].
Qed.

Lemma insertTab_places_new_tab_witness :
  Clamp_ok clamp_Z ∧ bar_wf id bar_abc
  ∧ id 9%Z = mUniqueTabIdx bar_abc ∧ (mUniqueTabIdx bar_abc < INT32_MAX)%Z
  ∧ (0 ≤ 1)%Z
  ∧ (∃ b',
       insertTab clamp_Z 1%Z 9%Z 90 bar_abc = Ok b'
       ∧ bar_wf id b'
       ∧ mTabButtons b' = take 1 (mTabButtons bar_abc)
                          ++ 9%Z :: drop 1 (mTabButtons bar_abc)
       ∧ mDragDropElements b'
         = take 1 (mDragDropElements bar_abc)
           ++ 90 :: drop 1 (mDragDropElements bar_abc)
       ∧ mUniqueTabIdx b' = (mUniqueTabIdx bar_abc + 1)%Z
       ∧ mActiveTabIdx b' = mActiveTabIdx bar_abc
       ∧ uniqueIdxToSeqIdx id (mUniqueTabIdx bar_abc) b' = Z.of_nat 1)
  ∧ ∃ b'',
      addTab clamp_Z 9%Z 90 bar_abc = Ok b''
      ∧ mTabButtons b'' = mTabButtons bar_abc ++ [9%Z]
      ∧ mDragDropElements b'' = mDragDropElements bar_abc ++ [90]
      ∧ uniqueIdxToSeqIdx id (mUniqueTabIdx bar_abc) b''
        = Z.of_nat (length (mTabButtons bar_abc)).
Proof.
  split; [exact clamp_Z_ok|]. split; [exact bar_abc_wf|].
  split; [reflexivity|]. split; [by vm_compute|]. split; [lia|].
  apply (insertTab_places_new_tab id clamp_Z 1%Z 9%Z 90 bar_abc
           clamp_Z_ok bar_abc_wf); [reflexivity|by vm_compute|lia].
Defined.

(** X18: [removeTab] does nothing on a bar without tabs; otherwise it
    removes the tab at position [idx], or the last tab when [idx] is
    beyond it, together with its drop area, and never reads or erases
    outside the vectors. *)
Theorem removeTab_clamps_index {T M : Type} (getIndex : T → Z)
    (Clamp : Z → Z → Z → Z) idx (b : @GUITabbedTitleBar T M) :
  Clamp_ok Clamp → bar_wf getIndex b → (0 ≤ idx)%Z →
  let n := Z.to_nat idx `min` (length (mTabButtons b) - 1) in
  ∃ b',
    removeTab Clamp idx b = Ok b'
    ∧ bar_wf getIndex b'
    ∧ mTabButtons b' = delete n (mTabButtons b)
    ∧ mDragDropElements b' = delete n (mDragDropElements b)
    ∧ length (mTabButtons b') = length (mTabButtons b) - 1
    ∧ mUniqueTabIdx b' = mUniqueTabIdx b
    ∧ mActiveTabIdx b' = mActiveTabIdx b
    ∧ (mTabButtons b = [] → b' = b).
Proof.
  intros Hclamp Hwf H0 n.
  destruct (removeTab_spec getIndex Clamp Hclamp idx b Hwf H0) as [Hrun Hwf'].
  eexists. split; [exact Hrun|]. split; [exact Hwf'|]. simpl.
  split; [done|]. split; [done|]. split.
  { destruct (decide (length (mTabButtons b) = 0)) as [Hz|Hnz].
    - apply nil_length_inv in Hz. by rewrite Hz.
    - apply length_delete. by apply lookup_clamped. }
  split; [done|]. split; [done|].
  intros Hnil. destruct Hwf as (Hlen & _). rewrite Hnil in Hlen.
  apply nil_length_inv in Hlen. rewrite Hnil, Hlen.
  destruct b; simpl in *. by subst.
Qed.

Lemma removeTab_clamps_index_witness :
  Clamp_ok clamp_Z ∧ bar_wf id bar_abc ∧ (0 ≤ 7)%Z
  ∧ ∃ b',
      removeTab clamp_Z 7%Z bar_abc = Ok b'
      ∧ bar_wf id b'
      ∧ mTabButtons b'
        = delete (Z.to_nat 7 `min` (length (mTabButtons bar_abc) - 1))
                 (mTabButtons bar_abc)
      ∧ mDragDropElements b'
        = delete (Z.to_nat 7 `min` (length (mTabButtons bar_abc) - 1))
                 (mDragDropElements bar_abc)
      ∧ length (mTabButtons b') = length (mTabButtons bar_abc) - 1
      ∧ mUniqueTabIdx b' = mUniqueTabIdx bar_abc
      ∧ mActiveTabIdx b' = mActiveTabIdx bar_abc
      ∧ (mTabButtons bar_abc = [] → b' = bar_abc).
Proof.
  split; [exact clamp_Z_ok|]. split; [exact bar_abc_wf|]. split; [lia|].
  apply (removeTab_clamps_index id clamp_Z 7%Z bar_abc clamp_Z_ok bar_abc_wf).
  lia.
Defined.

(** X19: [insertTab(idx, ...)] followed by [removeTab(idx)] leaves the
    tabs and the drop areas as they were, whatever [idx] is; only the
    index handed out is not given back. *)
Theorem insert_remove_round_trip {T M : Type} (getIndex : T → Z)
    (Clamp : Z → Z → Z → Z) idx newTab newMover (b : @GUITabbedTitleBar T M) :
  Clamp_ok Clamp → bar_wf getIndex b →
  getIndex newTab = mUniqueTabIdx b → (mUniqueTabIdx b < INT32_MAX)%Z →
  (0 ≤ idx)%Z →
  ∃ b1 b2,
    insertTab Clamp idx newTab newMover b = Ok b1
    ∧ removeTab Clamp idx b1 = Ok b2
    ∧ mTabButtons b2 = mTabButtons b
    ∧ mDragDropElements b2 = mDragDropElements b
    ∧ mActiveTabIdx b2 = mActiveTabIdx b
    ∧ mUniqueTabIdx b2 = (mUniqueTabIdx b + 1)%Z.
Proof.
  intros Hclamp Hwf Hnew Hmax H0.
  destruct (insertTab_spec getIndex Clamp Hclamp idx newTab newMover b
              Hwf Hnew Hmax H0) as [Hrun1 Hwf1].
  destruct (removeTab_spec getIndex Clamp Hclamp idx _ Hwf1 H0) as [Hrun2 _].
  eexists _, _. split; [exact Hrun1|]. split; [exact Hrun2|]. simpl.
  destruct Hwf as (Hlen & _).
  set (n := Z.to_nat idx `min` length (mTabButtons b)).
  assert (Hn : Z.to_nat idx
               `min` (length (take n (mTabButtons b)
                                ++ newTab :: drop n (mTabButtons b)) - 1) = n).
  { rewrite insert_at_length by lia. lia. }
  rewrite Hn. split; [apply insert_at_delete; lia|].
  split; [apply insert_at_delete; lia|]. done.
Qed.

Lemma insert_remove_round_trip_witness :
  Clamp_ok clamp_Z ∧ bar_wf id bar_abc
  ∧ id 9%Z = mUniqueTabIdx bar_abc ∧ (mUniqueTabIdx bar_abc < INT32_MAX)%Z
  ∧ (0 ≤ 100)%Z
  ∧ ∃ b1 b2,
      insertTab clamp_Z 100%Z 9%Z 90 bar_abc = Ok b1
      ∧ removeTab clamp_Z 100%Z b1 = Ok b2
      ∧ mTabButtons b2 = mTabButtons bar_abc
      ∧ mDragDropElements b2 = mDragDropElements bar_abc
      ∧ mActiveTabIdx b2 = mActiveTabIdx bar_abc
      ∧ mUniqueTabIdx b2 = (mUniqueTabIdx bar_abc + 1)%Z.
Proof.
  split; [exact clamp_Z_ok|]. split; [exact bar_abc_wf|].
  split; [reflexivity|]. split; [by vm_compute|]. split; [lia|].
  apply (insert_remove_round_trip id clamp_Z 100%Z 9%Z 90 bar_abc
           clamp_Z_ok bar_abc_wf); [reflexivity|by vm_compute|lia].
Defined.

(** X20: [tabClosed] closes the active tab.  When the tab at position
    [i] has the index [mActiveTabIdx], it and its drop area are removed,
    the first of the remaining tabs becomes the active one, and
    [onTabClosed] is triggered with [i] unless [empty()] holds of it.
    When it was the only tab, [mActiveTabIdx] keeps its index, which no
    tab has any more, and a further [tabClosed] does nothing. *)
Theorem tabClosed_closes_active_tab {T M : Type} (getIndex : T → Z)
    (Clamp : Z → Z → Z → Z) (onTabClosed : EventInternalData)
    (b : @GUITabbedTitleBar T M) (i : nat) (t : T) :
  Clamp_ok Clamp → bar_wf getIndex b →
  mTabButtons b !! i = Some t → getIndex t = mActiveTabIdx b →
  ∃ b',
    tabClosed getIndex Clamp onTabClosed b
    = Ok (b', if TEvent_empty onTabClosed then None else Some (Z.of_nat i))
    ∧ bar_wf getIndex b'
    ∧ mTabButtons b' = delete i (mTabButtons b)
    ∧ mDragDropElements b' = delete i (mDragDropElements b)
    ∧ mActiveTabIdx b'
      = match delete i (mTabButtons b) with
        | t0 :: _ => getIndex t0
        | [] => mActiveTabIdx b
        end
    ∧ (delete i (mTabButtons b) = [] →
       tabClosed getIndex Clamp onTabClosed b' = Ok (b', None)).
Proof.
  intros Hclamp Hwf Hi Ht.
  pose proof (wf_length getIndex b Hwf) as Hlen.
  pose proof (lookup_lt_Some _ _ _ Hi) as Hlt.
  pose proof INT32_MAX_lt as Hm.
  unfold tabClosed.
  rewrite (uniqueIdxToSeqIdx_find getIndex _ b) by lia.
  rewrite <- Ht, (wf_find getIndex b i t Hwf Hi).
  rewrite decide_True by lia.
  rewrite to_UINT32_small by lia.
  destruct (removeTab_spec getIndex Clamp Hclamp (Z.of_nat i) b Hwf) as [Hrun Hwf1];
    [lia|].
  replace (Z.to_nat (Z.of_nat i) `min` (length (mTabButtons b) - 1)) with i
    in Hrun, Hwf1 by lia.
  rewrite Hrun, bind_Ok_l. simpl mTabButtons.
  destruct (delete i (mTabButtons b)) as [|t0 rest] eqn:Hdel.
  - rewrite decide_False by (simpl; lia). rewrite bind_Ok_l.
    eexists. split; [reflexivity|]. split; [exact Hwf1|]. simpl.
    split; [done|]. split; [done|]. split; [done|]. intros _. reflexivity.
  - rewrite decide_True by (simpl; lia).
    unfold vec_at. simpl. 
    eexists. split; [reflexivity|]. split.
    { destruct Hwf1 as (? & ? & ? & ? & ?). split; [done|]. by split. }
    simpl. split; [done|]. split; [done|]. split; [done|]. done.
Qed.

Lemma tabClosed_closes_active_tab_witness :
  Clamp_ok clamp_Z ∧ bar_wf id bar_abc
  ∧ mTabButtons bar_abc !! 1 = Some 5%Z ∧ id 5%Z = mActiveTabIdx bar_abc
  ∧ ∃ b',
      tabClosed id clamp_Z (ev world_one) bar_abc
      = Ok (b', if TEvent_empty (ev world_one) then None else Some (Z.of_nat 1))
      ∧ bar_wf id b'
      ∧ mTabButtons b' = delete 1 (mTabButtons bar_abc)
      ∧ mDragDropElements b' = delete 1 (mDragDropElements bar_abc)
      ∧ mActiveTabIdx b'
        = match delete 1 (mTabButtons bar_abc) with
          | t0 :: _ => id t0
          | [] => mActiveTabIdx bar_abc
          end
      ∧ (delete 1 (mTabButtons bar_abc) = [] →
         tabClosed id clamp_Z (ev world_one) b' = Ok (b', None)).
Proof.
  split; [exact clamp_Z_ok|]. split; [exact bar_abc_wf|].
  split; [reflexivity|]. split; [reflexivity|].
  apply (tabClosed_closes_active_tab id clamp_Z (ev world_one) bar_abc 1 5%Z
           clamp_Z_ok bar_abc_wf); reflexivity.
Defined.

(** X21: the events of the title bar carry positions.  For the tab at
    position [i], [tabDraggedOff] triggers [onTabDraggedOff] with [i] and
    [tabDraggedOn] triggers [onTabDraggedOn] with [i + 1], each unless
    [empty()] holds of its event; for an index that no tab has, and in
    particular for [mActiveTabIdx] after the last tab was closed, neither
    of them nor [tabClosed] triggers anything or changes the bar. *)
Theorem tab_events_carry_positions {T M : Type} (getIndex : T → Z)
    (Clamp : Z → Z → Z → Z) (onEvent : EventInternalData)
    (b : @GUITabbedTitleBar T M) :
  bar_wf getIndex b →
  (∀ i t, mTabButtons b !! i = Some t →
     tabDraggedOff getIndex (getIndex t) onEvent b
     = (if TEvent_empty onEvent then None else Some (Z.of_nat i))
     ∧ tabDraggedOn getIndex (getIndex t) onEvent b
       = Ok (if TEvent_empty onEvent then None else Some (Z.of_nat i + 1)%Z))
  ∧ ∀ u, (∀ t, t ∈ mTabButtons b → getIndex t ≠ u) →
      tabDraggedOff getIndex u onEvent b = None
      ∧ tabDraggedOn getIndex u onEvent b = Ok None
      ∧ (mActiveTabIdx b = u →
         tabClosed getIndex Clamp onEvent b = Ok (b, None)).
Proof.
  intros Hwf. pose proof (wf_length getIndex b Hwf) as Hlen. split.
  - intros i t Hi. pose proof (lookup_lt_Some _ _ _ Hi) as Hlt.
    unfold tabDraggedOff, tabDraggedOn.
    rewrite (uniqueIdxToSeqIdx_find getIndex _ b) by lia.
    rewrite (wf_find getIndex b i t Hwf Hi).
    rewrite !decide_True by lia.
    destruct (TEvent_empty onEvent); [done|].
    by rewrite decide_False by lia.
  - intros u Hnone.
    assert (Hfind : list_find (λ t, getIndex t = u) (mTabButtons b) = None).
    { apply list_find_None, Forall_forall. exact Hnone. }
    unfold tabDraggedOff, tabDraggedOn.
    rewrite (uniqueIdxToSeqIdx_find getIndex _ b) by lia.
    rewrite Hfind. rewrite !decide_False by (intros H; by apply H).
    split; [done|]. split; [done|]. intros Hact.
    apply tabClosed_not_found; [lia|]. by rewrite Hact.
Qed.

Lemma tab_events_carry_positions_witness :
  bar_wf id bar_abc
  ∧ (∀ i t, mTabButtons bar_abc !! i = Some t →
       tabDraggedOff id (id t) (ev world_one) bar_abc
       = (if TEvent_empty (ev world_one) then None else Some (Z.of_nat i))
       ∧ tabDraggedOn id (id t) (ev world_one) bar_abc
         = Ok (if TEvent_empty (ev world_one) then None
               else Some (Z.of_nat i + 1)%Z))
  ∧ ∀ u, (∀ t, t ∈ mTabButtons bar_abc → id t ≠ u) →
      tabDraggedOff id u (ev world_one) bar_abc = None
      ∧ tabDraggedOn id u (ev world_one) bar_abc = Ok None
      ∧ (mActiveTabIdx bar_abc = u →
         tabClosed id clamp_Z (ev world_one) bar_abc = Ok (bar_abc, None)).
Proof.
  split; [exact bar_abc_wf|].
  apply (tab_events_carry_positions id clamp_Z (ev world_one) bar_abc bar_abc_wf).
Defined.

(** ** The cache of input layouts *)



(** X23: a cached layout is returned without a call to the device: the
    result is the stored layout, the entry is stamped with the
    incremented counter, and nothing else changes.  On a well-formed
    cache whose counter is below 2^32 - 1 the entry is then the one used
    most recently, its stamp above that of every other entry, and the
    cache stays well formed.  When the counter is 2^32 - 1 it wraps: the
    entry is stamped 0, which is not above any other stamp. *)
Theorem cached_layout_is_returned
    {VertexElementSemantic VertexElementType LPCSTR DXGI_FORMAT : Type}
    {ID3D11InputLayout HLSLMicroCode : Type}
    `{!EqDecision VertexElementSemantic}
    (get_semantic : VertexElementSemantic → LPCSTR)
    (get_format : VertexElementType → DXGI_FORMAT)
    (CreateInputLayout :
       list (@D3D11_INPUT_ELEMENT_DESC LPCSTR DXGI_FORMAT) → HLSLMicroCode →
       option ID3D11InputLayout)
    (DECLARATION_BUFFER_SIZE NUM_ELEMENTS_TO_PRUNE : Z)
    shaderElems bufferElems pair microcode
    (m : @D3D11InputLayoutManager ID3D11InputLayout) e :
  mInputLayoutMap m !! pair = Some e →
  ∃ m',
    retrieveInputLayout get_semantic get_format CreateInputLayout
      DECLARATION_BUFFER_SIZE NUM_ELEMENTS_TO_PRUNE
      shaderElems bufferElems pair microcode m
    = Returns m' (inputLayout e)
    ∧ mLastUsedCounter m' = u32_inc (mLastUsedCounter m)
    ∧ mInputLayoutMap m'
      = <[pair := mkEntry (inputLayout e) (mLastUsedCounter m')]>
          (mInputLayoutMap m)
    ∧ mWarningShown m' = mWarningShown m
    ∧ size (mInputLayoutMap m') = size (mInputLayoutMap m)
    ∧ (cache_wf m → (mLastUsedCounter m < UINT32_MOD - 1)%Z →
       mLastUsedCounter m' = (mLastUsedCounter m + 1)%Z
       ∧ is_Some (inputLayout e)
       ∧ cache_wf m'
       ∧ ∀ k' e', k' ≠ pair → mInputLayoutMap m' !! k' = Some e' →
           (lastUsedIdx e' < mLastUsedCounter m')%Z)
    ∧ (cache_wf m → mLastUsedCounter m = (UINT32_MOD - 1)%Z →
       mLastUsedCounter m' = 0%Z
       ∧ ∀ k' e', mInputLayoutMap m' !! k' = Some e' →
           (mLastUsedCounter m' ≤ lastUsedIdx e')%Z).
Proof.
  intros He. unfold retrieveInputLayout. rewrite He.
  eexists. split; [reflexivity|]. simpl.
  split; [done|]. split; [done|]. split; [done|]. split.
  { apply map_size_insert_Some. by eexists. }
  split.
  - intros Hwf Hcnt. pose proof Hwf as (_ & Hrange & Hc).
    destruct (Hrange pair e He) as [_ [layout Hl]].
    rewrite u32_inc_small by lia.
    split; [done|]. split; [by eexists|]. split.
    + rewrite Hl. apply cache_wf_touch; [done|lia].
    + intros k' e' Hne. rewrite lookup_insert_ne by done. intros He'.
      destruct (Hrange k' e' He') as [? _]. lia.
  - intros Hwf Hcnt. pose proof Hwf as (_ & Hrange & _).
    assert (Hz : u32_inc (mLastUsedCounter m) = 0%Z) by (by rewrite Hcnt).
    rewrite Hz. split; [done|].
    intros k' e'. rewrite lookup_insert_Some.
    intros [[_ <-]|[_ He']]; [done|].
    by destruct (Hrange k' e' He') as [[? _] _].
Qed.

Lemma cached_layout_is_returned_witness :
  (mInputLayoutMap cache_two !! (1, 1)%Z = Some (mkEntry (Some 10) 4%Z)
   ∧ cache_wf cache_two
   ∧ (mLastUsedCounter cache_two < UINT32_MOD - 1)%Z
   ∧ ∃ m',
       retrieveInputLayout id id device_failing 2%Z 1%Z
         shader_elems buffer_elems (1, 1)%Z tt cache_two
       = Returns m' (Some 10)
       ∧ mInputLayoutMap m' !! (1, 1)%Z = Some (mkEntry (Some 10) 8%Z)
       ∧ mLastUsedCounter m' = 8%Z
       ∧ cache_wf m'
       ∧ ∀ k' e', k' ≠ (1, 1)%Z → mInputLayoutMap m' !! k' = Some e' →
           (lastUsedIdx e' < mLastUsedCounter m')%Z)
  ∧ (mInputLayoutMap cache_at_wrap !! (2, 1)%Z = Some (mkEntry (Some 20) 7%Z)
     ∧ cache_wf cache_at_wrap
     ∧ mLastUsedCounter cache_at_wrap = (UINT32_MOD - 1)%Z
     ∧ ∃ m',
         retrieveInputLayout id id device_failing 2%Z 1%Z
           shader_elems buffer_elems (2, 1)%Z tt cache_at_wrap
         = Returns m' (Some 20)
         ∧ mInputLayoutMap m' !! (2, 1)%Z = Some (mkEntry (Some 20) 0%Z)
         ∧ mLastUsedCounter m' = 0%Z
         ∧ ∀ k' e', mInputLayoutMap m' !! k' = Some e' →
             (mLastUsedCounter m' ≤ lastUsedIdx e')%Z).
Proof.
  split.
  - split; [reflexivity|]. split; [exact cache_two_wf|]. split; [by vm_compute|].
    destruct (cached_layout_is_returned id id device_failing 2%Z 1%Z
                shader_elems buffer_elems (1, 1)%Z tt cache_two
                (mkEntry (Some 10) 4%Z) eq_refl)
      as (m' & Hrun & Hc & Hmap & _ & _ & Hrecent & _).
    destruct (Hrecent cache_two_wf) as (Hc' & _ & Hwf' & Hmax); [by vm_compute|].
    exists m'. split; [exact Hrun|]. split.
    { rewrite Hmap, lookup_insert_eq, Hc'. reflexivity. }
    split; [rewrite Hc'; reflexivity|]. split; [exact Hwf'|exact Hmax].
  - split; [reflexivity|]. split; [exact cache_at_wrap_wf|]. split; [reflexivity|].
    destruct (cached_layout_is_returned id id device_failing 2%Z 1%Z
                shader_elems buffer_elems (2, 1)%Z tt cache_at_wrap
                (mkEntry (Some 20) 7%Z) eq_refl)
      as (m' & Hrun & Hc & Hmap & _ & _ & _ & Hwrap).
    destruct (Hwrap cache_at_wrap_wf eq_refl) as (Hc' & Hmin).
    exists m'. split; [exact Hrun|]. split.
    { rewrite Hmap, lookup_insert_eq, Hc'. reflexivity. }
    split; [exact Hc'|exact Hmin].
Defined.

(** X24: [retrieveInputLayout] keeps the cache within its bound.
    Assume a well-formed cache (distinct time stamps, none above the
    counter, no null layout) of at most [DECLARATION_BUFFER_SIZE]
    entries, with [0 ≤ NUM_ELEMENTS_TO_PRUNE],
    [1 ≤ DECLARATION_BUFFER_SIZE < 2^32] and the counter below
    [2^32 - 2], so that it does not wrap in the call.  Then the call is
    undefined exactly when the key is not cached and the two
    declarations give no element; when it returns, the layout returned
    is not null and is cached under the key with the counter as its time
    stamp; when it throws, the key was not cached, the device failed on
    a declaration that is not empty, and the key is still not cached; in
    these two cases the cache is well formed and holds at most
    [DECLARATION_BUFFER_SIZE] entries. *)
Theorem retrieveInputLayout_keeps_cache_bounded
    {VertexElementSemantic VertexElementType LPCSTR DXGI_FORMAT : Type}
    {ID3D11InputLayout HLSLMicroCode : Type}
    `{!EqDecision VertexElementSemantic}
    (get_semantic : VertexElementSemantic → LPCSTR)
    (get_format : VertexElementType → DXGI_FORMAT)
    (CreateInputLayout :
       list (@D3D11_INPUT_ELEMENT_DESC LPCSTR DXGI_FORMAT) → HLSLMicroCode →
       option ID3D11InputLayout)
    (DECLARATION_BUFFER_SIZE NUM_ELEMENTS_TO_PRUNE : Z)
    shaderElems bufferElems pair microcode
    (m : @D3D11InputLayoutManager ID3D11InputLayout) :
  cache_wf m →
  (0 ≤ NUM_ELEMENTS_TO_PRUNE)%Z →
  (1 ≤ DECLARATION_BUFFER_SIZE < UINT32_MOD)%Z →
  (Z.of_nat (size (mInputLayoutMap m)) ≤ DECLARATION_BUFFER_SIZE)%Z →
  (mLastUsedCounter m < UINT32_MOD - 2)%Z →
  match retrieveInputLayout get_semantic get_format CreateInputLayout
          DECLARATION_BUFFER_SIZE NUM_ELEMENTS_TO_PRUNE
          shaderElems bufferElems pair microcode m with
  | Returns m' r =>
      (mInputLayoutMap m !! pair = None →
       declaration_elements get_semantic get_format shaderElems bufferElems
       ≠ [])
      ∧ cache_wf m'
      ∧ (Z.of_nat (size (mInputLayoutMap m')) ≤ DECLARATION_BUFFER_SIZE)%Z
      ∧ (mLastUsedCounter m < mLastUsedCounter m')%Z
      ∧ ∃ layout,
          r = Some layout
          ∧ mInputLayoutMap m' !! pair
            = Some (mkEntry (Some layout) (mLastUsedCounter m'))
  | Throws m' =>
      declaration_elements get_semantic get_format shaderElems bufferElems
      ≠ []
      ∧ cache_wf m'
      ∧ (Z.of_nat (size (mInputLayoutMap m')) ≤ DECLARATION_BUFFER_SIZE)%Z
      ∧ mInputLayoutMap m !! pair = None
      ∧ mInputLayoutMap m' !! pair = None
      ∧ CreateInputLayout
          (declaration_elements get_semantic get_format shaderElems bufferElems)
          microcode = None
  | Undefined =>
      mInputLayoutMap m !! pair = None
      ∧ declaration_elements get_semantic get_format shaderElems bufferElems
        = []
  end.
Proof.
  intros Hwf Hnum Hbuf Hsize Hcnt.
  destruct (mInputLayoutMap m !! pair) as [e|] eqn:He.
  - destruct (retrieve_hit get_semantic get_format CreateInputLayout
                DECLARATION_BUFFER_SIZE NUM_ELEMENTS_TO_PRUNE
                shaderElems bufferElems pair microcode m e Hwf He)
      as (layout & -> & Hl & Hwf' & Hmax); [lia|].
    split; [done|]. split; [done|]. simpl. split.
    { rewrite map_size_insert_Some by (by eexists). done. }
    split; [lia|]. exists layout. split; [done|]. by rewrite lookup_insert_eq.
  - assert (Hd : declaration_elements get_semantic get_format
                   shaderElems bufferElems = []
                 ∨ declaration_elements get_semantic get_format
                     shaderElems bufferElems ≠ []).
    { destruct (declaration_elements _ _ _ _); [by left|by right]. }
    destruct Hd as [Hd|Hd].
    { rewrite (retrieve_miss_empty get_semantic get_format CreateInputLayout
                 DECLARATION_BUFFER_SIZE NUM_ELEMENTS_TO_PRUNE
                 shaderElems bufferElems pair microcode m He Hd).
      done. }
    destruct (retrieve_miss get_semantic get_format CreateInputLayout
                DECLARATION_BUFFER_SIZE NUM_ELEMENTS_TO_PRUNE
                shaderElems bufferElems pair microcode m He Hwf Hnum)
      as (mp1 & w1 & Hsub & Hsz & ->); [lia|done|done|].
    assert (Hwf1 : cache_wf (mkManager mp1 (mLastUsedCounter m) (mWarningShown m)))
      by (by apply cache_wf_subseteq).
    assert (Hnone : mp1 !! pair = None) by (by eapply lookup_weaken_None).
    assert (Hbound : (Z.of_nat (size mp1) + 1 ≤ DECLARATION_BUFFER_SIZE)%Z).
    { revert Hsz. case_decide; intros Hsz.
      - rewrite Hsz. lia.
      - subst mp1. lia. }
    destruct (CreateInputLayout _ microcode) as [layout|] eqn:Hdev.
    + split; [done|]. split.
      { apply (cache_wf_touch (mkManager mp1 (mLastUsedCounter m) w1)
                 pair layout _ w1); [|simpl; lia].
        by apply (cache_wf_counter m mp1 (mLastUsedCounter m) w1). }
      simpl. split; [rewrite map_size_insert_None by done; lia|].
      split; [lia|]. exists layout. split; [done|]. by rewrite lookup_insert_eq.
    + split; [done|].
      split; [apply (cache_wf_counter m mp1); [done|lia]|].
      simpl. split; [lia|]. done.
Qed.

Lemma retrieveInputLayout_keeps_cache_bounded_witness :
  cache_wf cache_two
  ∧ (0 ≤ 1)%Z ∧ (1 ≤ 2 < UINT32_MOD)%Z
  ∧ (Z.of_nat (size (mInputLayoutMap cache_two)) ≤ 2)%Z
  ∧ (mLastUsedCounter cache_two < UINT32_MOD - 2)%Z
  ∧ (∃ m' layout,
      retrieveInputLayout id id device_ok 2%Z 1%Z
        shader_elems buffer_elems (3, 1)%Z tt cache_two
      = Returns m' (Some layout)
      ∧ cache_wf m'
      ∧ (Z.of_nat (size (mInputLayoutMap m')) ≤ 2)%Z
      ∧ (mLastUsedCounter cache_two < mLastUsedCounter m')%Z
      ∧ mInputLayoutMap m' !! (3, 1)%Z
        = Some (mkEntry (Some layout) (mLastUsedCounter m')))
  ∧ (∃ m',
      retrieveInputLayout id id device_failing 2%Z 1%Z
        shader_elems buffer_elems (3, 1)%Z tt cache_two
      = Throws m'
      ∧ cache_wf m'
      ∧ (Z.of_nat (size (mInputLayoutMap m')) ≤ 2)%Z
      ∧ mInputLayoutMap m' !! (3, 1)%Z = None)
  ∧ retrieveInputLayout id id device_ok 2%Z 1%Z [] [] (3, 1)%Z tt cache_two
    = Undefined
  ∧ mInputLayoutMap cache_two !! (3, 1)%Z = None
  ∧ declaration_elements id id
      (@nil (@VertexElement nat nat)) (@nil (@VertexElement nat nat)) = [].
Proof.
  split; [exact cache_two_wf|]. split; [lia|]. split; [by vm_compute|].
  split; [by vm_compute|]. split; [by vm_compute|]. split; [|split].
  - pose proof (retrieveInputLayout_keeps_cache_bounded id id device_ok 2%Z 1%Z
                  shader_elems buffer_elems (3, 1)%Z tt cache_two cache_two_wf) as H.
    destruct (retrieveInputLayout id id device_ok 2%Z 1%Z
                shader_elems buffer_elems (3, 1)%Z tt cache_two) as [m' r| |] eqn:E.
    + destruct H as (_ & Hwf & Hsz & Hc & layout & -> & Hl);
        [lia|by vm_compute|by vm_compute|by vm_compute|].
      exists m', layout. done.
    + vm_compute in E. discriminate E.
    + vm_compute in E. discriminate E.
  - pose proof (retrieveInputLayout_keeps_cache_bounded id id device_failing 2%Z 1%Z
                  shader_elems buffer_elems (3, 1)%Z tt cache_two cache_two_wf) as H.
    destruct (retrieveInputLayout id id device_failing 2%Z 1%Z
                shader_elems buffer_elems (3, 1)%Z tt cache_two) as [m' r|m'|] eqn:E.
    + vm_compute in E. discriminate E.
    + destruct H as (_ & Hwf & Hsz & _ & Hn & _);
        [lia|by vm_compute|by vm_compute|by vm_compute|].
      exists m'. done.
    + vm_compute in E. discriminate E.
  - pose proof (retrieveInputLayout_keeps_cache_bounded id id device_ok 2%Z 1%Z
                  [] [] (3, 1)%Z tt cache_two cache_two_wf) as H.
    destruct (retrieveInputLayout id id device_ok 2%Z 1%Z
                [] [] (3, 1)%Z tt cache_two) as [m' r|m'|] eqn:E.
    + vm_compute in E. discriminate E.
    + vm_compute in E. discriminate E.
    + split; [reflexivity|]. apply H; [lia|by vm_compute|by vm_compute|by vm_compute].
Defined.

(** X25: the layout retrieved last survives the next pruning, as long
    as the counter has not wrapped.  Assume a well-formed cache (distinct
    time stamps, none above the counter, no null layout) that holds the
    key, fewer than [2^32] entries, more entries than
    [max 1 NUM_ELEMENTS_TO_PRUNE], the counter below [2^32 - 1] and
    [0 ≤ NUM_ELEMENTS_TO_PRUNE].  Then [retrieveInputLayout] returns the
    cached layout, and a call of [removeLeastUsed] after it erases
    [max 1 NUM_ELEMENTS_TO_PRUNE] entries and keeps the entry of the
    key, with time stamp [mLastUsedCounter + 1]. *)
Theorem retrieved_layout_survives_pruning
    {VertexElementSemantic VertexElementType LPCSTR DXGI_FORMAT : Type}
    {ID3D11InputLayout HLSLMicroCode : Type}
    `{!EqDecision VertexElementSemantic}
    (get_semantic : VertexElementSemantic → LPCSTR)
    (get_format : VertexElementType → DXGI_FORMAT)
    (CreateInputLayout :
       list (@D3D11_INPUT_ELEMENT_DESC LPCSTR DXGI_FORMAT) → HLSLMicroCode →
       option ID3D11InputLayout)
    (DECLARATION_BUFFER_SIZE NUM_ELEMENTS_TO_PRUNE : Z)
    shaderElems bufferElems pair microcode
    (m : @D3D11InputLayoutManager ID3D11InputLayout) e :
  cache_wf m → mInputLayoutMap m !! pair = Some e →
  (mLastUsedCounter m < UINT32_MOD - 1)%Z →
  (0 ≤ NUM_ELEMENTS_TO_PRUNE)%Z →
  (Z.of_nat (size (mInputLayoutMap m)) < UINT32_MOD)%Z →
  Z.to_nat (Z.max 1 NUM_ELEMENTS_TO_PRUNE) < size (mInputLayoutMap m) →
  ∃ m1 layout mp2,
    retrieveInputLayout get_semantic get_format CreateInputLayout
      DECLARATION_BUFFER_SIZE NUM_ELEMENTS_TO_PRUNE
      shaderElems bufferElems pair microcode m
    = Returns m1 (Some layout)
    ∧ removeLeastUsed NUM_ELEMENTS_TO_PRUNE m1
      = Returns (mkManager mp2 (mLastUsedCounter m1) true) tt
    ∧ mp2 !! pair = Some (mkEntry (Some layout) (mLastUsedCounter m + 1)%Z)
    ∧ size mp2 = size (mInputLayoutMap m)
                 - Z.to_nat (Z.max 1 NUM_ELEMENTS_TO_PRUNE).
Proof.
  intros Hwf He Hcnt Hnum Hsize Hmore.
  destruct (retrieve_hit get_semantic get_format CreateInputLayout
              DECLARATION_BUFFER_SIZE NUM_ELEMENTS_TO_PRUNE
              shaderElems bufferElems pair microcode m e Hwf He Hcnt)
    as (layout & Hrun & Hl & Hwf1 & Hmax).
  set (m1 := mkManager _ _ _) in *.
  assert (Hsz1 : size (mInputLayoutMap m1) = size (mInputLayoutMap m)).
  { apply map_size_insert_Some. by eexists. }
  destruct (removeLeastUsed_spec NUM_ELEMENTS_TO_PRUNE m1 Hwf1 Hnum)
    as (mp2 & Hrun2 & Hsub & Hsz2 & Hage); [rewrite Hsz1; lia|].
  exists m1, layout, mp2. split; [exact Hrun|]. split; [exact Hrun2|].
  rewrite Hsz1 in Hsz2. split; [|lia].
  assert (Hin : mInputLayoutMap m1 !! pair
                = Some (mkEntry (Some layout) (mLastUsedCounter m + 1)%Z))
    by apply lookup_insert_eq.
  destruct (mp2 !! pair) as [x|] eqn:Hx.
  { by rewrite <- (lookup_weaken _ _ _ _ Hx Hsub). }
  assert (Hne : size mp2 ≠ 0) by lia.
  apply map_size_ne_0_lookup in Hne as (k' & [e' He']).
  pose proof (Hage pair _ k' e' Hin Hx He') as Hlt. simpl in Hlt.
  assert (Hk' : k' ≠ pair) by (intros ->; congruence).
  pose proof (lookup_weaken _ _ _ _ He' Hsub) as He1.
  unfold m1 in He1. simpl in He1. rewrite lookup_insert_ne in He1 by done.
  pose proof (Hmax k' e' Hk' He1). lia.
Qed.

Lemma retrieved_layout_survives_pruning_witness :
  cache_wf cache_two
  ∧ mInputLayoutMap cache_two !! (1, 1)%Z = Some (mkEntry (Some 10) 4%Z)
  ∧ (mLastUsedCounter cache_two < UINT32_MOD - 1)%Z
  ∧ (0 ≤ 1)%Z
  ∧ (Z.of_nat (size (mInputLayoutMap cache_two)) < UINT32_MOD)%Z
  ∧ Z.to_nat (Z.max 1 1) < size (mInputLayoutMap cache_two)
  ∧ ∃ m1 layout mp2,
      retrieveInputLayout id id device_failing 2%Z 1%Z
        shader_elems buffer_elems (1, 1)%Z tt cache_two
      = Returns m1 (Some layout)
      ∧ removeLeastUsed 1%Z m1
        = Returns (mkManager mp2 (mLastUsedCounter m1) true) tt
      ∧ mp2 !! (1, 1)%Z
        = Some (mkEntry (Some layout) (mLastUsedCounter cache_two + 1)%Z)
      ∧ size mp2 = size (mInputLayoutMap cache_two) - Z.to_nat (Z.max 1 1).
Proof.
  split; [exact cache_two_wf|]. split; [reflexivity|]. split; [by vm_compute|].
  split; [lia|]. split; [by vm_compute|]. split; [vm_compute; lia|].
  apply (retrieved_layout_survives_pruning id id device_failing 2%Z 1%Z
           shader_elems buffer_elems (1, 1)%Z tt cache_two
           (mkEntry (Some 10) 4%Z) cache_two_wf);
    [reflexivity|by vm_compute|lia|by vm_compute|vm_compute; lia].
Defined.

(** X26: the declaration handed to the device.  It starts with one
    element for each element of the buffer declaration, in order; after
    them comes one element, in a stream of its own, for each element of
    the shader declaration whose semantic and semantic index the buffer
    declaration lacks.  So every element of the shader declaration is
    matched by name and index, and the stream of the added elements is
    used by no element of the buffer. *)
Theorem declaration_covers_shader
    {VertexElementSemantic VertexElementType LPCSTR DXGI_FORMAT : Type}
    `{!EqDecision VertexElementSemantic}
    (get_semantic : VertexElementSemantic → LPCSTR)
    (get_format : VertexElementType → DXGI_FORMAT)
    (shaderElems bufferElems
       : list (@VertexElement VertexElementSemantic VertexElementType)) :
  let declElements :=
    declaration_elements get_semantic get_format shaderElems bufferElems in
  take (length bufferElems) declElements
  = buffer_element_desc get_semantic get_format <$> bufferElems
  ∧ length declElements
    = length bufferElems
      + length (filter (λ s, found_in bufferElems s = false) shaderElems)
  ∧ (∀ s, s ∈ shaderElems →
       ∃ d, d ∈ declElements
            ∧ SemanticName d = get_semantic (getSemantic s)
            ∧ SemanticIndex d = getSemanticIdx s)
  ∧ ∀ d b, d ∈ drop (length bufferElems) declElements → b ∈ bufferElems →
      (0 ≤ getStreamIdx b < INT32_MAX)%Z →
      AlignedByteOffset d = 0%Z
      ∧ InputSlotClass d = D3D11_INPUT_PER_VERTEX_DATA
      ∧ (getStreamIdx b < InputSlot d)%Z.
Proof.
  intros declElements. unfold declElements.
  rewrite declaration_elements_eq.
  set (mx := foldl _ _ bufferElems).
  set (missing := filter _ shaderElems).
  assert (Hlen : length (buffer_element_desc get_semantic get_format <$> bufferElems)
                 = length bufferElems) by apply length_fmap.
  split; [|split; [|split]].
  - rewrite <- Hlen at 1. by rewrite take_app_length.
  - by rewrite length_app, !length_fmap.
  - intros s Hs. destruct (found_in bufferElems s) eqn:Hf.
    + unfold found_in in Hf. apply existsb_exists in Hf as (b & Hb & Heq).
      apply andb_true_iff in Heq as [H1 H2].
      apply bool_decide_eq_true in H1, H2.
      exists (buffer_element_desc get_semantic get_format b).
      split; [|simpl; by rewrite H1, H2].
      rewrite elem_of_app. left. apply list_elem_of_fmap_2.
      by apply list_elem_of_In.
    + exists (dummy_element_desc get_semantic get_format mx s).
      split; [|done]. rewrite elem_of_app. right. apply list_elem_of_fmap_2.
      by apply list_elem_of_filter.
  - intros d b Hd Hb Hrange.
    rewrite <- Hlen in Hd at 1. rewrite drop_app_length in Hd.
    apply list_elem_of_fmap in Hd as (s & -> & _). simpl.
    split; [done|]. split; [done|].
    destruct (max_stream_le bufferElems (-1)%Z) as [Hlo Hhi].
    specialize (Hhi b Hb). fold mx in Hlo, Hhi.
    rewrite to_INT32_small in Hhi by lia.
    assert (Hmx : (mx ≤ INT32_MAX)%Z).
    { apply max_stream_bound. unfold INT32_MAX. lia. }
    rewrite to_UINT32_small; [lia|].
    unfold INT32_MAX, UINT32_MOD in *. lia.
Qed.
